(** * ndp/model.py: greedy row/column elimination with learned lookahead

    A shallow embedding of [src/ndp/model.py] and the properties of its
    position evaluator, greedy rollout, fine-tuning targets, loader,
    constructor and training loops.

    Conventions of the embedding:
    - tensor entries and network parameters are integers ([Z]).  The
      definitions of [Agent] add them exactly; those of [Rounded] are the
      same definitions with the additions of the machine and the answers
      of the estimators left open, and every statement whose truth depends
      on how the machine rounds is made of them;
    - a three-axis tensor is a nested list, [cost.shape[0]] is its length;
    - Python exceptions are the constructors of [Exn]; a method of [Agent]
      is a function of the machine state returning a [Result] and the new
      state;
    - an estimator is called on a batch of one state, as every call of
      lines 143 and 167 is;
    - the estimator factory, the random generator, the optimiser, the loss
      and the file system are parameters of the training model (see
      [Environment]); [load] takes the checkpoint contents as an
      argument. *)

From stdpp Require Import base numbers list strings sorting gmap pretty.
From Stdlib Require Import ZArith Lia.

(** ** Exceptions and fallible results *)

Inductive Exn :=
  | IndexError | TypeError | AttributeError | RuntimeError | NameError
  | OutOfFuel.

Inductive Result (A : Type) :=
  | Ok (a : A)
  | Raise (e : Exn).
Arguments Ok {A} a.
Arguments Raise {A} e.

#[global] Instance result_ret : MRet Result := λ A a, Ok a.
#[global] Instance result_bind : MBind Result := λ A B f r,
  match r with Ok a => f a | Raise e => Raise e end.

Fixpoint mapR {A B} (f : A → Result B) (l : list A) : Result (list B) :=
  match l with
  | [] => Ok []
  | x :: l' => y ← f x; ys ← mapR f l'; Ok (y :: ys)
  end.

(** ** Tensors *)

Abbreviation Tensor := (list (list (list Z))).

(** [l[i]] for a non-negative index. *)
Definition getitem_nat {A} (l : list A) (i : nat) : Result A :=
  match l !! i with Some a => Ok a | None => Raise IndexError end.

(** [l[i]] for a Python integer: a negative index counts from the end. *)
Definition resolve_index (len : nat) (i : Z) : Result nat :=
  if (0 <=? i)%Z then
    if (i <? Z.of_nat len)%Z then Ok (Z.to_nat i) else Raise IndexError
  else
    if (0 <=? Z.of_nat len + i)%Z then Ok (Z.to_nat (Z.of_nat len + i))
    else Raise IndexError.

(** [cost[i, j, k]] *)
Definition index3 (t : Tensor) (i j k : nat) : Result Z :=
  block ← getitem_nat t i; row ← getitem_nat block j; getitem_nat row k.

(** [t.item()]: the tensor must hold exactly one element. *)
Definition item (t : Tensor) : Result Z :=
  match concat (concat t) with
  | [x] => Ok x
  | _ => Raise RuntimeError
  end.

(** [range(size)] and [[i for i in range(size) if i != j]] *)
Definition range (size : nat) : list nat := seq 0 size.
Definition left (size j : nat) : list nat := filter (λ i, i ≠ j) (range size).

(** [l[idx]] for a list of indices (advanced indexing copies). *)
Definition take_indices {A} (l : list A) (idx : list nat) : Result (list A) :=
  mapR (getitem_nat l) idx.

(** [cost[1:][:, j_left][:, :, k_left]], the expression of lines 126 and 142. *)
Definition eliminate (cost : Tensor) (j k : nat) : Result Tensor :=
  let size := length cost in
  let j_left := left size j in
  let k_left := left size k in
  t1 ← mapR (λ block, take_indices block j_left) (tail cost);
  mapR (λ block, mapR (λ row, take_indices row k_left) block) t1.

(** A cubic state of size [s]: shape [(s, s, s)]. *)
Definition cubic (s : nat) (t : Tensor) : bool :=
  (length t =? s) &&
  forallb (λ block,
    (length block =? s) && forallb (λ row : list Z, length row =? s) block) t.

(** The state left after block 0, row [j] and column [k] are struck out. *)
Definition strike (cost : Tensor) (j k : nat) : Tensor :=
  (λ block : list (list Z), delete k <$> delete j block) <$> tail cost.

(** The entry at [(a, b, c)], if there is one. *)
Definition entry (t : Tensor) (a b c : nat) : option Z :=
  block ← t !! a; row ← block !! b; row !! c.

(** The old index of what sits at index [b] once index [j] is removed. *)
Definition skip (j b : nat) : nat := if b <? j then b else S b.

(** [t[i, j, k] = v] written in place. *)
Definition set_entry (t : Tensor) (i j k : nat) (v : Z) : Tensor :=
  alter (alter (<[k := v]>) j) i t.

(** [itertools.product(range(size), repeat=2)]: [j] outermost. *)
Definition product (size : nat) : list (nat * nat) :=
  list_prod (range size) (range size).

(** ** Value estimators *)

(** [nn.Linear]: a weight row and a bias per output feature. *)
Record Linear := { weight : list (list Z); bias : list Z }.

Definition dot (w x : list Z) : Z := foldr Z.add 0%Z (zip_with Z.mul w x).

(** [x @ W.T + b]; a shape mismatch is a [RuntimeError]. *)
Definition linear (l : Linear) (x : list Z) : Result (list Z) :=
  if forallb (λ w : list Z, length w =? length x) (weight l)
     && (length (bias l) =? length (weight l))
  then Ok (zip_with (λ w b, dot w x + b)%Z (weight l) (bias l))
  else Raise RuntimeError.

Definition relu (x : list Z) : list Z := Z.max 0 <$> x.

Record ValueNetwork := {
  vn_n : nat;
  linear_1 : Linear;
  linear_2 : Linear;
  linear_3 : Linear
}.

(** [ValueNetwork.forward] on a batch of one state. *)
Definition forward (net : ValueNetwork) (costs : Tensor) : Result Z :=
  let features := concat (concat costs) in
  hidden_1 ← linear (linear_1 net) features;
  hidden_2 ← linear (linear_2 net) (relu hidden_1);
  out ← linear (linear_3 net) (relu hidden_2);
  getitem_nat out 0.

Inductive Estimator :=
  | ClassicalValueEstimator (n : nat)
  | Network (net : ValueNetwork).

(** [estimator(costs)] on a batch of one state.  [ClassicalValueEstimator]
    falls off the end of [__call__] for [n >= 2] and returns [None]. *)
Definition call (e : Estimator) (costs : Tensor) : Result (option Z) :=
  match e with
  | ClassicalValueEstimator 0 => _ ← index3 costs 0 0 0; Ok (Some 0%Z)
  | ClassicalValueEstimator 1 => v ← index3 costs 0 0 0; Ok (Some v)
  | ClassicalValueEstimator _ => Ok None
  | Network net => v ← forward net costs; Ok (Some v)
  end.

(** [.item()] on what an estimator returned. *)
Definition item_of (out : option Z) : Result Z :=
  match out with Some v => Ok v | None => Raise AttributeError end.

(** An element of [torch.concat([...])]. *)
Definition concat_of (out : option Z) : Result Z :=
  match out with Some v => Ok v | None => Raise TypeError end.

(** The network shapes [ValueNetwork(n)] builds accept a state of [m^3]
    entries; the exact estimators accept any non-empty state. *)
Definition shaped (l : Linear) (inputs : nat) : bool :=
  forallb (λ w : list Z, length w =? inputs) (weight l)
  && (length (bias l) =? length (weight l)).

Definition accepts (e : Estimator) (m : nat) : bool :=
  match e with
  | ClassicalValueEstimator k => (k <? 2) && (0 <? m)
  | Network net =>
      shaped (linear_1 net) (m ^ 3)
      && shaped (linear_2 net) (length (weight (linear_1 net)))
      && shaped (linear_3 net) (length (weight (linear_2 net)))
      && (0 <? length (weight (linear_3 net)))
  end.

(** ** The agent and its methods *)

(** A reward held by the list [rewards]: its value, and, when it is the
    zero-dimensional tensor [cost[0, j, k]] of a recorded position, the
    place [(p, j, k)] it is a view of ([positions[p][0, j, k]]). *)
Record Reward := { value : Z; view : option (nat * nat * nat) }.

(** What [evaluate_position] returns: a bare number or a tuple. *)
Inductive Evaluation :=
  | Scalar (best_reward : Z)
  | Pair (best_reward : Z) (best_pos : option (nat * nat)).

(** What [get_rewards] returns. *)
Inductive Rollout :=
  | Rewards (rewards : list Reward)
  | RewardsPositions (rewards : list Reward) (positions : list Tensor).

(** One estimator invocation: the table index used and the state passed. *)
Record Call := { table_index : nat; argument : Tensor }.

Module Agent.

Record t := { n : nat; value_networks : list Estimator }.

(** The machine: the agent object and the log of estimator invocations. *)
Record Machine := { self : t; invoked : list Call }.

Definition M (A : Type) : Type := Machine → Result A * Machine.

#[global] Instance M_ret : MRet M := λ A a m, (Ok a, m).
#[global] Instance M_bind : MBind M := λ A B f c m,
  match c m with
  | (Ok a, m') => f a m'
  | (Raise e, m') => (Raise e, m')
  end.

Definition lift {A} (r : Result A) : M A := λ m, (r, m).
Definition get_self : M t := λ m, (Ok (self m), m).
Definition record_call (c : Call) : M unit :=
  λ m, (Ok tt, {| self := self m; invoked := invoked m ++ [c] |}).

Fixpoint foldM {A S} (body : S → A → M S) (l : list A) (acc : S) : M S :=
  match l with
  | [] => mret acc
  | x :: l' => acc' ← body acc x; foldM body l' acc'
  end.

Fixpoint forM {A B} (f : A → M B) (l : list A) : M (list B) :=
  match l with
  | [] => mret []
  | x :: l' => y ← f x; ys ← forM f l'; mret (y :: ys)
  end.

(** [Agent()]: with the default [n=2] neither [range(2, n)] nor [n > 2]
    lets any training run. *)
Definition init_default : t :=
  {| n := 2;
     value_networks := [ClassicalValueEstimator 0; ClassicalValueEstimator 1] |}.

(** [self.value_networks[i](state.unsqueeze(dim=0))] *)
Definition invoke (i : Z) (state : Tensor) : M (option Z) :=
  a ← get_self;
  idx ← lift (resolve_index (length (value_networks a)) i);
  e ← lift (getitem_nat (value_networks a) idx);
  _ ← record_call {| table_index := idx; argument := state |};
  lift (call e state).

(** The body of the loop of lines 139-146 *)
Definition consider (cost : Tensor) (size : nat)
    (best : option (nat * nat) * Z) (jk : nat * nat)
    : M (option (nat * nat) * Z) :=
  let '(best_pos, best_reward) := best in
  let '(j, k) := jk in
  cost_left ← lift (eliminate cost j k);
  immediate ← lift (index3 cost 0 j k);
  out ← invoke (Z.of_nat size - 1) cost_left;
  estimate ← lift (item_of out);
  let reward := (immediate + estimate)%Z in
  if (best_reward <? reward)%Z then mret (Some (j, k), reward)
  else mret (best_pos, best_reward).

Definition evaluate_position (cost : Tensor) (return_best_move : bool)
    : M Evaluation :=
  let size := length cost in
  if size =? 1 then
    v ← lift (item cost); mret (Pair v (Some (0, 0)))
  else
    '(best_pos, best_reward) ←
      foldM (consider cost size) (product size) (None, (-1)%Z);
    if return_best_move then mret (Pair best_reward best_pos)
    else mret (Scalar best_reward).

(** [_, best_action = ...] and [j, k = best_action] *)
Definition unpack_move (ev : Evaluation) : Result (nat * nat) :=
  match ev with
  | Pair _ (Some jk) => Ok jk
  | Pair _ None => Raise TypeError
  | Scalar _ => Raise TypeError
  end.

(** The [while] loop of lines 118-126.  Every turn shortens [cost] by
    one block, so [length cost] turns of fuel are never used up. *)
Fixpoint get_rewards_loop (fuel : nat) (return_positions : bool)
    (cost : Tensor) (rewards : list Reward) (positions : list Tensor)
    : M (Tensor * list Reward * list Tensor) :=
  if 1 <? length cost then
    match fuel with
    | 0 => lift (Raise OutOfFuel)
    | S fuel' =>
        ev ← evaluate_position cost true;
        '(j, k) ← lift (unpack_move ev);
        r ← lift (index3 cost 0 j k);
        let rewards :=
          rewards ++
            [{| value := r;
                view := if return_positions
                        then Some (length positions, j, k) else None |}] in
        let positions :=
          if return_positions then positions ++ [cost] else positions in
        cost' ← lift (eliminate cost j k);
        get_rewards_loop fuel' return_positions cost' rewards positions
    end
  else mret (cost, rewards, positions).

Definition get_rewards (cost : Tensor) (return_positions : bool) : M Rollout :=
  '(cost, rewards, positions) ←
    get_rewards_loop (length cost) return_positions cost [] [];
  v ← lift (item cost);
  let rewards := rewards ++ [{| value := v; view := None |}] in
  let positions := positions ++ [cost] in
  if return_positions then mret (RewardsPositions rewards positions)
  else mret (Rewards rewards).

(** [sum(...)] of the rewards; a tuple cannot be summed. *)
Definition act (cost : Tensor) : M Z :=
  out ← get_rewards cost false;
  match out with
  | Rewards rewards => mret (foldl Z.add 0%Z (value <$> rewards))
  | RewardsPositions _ _ => lift (Raise TypeError)
  end.

(** [range(self.n - 2, 0, -1)] *)
Definition countdown (self_n : nat) : list nat :=
  reverse (seq 1 (self_n - 2)).

(** [rewards[i - 1] += rewards[i]]: the target is updated in place, and
    through it the entry of the recorded position it is a view of. *)
Definition iadd (st : list Reward * list Tensor) (i : nat)
    : Result (list Reward * list Tensor) :=
  let '(rewards, positions) := st in
  target ← getitem_nat rewards (i - 1);
  addend ← getitem_nat rewards i;
  let total := (value target + value addend)%Z in
  Ok (<[i - 1 := {| value := total; view := view target |}]> rewards,
      match view target with
      | Some (p, j, k) => alter (λ pos, set_entry pos 0 j k total) p positions
      | None => positions
      end).

Fixpoint foldR {A S} (body : S → A → Result S) (l : list A) (acc : S)
    : Result S :=
  match l with
  | [] => Ok acc
  | x :: l' => acc' ← body acc x; foldR body l' acc'
  end.

(** Lines 164-165: [for i in range(self.n - 2, 0, -1): ...] *)
Definition scan (self_n : nat) (st : list Reward * list Tensor)
    : Result (list Reward * list Tensor) :=
  foldR iadd (countdown self_n) st.

Definition enumerate {A} (l : list A) : list (nat * A) := imap pair l.

(** Lines 163-167 for one sampled instance [cost]: the targets and the
    predictions that enter the loss.  The list of line 167 is built in
    full, every estimator invoked, before [torch.concat] looks at what
    they returned. *)
Definition fine_tune_instance (cost : Tensor) : M (list Z * list Z) :=
  out ← get_rewards cost true;
  match out with
  | Rewards _ => lift (Raise TypeError)
  | RewardsPositions rewards positions =>
      a ← get_self;
      '(rewards, positions) ←
        lift (scan (n a) (rewards, positions));
      outs ←
        forM (λ '(i, pos),
                a ← get_self;
                invoke (Z.of_nat (n a) - Z.of_nat i - 1) pos)
             (enumerate positions);
      pred_rewards ← lift (mapR concat_of outs);
      mret (value <$> rewards, pred_rewards)
  end.

(** Names bound where the body of [load] runs. *)
Definition load_scope : list string :=
  ["cls"; "n"; "save_prefix"; "agent"; "i";
   "torch"; "nn"; "np"; "itertools"; "tqdm"; "trange";
   "ValueNetwork"; "ClassicalValueEstimator"; "UniformGenerator"; "Agent";
   "range"]%string.

Definition name_lookup (name : string) : Result unit :=
  if bool_decide (name ∈ load_scope) then Ok tt else Raise NameError.

(** [Agent.load(n, save_prefix)]; [checkpoint prefix i] is what
    [torch.load] finds in the file of size [i] under that prefix. *)
Definition load (checkpoint : string → nat → Result ValueNetwork)
    (n_requested : nat) (save_prefix : string) : Result t :=
  let agent := init_default in
  foldR (λ agent i,
           _ ← name_lookup "self";
           net ← checkpoint save_prefix i;
           Ok {| n := n agent + 1;
                 value_networks := value_networks agent ++ [Network net] |})
        (seq 2 (n_requested - 2)) agent.

(** A call of one of the three inference entry points. *)
Inductive Inference :=
  | Act (cost : Tensor)
  | GetRewards (cost : Tensor) (return_positions : bool)
  | EvaluatePosition (cost : Tensor) (return_best_move : bool).

Definition run (c : Inference) (m : Machine) : Machine :=
  match c with
  | Act cost => snd (act cost m)
  | GetRewards cost rp => snd (get_rewards cost rp m)
  | EvaluatePosition cost rbm => snd (evaluate_position cost rbm m)
  end.

Definition run_all (cs : list Inference) (m : Machine) : Machine :=
  foldl (λ m c, run c m) m cs.

End Agent.

(** What the pair [(j, k)] is worth on [cost] when [e] estimates what is
    left: [cost[0, j, k]] plus the estimate of the struck-out state. *)
Definition score (e : Estimator) (cost : Tensor) (j k : nat) : Result Z :=
  immediate ← index3 cost 0 j k;
  out ← call e (strike cost j k);
  estimate ← item_of out;
  Ok (immediate + estimate)%Z.

Definition score_or (e : Estimator) (cost : Tensor) (jk : nat * nat) : Z :=
  match score e cost jk.1 jk.2 with Ok c => c | Raise _ => 0%Z end.

(** Lines 144-146 on a known reward: the running best is replaced only by
    a strictly greater reward. *)
Definition pick (f : nat * nat → Z) (best : option (nat * nat) * Z)
    (jk : nat * nat) : option (nat * nat) * Z :=
  if (best.2 <? f jk)%Z then (Some jk, f jk) else best.

(** Enumeration order of [product]: [j] first, then [k]. *)
Definition before (p q : nat * nat) : Prop :=
  p.1 < q.1 ∨ (p.1 = q.1 ∧ p.2 < q.2).

(** ** Sample inputs *)

(** A machine whose agent is [a] and on which nothing was invoked yet. *)
Definition fresh (a : Agent.t) : Agent.Machine :=
  {| Agent.self := a; Agent.invoked := [] |}.

Definition sample_cost_2 : Tensor :=
  [[[1; 2]; [3; 4]]; [[5; 6]; [7; 8]]]%Z.

Definition sample_cost_3 : Tensor :=
  [[[1; 2; 3]; [4; 5; 6]; [7; 8; 9]];
   [[9; 8; 7]; [6; 5; 4]; [3; 2; 1]];
   [[2; 4; 6]; [8; 1; 3]; [5; 7; 9]]]%Z.

(** A network for states of size 2 (eight input features). *)
Definition sample_net_2 : ValueNetwork :=
  {| vn_n := 2;
     linear_1 := {| weight := [[1; 0; 0; 0; 0; 0; 0; 0];
                               [0; 1; 0; 0; 0; 0; 0; 1]];
                    bias := [0; 0] |};
     linear_2 := {| weight := [[1; 1]]; bias := [0] |};
     linear_3 := {| weight := [[1]]; bias := [0] |} |}%Z.

(** An agent grown to [n = 3]. *)
Definition sample_agent_3 : Agent.t :=
  {| Agent.n := 3;
     Agent.value_networks :=
       [ClassicalValueEstimator 0; ClassicalValueEstimator 1;
        Network sample_net_2] |}.

(** A state all of whose pairs are worth [-2]. *)
Definition low_cost : Tensor :=
  [[[-1; -1]; [-1; -1]]; [[-1; -1]; [-1; -1]]]%Z.

(** A state on which the pairs [(0, 0)] and [(1, 1)] tie at [-3], ahead of
    the other two at [-5]. *)
Definition tied_cost : Tensor :=
  [[[-3; -5]; [-5; -3]]; [[0; 0]; [0; 0]]]%Z.

(** A network for states of size 2 that answers [-5] whatever it is shown. *)
Definition gloomy_net_2 : ValueNetwork :=
  {| vn_n := 2;
     linear_1 := {| weight := [[0; 0; 0; 0; 0; 0; 0; 0]]; bias := [0] |};
     linear_2 := {| weight := [[0]]; bias := [0] |};
     linear_3 := {| weight := [[0]]; bias := [-5] |} |}%Z.

Definition gloomy_agent_3 : Agent.t :=
  {| Agent.n := 3;
     Agent.value_networks :=
       [ClassicalValueEstimator 0; ClassicalValueEstimator 1;
        Network gloomy_net_2] |}.

(** A state of size 3 with entries in the range of the default generator. *)
Definition zero_cost_3 : Tensor :=
  [[[0; 0; 0]; [0; 0; 0]; [0; 0; 0]];
   [[0; 0; 0]; [0; 0; 0]; [0; 0; 0]];
   [[0; 0; 0]; [0; 0; 0]; [0; 0; 0]]]%Z.

(** States without negative entries, estimators that answer above [-1] on
    them, and tables that hold such an estimator for every size below [s]. *)
Definition nonneg (t : Tensor) : Prop :=
  Forall (Forall (Forall (λ x, 0 ≤ x)%Z)) t.

Definition hopeful (e : Estimator) : Prop :=
  ∀ t v, nonneg t → call e t = Ok (Some v) → (-1 < v)%Z.

Definition covers (table : list Estimator) (s : nat) : Prop :=
  ∀ i, 1 ≤ i < s →
    ∃ e, table !! i = Some e ∧ accepts e i = true ∧ hopeful e.

(** The sum of a list, and the list of the sums of its suffixes. *)
Definition sumZ (l : list Z) : Z := foldr Z.add 0%Z l.

Fixpoint trailing (l : list Z) : list Z :=
  match l with
  | [] => []
  | x :: l' => (x + sumZ l')%Z :: trailing l'
  end.

(** The machine after the estimator invocations [cs] were logged. *)
Definition logged (m : Agent.Machine) (cs : list Call) : Agent.Machine :=
  {| Agent.self := Agent.self m; Agent.invoked := Agent.invoked m ++ cs |}.

(** The invocations made when the pairs [ps] are tried on a state [cost] of
    size [s]. *)
Definition lookahead (s : nat) (cost : Tensor) (ps : list (nat * nat))
    : list Call :=
  (λ jk, {| table_index := s - 1; argument := strike cost jk.1 jk.2 |}) <$> ps.

(** An invocation that hands a state of size [s] to the table entry [s]. *)
Definition sized (c : Call) : Prop := table_index c = length (argument c).

(** [m'] is [m] after some more invocations, all of them [sized]; the agent
    object itself is the same. *)
Definition extends (m m' : Agent.Machine) : Prop :=
  ∃ cs, m' = logged m cs ∧ Forall sized cs.

(** A Python exception, as opposed to the model's [OutOfFuel]. *)
Definition genuine (e : Exn) : Prop := e ≠ OutOfFuel.

(** What holds after running [c] from [m]: [Q] of the value returned, or
    [E] of the exception raised. *)
Definition post {A} (c : Agent.M A) (m : Agent.Machine)
    (Q : A → Agent.Machine → Prop) (E : Exn → Agent.Machine → Prop) : Prop :=
  match c m with
  | (Ok a, m') => Q a m'
  | (Raise e, m') => E e m'
  end.

(** The outcome of an inference call: more [sized] invocations, and any
    exception a Python one. *)
Definition fails_from (m : Agent.Machine) (e : Exn) (m' : Agent.Machine) : Prop :=
  extends m m' ∧ genuine e.

(** [positions[i]] has size [top - i]. *)
Definition positions_sized (top : nat) (positions : list Tensor) : Prop :=
  ∀ i pos, positions !! i = Some pos → length pos + i = top.

(** What [get_rewards] returns on a state of size [top]. *)
Definition rollout_ok (top : nat) (return_positions : bool) (out : Rollout)
    : Prop :=
  match out with
  | Rewards rewards => return_positions = false ∧ length rewards = top
  | RewardsPositions rewards positions =>
      return_positions = true ∧ length rewards = top
      ∧ length positions = top ∧ positions_sized top positions
  end.

(** The invariant of the loop of [get_rewards] on a state of size [top]. *)
Definition rollout_inv (top : nat) (return_positions : bool)
    (st : Tensor * list Reward * list Tensor) : Prop :=
  let '(cost, rewards, positions) := st in
  length rewards + length cost = top
  ∧ (return_positions = true →
     length positions = length rewards ∧ positions_sized top positions).

(** ** Shapes of a constructed network *)

(** [nn.Linear(inputs, outputs)]: [outputs] weight rows of [inputs]
    entries and [outputs] biases. *)
Definition has_shape (l : Linear) (inputs outputs : nat) : bool :=
  (length (weight l) =? outputs)
  && forallb (λ w : list Z, length w =? inputs) (weight l)
  && (length (bias l) =? outputs).

(** The shapes [ValueNetwork.__init__(n, hidden_1_k, hidden_2_k)] gives its
    three layers (lines 10-13); the values of the parameters are drawn at
    random and are not fixed here. *)
Definition built (n hidden_1_k hidden_2_k : nat) (net : ValueNetwork) : bool :=
  (vn_n net =? n)
  && has_shape (linear_1 net) (n ^ 3) (hidden_1_k * n ^ 2)
  && has_shape (linear_2 net) (hidden_1_k * n ^ 2) (hidden_2_k * n)
  && has_shape (linear_3 net) (hidden_2_k * n) 1.

(** A network of the shapes of [ValueNetwork(1)], all parameters zero. *)
Definition zero_net_1 : ValueNetwork :=
  {| vn_n := 1;
     linear_1 := {| weight := [[0]; [0]; [0]; [0]]; bias := [0; 0; 0; 0] |};
     linear_2 := {| weight := replicate 8 [0; 0; 0; 0]; bias := replicate 8 0 |};
     linear_3 := {| weight := [replicate 8 0]; bias := [0] |} |}%Z.

(** ** The path of a rollout *)

(** The positions and rewards of a rollout from [cost]: it starts at [cost];
    each reward but the last is the entry [[0, j, k]] of its position (and a
    view of it), the next position being what the elimination at [(j, k)]
    leaves; the last reward is the single entry of the last position. *)
Definition rollout_path (cost : Tensor) (rewards : list Reward)
    (positions : list Tensor) : Prop :=
  positions !! 0 = Some cost
  ∧ length rewards = length positions
  ∧ ∀ i p r, positions !! i = Some p → rewards !! i = Some r →
      match positions !! (S i) with
      | Some p' => ∃ j k, view r = Some (i, j, k)
                          ∧ index3 p 0 j k = Ok (value r)
                          ∧ eliminate p j k = Ok p'
      | None => view r = None ∧ item p = Ok (value r)
      end.

(** The invariant of the loop of [get_rewards] that gives [rollout_path]. *)
Definition path_inv (cost0 : Tensor)
    (st : Tensor * list Reward * list Tensor) : Prop :=
  let '(cost, rewards, positions) := st in
  (positions ++ [cost]) !! 0 = Some cost0
  ∧ length rewards = length positions
  ∧ ∀ i p r, positions !! i = Some p → rewards !! i = Some r →
      ∃ j k p', view r = Some (i, j, k)
                ∧ index3 p 0 j k = Ok (value r)
                ∧ eliminate p j k = Ok p'
                ∧ (positions ++ [cost]) !! (S i) = Some p'.

(** ** Construction and training

    [Agent.__init__], [log], [save_weights], [pretrain_new_network] and the
    whole of [fine_tune].  What the source takes from outside is gathered in
    an [Environment]: the estimator factory and the generator (both draw at
    random; here they are functions of the number of draws made so far), and
    the optimiser and loss of the numeric back end, which may raise
    ([mse_loss] stands for the criterion, the backward pass and the step
    together, and is [None] when one of them raises).  One optimiser step
    changes the parameters of each network it was given, in place
    ([adam_step]); it cannot add, drop or reorder networks.  The file system
    is a map from paths to what was saved; whether a path can be written
    (its folder exists, and so on) is up to the environment ([writable]), and
    a write that fails leaves the files as they were.

    [hyper_params] is either [None] or a dictionary whose keys are among
    [num_pretrain_iters], [batch_size], [num_finetune_iters] and
    [finetune_batch_size], with natural numbers as values.  Any other key
    (such as [n], [logs_folder] or [weights_folder], which line 66 would
    apply as well) is outside the model, and so outside every statement
    about [init] below. *)

Inductive Saved :=
  | Series (data : list Z)
  | StateDict (linear_1 linear_2 linear_3 : Linear).

Record Settings := {
  logs_folder : option string;
  weights_folder : option string;
  num_pretrain_iters : nat;
  batch_size : nat;
  num_finetune_iters : nat;
  finetune_batch_size : nat
}.

(** A [hyper_params] dictionary whose keys are among these four; a key
    that is absent is [None].  Dictionaries with any other key are not
    values of this type. *)
Record Overrides := {
  set_num_pretrain_iters : option nat;
  set_batch_size : option nat;
  set_num_finetune_iters : option nat;
  set_finetune_batch_size : option nat
}.

Record Environment := {
  Optimizer : Type;
  value_network_factory : nat → nat → ValueNetwork;
  get_batch : nat → nat → nat → list Tensor;
  get_instance : nat → nat → Tensor;
  adam : list ValueNetwork → Optimizer;
  adam_step : Optimizer → ValueNetwork → list Tensor → list Z → list Z
              → ValueNetwork;
  adam_next : Optimizer → list Tensor → list Z → list Z → Optimizer;
  mse_loss : list Z → list Z → option Z;
  writable : string → bool
}.

Record World := {
  machine : Agent.Machine;
  settings : Settings;
  files : gmap string Saved;
  draws : nat
}.

(** What ends a run early: a Python exception of the inference code,
    [torch.tensor] refusing a list that holds tuples, the optimiser refusing
    an empty list of parameters, [torch.concat] refusing an empty list of
    tensors, the numeric back end raising, or a file that cannot be
    written.  Which Python exception class the last five raise is left
    open. *)
Inductive Failure :=
  | Python (e : Exn)
  | NotATensor
  | NoParameters
  | EmptyConcat
  | BackEnd
  | Unwritable.

Inductive Outcome (A : Type) :=
  | Done (a : A)
  | Failed (f : Failure).
Arguments Done {A} a.
Arguments Failed {A} f.

Module Training.

Definition T (A : Type) : Type := World → Outcome A * World.

#[global] Instance T_ret : MRet T := λ A a w, (Done a, w).
#[global] Instance T_bind : MBind T := λ A B f c w,
  match c w with
  | (Done a, w') => f a w'
  | (Failed e, w') => (Failed e, w')
  end.

Definition with_machine (m : Agent.Machine) (w : World) : World :=
  {| machine := m; settings := settings w; files := files w; draws := draws w |}.

(** A method of the agent run inside training. *)
Definition call_method {A} (c : Agent.M A) : T A := λ w,
  match c (machine w) with
  | (Ok a, m') => (Done a, with_machine m' w)
  | (Raise e, m') => (Failed (Python e), with_machine m' w)
  end.

Definition attempt {A} (r : Result A) : T A := λ w,
  (match r with Ok a => Done a | Raise e => Failed (Python e) end, w).

Definition fail {A} (f : Failure) : T A := λ w, (Failed f, w).

Definition read {A} (f : World → A) : T A := λ w, (Done (f w), w).

(** The next random draw. *)
Definition draw : T nat := λ w,
  (Done (draws w),
   {| machine := machine w; settings := settings w; files := files w;
      draws := S (draws w) |}).

Definition write_file (env : Environment) (path : string) (content : Saved)
    : T unit := λ w,
  if writable env path then
    (Done tt,
     {| machine := machine w; settings := settings w;
        files := <[path := content]> (files w); draws := draws w |})
  else (Failed Unwritable, w).

(** What the numeric back end returned, if it did. *)
Definition numeric {A} (o : option A) : T A :=
  match o with Some a => mret a | None => fail BackEnd end.

(** [self.value_networks = ...] and [self.n = ...] *)
Definition set_agent (a : Agent.t) : T unit := λ w,
  (Done tt,
   with_machine {| Agent.self := a;
                   Agent.invoked := Agent.invoked (machine w) |} w).

Definition self_n (w : World) : nat := Agent.n (Agent.self (machine w)).
Definition self_value_networks (w : World) : list Estimator :=
  Agent.value_networks (Agent.self (machine w)).

Fixpoint foldT {A S} (body : S → A → T S) (l : list A) (acc : S) : T S :=
  match l with
  | [] => mret acc
  | x :: l' => acc' ← body acc x; foldT body l' acc'
  end.

(** [log]: lines 74-76 *)
Definition log (env : Environment) (name : string) (data : list Z) : T unit :=
  folder ← read (λ w, logs_folder (settings w));
  match folder with
  | Some d => write_file env (d +:+ "/" +:+ name +:+ ".npy") (Series data)
  | None => mret tt
  end.

(** [nn_module.state_dict()]; an exact estimator has none. *)
Definition state_dict (nn_module : Estimator) : Result Saved :=
  match nn_module with
  | Network net => Ok (StateDict (linear_1 net) (linear_2 net) (linear_3 net))
  | ClassicalValueEstimator _ => Raise AttributeError
  end.

(** [save_weights]: lines 78-80 *)
Definition save_weights (env : Environment) (name : string)
    (nn_module : Estimator) : T unit :=
  folder ← read (λ w, weights_folder (settings w));
  match folder with
  | Some d =>
      content ← attempt (state_dict nn_module);
      write_file env (d +:+ "/" +:+ name +:+ ".pt") content
  | None => mret tt
  end.

(** [torch.tensor([...])] of what [evaluate_position] returned. *)
Fixpoint tensor_of (evs : list Evaluation) : T (list Z) :=
  match evs with
  | [] => mret []
  | Scalar v :: evs' => vs ← tensor_of evs'; mret (v :: vs)
  | Pair _ _ :: _ => fail NotATensor
  end.

(** One turn of the loop of lines 97-106. *)
Definition pretrain_iteration (env : Environment)
    (st : ValueNetwork * Optimizer env * list Z)
    : T (ValueNetwork * Optimizer env * list Z) :=
  let '(new_network, optimizer, loss_history) := st in
  size ← read self_n;
  size_of_batch ← read (λ w, batch_size (settings w));
  d ← draw;
  let costs := get_batch env d size_of_batch size in
  pred_values ← attempt (mapR (forward new_network) costs);
  evs ← call_method
           (Agent.forM (λ cost, Agent.evaluate_position cost false) costs);
  best_values ← tensor_of evs;
  loss ← numeric (mse_loss env pred_values best_values);
  mret (adam_step env optimizer new_network costs pred_values best_values,
        adam_next env optimizer costs pred_values best_values,
        loss_history ++ [loss]).

(** [pretrain_new_network]: lines 91-110 *)
Definition pretrain_new_network (env : Environment) : T unit :=
  size ← read self_n;
  d ← draw;
  let new_network := value_network_factory env d size in
  let optimizer := adam env [new_network] in
  iters ← read (λ w, num_pretrain_iters (settings w));
  let iter_multiplier := if size =? 2 then 4 else 1 in
  '(new_network, _, loss_history) ←
    foldT (λ st _, pretrain_iteration env st)
      (seq 0 (iters * iter_multiplier)) (new_network, optimizer, []);
  size ← read self_n;
  _ ← log env ("loss_" +:+ pretty size) loss_history;
  _ ← save_weights env ("pretrain-" +:+ pretty size) (Network new_network);
  table ← read self_value_networks;
  size ← read self_n;
  set_agent {| Agent.n := size + 1;
               Agent.value_networks := table ++ [Network new_network] |}.

(** [net.parameters()]; an exact estimator has none. *)
Definition parameters (e : Estimator) : Result ValueNetwork :=
  match e with
  | Network net => Ok net
  | ClassicalValueEstimator _ => Raise AttributeError
  end.

(** [torch.concat] refuses an empty list. *)
Definition concat_tensors (parts : list (list Z)) : T (list Z) :=
  match parts with
  | [] => fail EmptyConcat
  | _ => mret (concat parts)
  end.

(** What [optimizer.step()] leaves of a table entry it holds. *)
Definition stepped (env : Environment) (optimizer : Optimizer env)
    (instances : list Tensor) (preds targets : list Z) (e : Estimator)
    : Estimator :=
  match e with
  | Network net => Network (adam_step env optimizer net instances preds targets)
  | ClassicalValueEstimator k => ClassicalValueEstimator k
  end.

(** One turn of the loop of lines 161-169. *)
Definition fine_tune_sample (env : Environment)
    (acc : list Tensor * list (list Z) * list (list Z)) (_ : nat)
    : T (list Tensor * list (list Z) * list (list Z)) :=
  let '(instances, all_rewards, all_pred_rewards) := acc in
  size ← read self_n;
  d ← draw;
  let cost := get_instance env d (size - 1) in
  '(rewards, pred_rewards) ← call_method (Agent.fine_tune_instance cost);
  mret (instances ++ [cost], all_rewards ++ [rewards],
        all_pred_rewards ++ [pred_rewards]).

(** One turn of the loop of lines 157-173. *)
Definition fine_tune_iteration (env : Environment)
    (st : Optimizer env * list Z) (_ : nat) : T (Optimizer env * list Z) :=
  let '(optimizer, loss_history) := st in
  size_of_batch ← read (λ w, finetune_batch_size (settings w));
  '(instances, all_rewards, all_pred_rewards) ←
    foldT (fine_tune_sample env) (seq 0 size_of_batch) ([], [], []);
  preds ← concat_tensors all_pred_rewards;
  targets ← concat_tensors all_rewards;
  loss ← numeric (mse_loss env preds targets);
  table ← read self_value_networks;
  size ← read self_n;
  _ ← set_agent
        {| Agent.n := size;
           Agent.value_networks :=
             take 2 table
             ++ (stepped env optimizer instances preds targets <$> drop 2 table) |};
  mret (adam_next env optimizer instances preds targets, loss_history ++ [loss]).

(** [fine_tune]: lines 151-176 *)
Definition fine_tune (env : Environment) : T unit :=
  table ← read self_value_networks;
  nets ← attempt (mapR parameters (drop 2 table));
  _ ← (if nets is [] then fail NoParameters else mret tt);
  let optimizer := adam env nets in
  iters ← read (λ w, num_finetune_iters (settings w));
  '(_, loss_history) ←
    foldT (fine_tune_iteration env) (seq 0 iters) (optimizer, []);
  _ ← log env "loss_finetune" loss_history;
  size ← read self_n;
  foldT (λ _ i,
           table ← read self_value_networks;
           e ← attempt (getitem_nat table i);
           save_weights env ("finetune-" +:+ pretty i) e)
        (seq 2 (size - 2)) tt.

(** The class attributes of lines 43-49 (learning rates left out). *)
Definition default_num_pretrain_iters : nat := 300.
Definition default_batch_size : nat := 64.
Definition default_num_finetune_iters : nat := 20.
Definition default_finetune_batch_size : nat := 50.

(** [self.__dict__.update(hyper_params)] for a dictionary of the four
    keys above, over the class attributes of lines 43-49. *)
Definition configure (logs weights : option string)
    (hyper_params : option Overrides) : Settings :=
  let pick {A} (f : Overrides → option A) (default : A) : A :=
    match hyper_params with
    | Some h => match f h with Some x => x | None => default end
    | None => default
    end in
  {| logs_folder := logs;
     weights_folder := weights;
     num_pretrain_iters := pick set_num_pretrain_iters default_num_pretrain_iters;
     batch_size := pick set_batch_size default_batch_size;
     num_finetune_iters := pick set_num_finetune_iters default_num_finetune_iters;
     finetune_batch_size :=
       pick set_finetune_batch_size default_finetune_batch_size |}.

(** The body of [__init__] from line 68 on. *)
Definition init_body (env : Environment) (n : nat) : T unit :=
  _ ← foldT (λ _ _, pretrain_new_network env) (seq 2 (n - 2)) tt;
  if 2 <? n then fine_tune env else mret tt.

(** [Agent(n, logs_folder=..., weights_folder=..., hyper_params=...)] run
    on the file system [disk] after [drawn] random draws. *)
Definition init (env : Environment) (n : nat) (logs weights : option string)
    (hyper_params : option Overrides) (disk : gmap string Saved) (drawn : nat)
    : Outcome unit * World :=
  init_body env n
    {| machine := {| Agent.self := Agent.init_default; Agent.invoked := [] |};
       settings := configure logs weights hyper_params;
       files := disk;
       draws := drawn |}.

End Training.

(** What holds after running [c] from [w]. *)
Definition after {A} (c : Training.T A) (w : World)
    (Q : A → World → Prop) (E : Failure → World → Prop) : Prop :=
  match c w with
  | (Done a, w') => Q a w'
  | (Failed f, w') => E f w'
  end.

(** ** Sample environment *)

(** A network of the shapes of [ValueNetwork(size)], all parameters
    zero. *)
Definition zero_net (size : nat) : ValueNetwork :=
  {| vn_n := size;
     linear_1 := {| weight := replicate (4 * size ^ 2)
                                (replicate (size ^ 3) 0%Z);
                    bias := replicate (4 * size ^ 2) 0%Z |};
     linear_2 := {| weight := replicate (8 * size)
                                (replicate (4 * size ^ 2) 0%Z);
                    bias := replicate (8 * size) 0%Z |};
     linear_3 := {| weight := [replicate (8 * size) 0%Z]; bias := [0%Z] |} |}.

(** A generator of constant instances, a factory of networks with all
    parameters zero, an optimiser that leaves the parameters as they are,
    and a file system on which every write goes through. *)
Definition sample_env : Environment :=
  {| Optimizer := unit;
     value_network_factory := λ _ size, zero_net size;
     get_batch := λ _ size_of_batch size,
       replicate size_of_batch
         (replicate size (replicate size (replicate size 1%Z)));
     get_instance := λ _ size,
       replicate size (replicate size (replicate size 1%Z));
     adam := λ _, tt;
     adam_step := λ _ net _ _ _, net;
     adam_next := λ _ _ _ _, tt;
     mse_loss := λ preds targets,
       Some (sumZ (zip_with (λ p t, (p - t) * (p - t))%Z preds targets));
     writable := λ _, true |}.

Definition quick : Overrides :=
  {| set_num_pretrain_iters := Some 1;
     set_batch_size := Some 2;
     set_num_finetune_iters := Some 2;
     set_finetune_batch_size := Some 2 |}.

(** ** What training keeps and changes *)

(** [m'] is [m] after more invocations, each satisfying [P]. *)
Definition grows (P : Call → Prop) (m m' : Agent.Machine) : Prop :=
  ∃ cs, m' = logged m cs ∧ Forall P cs.

(** The invocations logged between [w] and [w'] all satisfy [P]. *)
Definition since (P : Call → Prop) (w w' : World) : Prop :=
  ∃ cs, Agent.invoked (machine w') = Agent.invoked (machine w) ++ cs
        ∧ Forall P cs.

(** Both exact with the same size, or both learned. *)
Definition same_kind (e e' : Estimator) : Prop :=
  match e, e' with
  | ClassicalValueEstimator k, ClassicalValueEstimator k' => k = k'
  | Network _, Network _ => True
  | _, _ => False
  end.

(** Between [w] and [w']: the agent, the settings and the files are the
    same. *)
Definition steady (P : Call → Prop) (w w' : World) : Prop :=
  grows P (machine w) (machine w')
  ∧ settings w' = settings w ∧ files w' = files w.

(** Between [w] and [w']: settings, files and [self.n] are the same; the
    table holds estimators of the same kinds at the same places. *)
Definition tuned (P : Call → Prop) (w w' : World) : Prop :=
  since P w w'
  ∧ settings w' = settings w ∧ files w' = files w
  ∧ Training.self_n w' = Training.self_n w
  ∧ Forall2 same_kind (Training.self_value_networks w)
      (Training.self_value_networks w').

(** The file system after [log(name, data)] and after
    [save_weights(name, net)]. *)
Definition logged_to (s : Settings) (name : string) (data : list Z)
    (disk : gmap string Saved) : gmap string Saved :=
  match logs_folder s with
  | Some d => <[d +:+ "/" +:+ name +:+ ".npy" := Series data]> disk
  | None => disk
  end.

Definition saved_to (s : Settings) (name : string) (net : ValueNetwork)
    (disk : gmap string Saved) : gmap string Saved :=
  match weights_folder s with
  | Some d =>
      <[d +:+ "/" +:+ name +:+ ".pt"
        := StateDict (linear_1 net) (linear_2 net) (linear_3 net)]> disk
  | None => disk
  end.

(** What [pretrain_new_network] has done when it returns. *)
Definition pretrained (P : Call → Prop) (w w' : World) : Prop :=
  since P w w'
  ∧ settings w' = settings w
  ∧ ∃ net losses,
      Agent.self (machine w')
      = {| Agent.n := Training.self_n w + 1;
           Agent.value_networks :=
             Training.self_value_networks w ++ [Network net] |}
      ∧ length losses
        = num_pretrain_iters (settings w)
          * (if Training.self_n w =? 2 then 4 else 1)
      ∧ files w'
        = saved_to (settings w) ("pretrain-" +:+ pretty (Training.self_n w)) net
            (logged_to (settings w) ("loss_" +:+ pretty (Training.self_n w))
               losses (files w)).

(** What holds when [pretrain_new_network] raises: the agent and the
    settings are as they were, and so are the files, unless it was the
    weights that could not be saved: then the loss curve is on file
    already. *)
Definition unsaved (P : Call → Prop) (w w' : World) : Prop :=
  grows P (machine w) (machine w')
  ∧ settings w' = settings w
  ∧ (files w' = files w
     ∨ ∃ losses,
         length losses
         = num_pretrain_iters (settings w)
           * (if Training.self_n w =? 2 then 4 else 1)
         ∧ files w'
           = logged_to (settings w) ("loss_" +:+ pretty (Training.self_n w))
               losses (files w)).

(** The generator returns instances of the size asked for. *)
Definition generator_ok (env : Environment) : Prop :=
  ∀ d size, length (get_instance env d size) = size.

(** The table of a constructed agent: [self.n] entries, the two exact
    estimators first, learned ones after. *)
Definition table_ok (a : Agent.t) : Prop :=
  length (Agent.value_networks a) = Agent.n a
  ∧ 2 ≤ Agent.n a
  ∧ take 2 (Agent.value_networks a)
    = [ClassicalValueEstimator 0; ClassicalValueEstimator 1]
  ∧ ∀ i e, 2 ≤ i → Agent.value_networks a !! i = Some e →
      ∃ net, e = Network net.

(** The file system after the loop of lines 175-176 has saved the table
    entries at [indices]. *)
Definition saved_all (s : Settings) (table : list Estimator)
    (indices : list nat) (disk : gmap string Saved) : gmap string Saved :=
  foldl (λ fs i,
           match table !! i with
           | Some (Network net) => saved_to s ("finetune-" +:+ pretty i) net fs
           | _ => fs
           end) disk indices.

(** What [fine_tune] has done when it returns. *)
Definition fine_tuned (P : Call → Prop) (w w' : World) : Prop :=
  since P w w'
  ∧ settings w' = settings w
  ∧ Training.self_n w' = Training.self_n w
  ∧ Forall2 same_kind (Training.self_value_networks w)
      (Training.self_value_networks w')
  ∧ ∃ losses,
      length losses = num_finetune_iters (settings w)
      ∧ files w'
        = saved_all (settings w) (Training.self_value_networks w')
            (seq 2 (Training.self_n w - 2))
            (logged_to (settings w) "loss_finetune" losses (files w)).

(** What holds of [fine_tune] and of the whole construction however they
    end: the invocations satisfy [P], settings and [self.n] bookkeeping are
    as stated, and without folders no file is touched. *)
Definition kept (P : Call → Prop) (w w' : World) : Prop :=
  since P w w'
  ∧ settings w' = settings w
  ∧ Training.self_n w' = Training.self_n w
  ∧ Forall2 same_kind (Training.self_value_networks w)
      (Training.self_value_networks w')
  ∧ (logs_folder (settings w) = None → weights_folder (settings w) = None →
     files w' = files w).

(** What [Agent(n, ...)] has done when it returns: the table is complete,
    and with a weights folder [d] every learned entry is on file as it
    stands in the table. *)
Definition constructed (P : Call → Prop) (n : nat) (w w' : World) : Prop :=
  since P w w'
  ∧ settings w' = settings w
  ∧ table_ok (Agent.self (machine w'))
  ∧ Training.self_n w' = n `max` 2
  ∧ (logs_folder (settings w) = None → weights_folder (settings w) = None →
     files w' = files w)
  ∧ ∀ d i net, weights_folder (settings w) = Some d →
      Training.self_value_networks w' !! i = Some (Network net) →
      files w' !! (d +:+ "/" +:+ ("finetune-" +:+ pretty i) +:+ ".pt")
      = Some (StateDict (linear_1 net) (linear_2 net) (linear_3 net)).

(** What holds when the construction ends early. *)
Definition interrupted (P : Call → Prop) (w w' : World) : Prop :=
  since P w w'
  ∧ settings w' = settings w
  ∧ (logs_folder (settings w) = None → weights_folder (settings w) = None →
     files w' = files w).

(** The world [__init__] starts from. *)
Definition start (logs weights : option string)
    (hyper_params : option Overrides) (disk : gmap string Saved) (drawn : nat)
    : World :=
  {| machine := {| Agent.self := Agent.init_default; Agent.invoked := [] |};
     settings := Training.configure logs weights hyper_params;
     files := disk;
     draws := drawn |}.

(** ** Machine arithmetic

    The entries of a state are single-precision numbers.  Line 143 adds two
    of them as Python floats ([plus] below), lines 113 and 165 add them as
    single-precision tensors ([add]): the result of an addition is the
    exact sum rounded, and addition is not associative.  What a learned
    estimator answers is the result of rounded arithmetic as well.  The
    definitions of [Rounded] are those of [Agent] with the two additions
    and the answers of the estimators ([answer]) left open: nothing is
    assumed of them.  The definitions of [Agent] are the instances at the
    exact addition of [Z] and at [call]. *)
Module Rounded.

Section Arithmetic.
Variable plus : Z → Z → Z.
Variable add : Z → Z → Z.
Variable answer : Estimator → Tensor → Result (option Z).

(** [self.value_networks[i](state.unsqueeze(dim=0))] *)
Definition invoke (i : Z) (state : Tensor) : Agent.M (option Z) :=
  a ← Agent.get_self;
  idx ← Agent.lift (resolve_index (length (Agent.value_networks a)) i);
  e ← Agent.lift (getitem_nat (Agent.value_networks a) idx);
  _ ← Agent.record_call {| table_index := idx; argument := state |};
  Agent.lift (answer e state).

(** The body of the loop of lines 139-146 *)
Definition consider (cost : Tensor) (size : nat)
    (best : option (nat * nat) * Z) (jk : nat * nat)
    : Agent.M (option (nat * nat) * Z) :=
  let '(best_pos, best_reward) := best in
  let '(j, k) := jk in
  cost_left ← Agent.lift (eliminate cost j k);
  immediate ← Agent.lift (index3 cost 0 j k);
  out ← invoke (Z.of_nat size - 1) cost_left;
  estimate ← Agent.lift (item_of out);
  let reward := plus immediate estimate in
  if (best_reward <? reward)%Z then mret (Some (j, k), reward)
  else mret (best_pos, best_reward).

Definition evaluate_position (cost : Tensor) (return_best_move : bool)
    : Agent.M Evaluation :=
  let size := length cost in
  if size =? 1 then
    v ← Agent.lift (item cost); mret (Pair v (Some (0, 0)))
  else
    '(best_pos, best_reward) ←
      Agent.foldM (consider cost size) (product size) (None, (-1)%Z);
    if return_best_move then mret (Pair best_reward best_pos)
    else mret (Scalar best_reward).

(** The [while] loop of lines 118-126, with fuel as in [Agent]. *)
Fixpoint get_rewards_loop (fuel : nat) (return_positions : bool)
    (cost : Tensor) (rewards : list Reward) (positions : list Tensor)
    : Agent.M (Tensor * list Reward * list Tensor) :=
  if 1 <? length cost then
    match fuel with
    | 0 => Agent.lift (Raise OutOfFuel)
    | S fuel' =>
        ev ← evaluate_position cost true;
        '(j, k) ← Agent.lift (Agent.unpack_move ev);
        r ← Agent.lift (index3 cost 0 j k);
        let rewards :=
          rewards ++
            [{| value := r;
                view := if return_positions
                        then Some (length positions, j, k) else None |}] in
        let positions :=
          if return_positions then positions ++ [cost] else positions in
        cost' ← Agent.lift (eliminate cost j k);
        get_rewards_loop fuel' return_positions cost' rewards positions
    end
  else mret (cost, rewards, positions).

Definition get_rewards (cost : Tensor) (return_positions : bool)
    : Agent.M Rollout :=
  '(cost, rewards, positions) ←
    get_rewards_loop (length cost) return_positions cost [] [];
  v ← Agent.lift (item cost);
  let rewards := rewards ++ [{| value := v; view := None |}] in
  let positions := positions ++ [cost] in
  if return_positions then mret (RewardsPositions rewards positions)
  else mret (Rewards rewards).

(** [sum(...)]: the rewards are added to [0] one after the other, from
    the left. *)
Definition act (cost : Tensor) : Agent.M Z :=
  out ← get_rewards cost false;
  match out with
  | Rewards rewards => mret (foldl add 0%Z (value <$> rewards))
  | RewardsPositions _ _ => Agent.lift (Raise TypeError)
  end.

(** [rewards[i - 1] += rewards[i]] *)
Definition iadd (st : list Reward * list Tensor) (i : nat)
    : Result (list Reward * list Tensor) :=
  let '(rewards, positions) := st in
  target ← getitem_nat rewards (i - 1);
  addend ← getitem_nat rewards i;
  let total := add (value target) (value addend) in
  Ok (<[i - 1 := {| value := total; view := view target |}]> rewards,
      match view target with
      | Some (p, j, k) => alter (λ pos, set_entry pos 0 j k total) p positions
      | None => positions
      end).

(** Lines 164-165: [for i in range(self.n - 2, 0, -1): ...] *)
Definition scan (self_n : nat) (st : list Reward * list Tensor)
    : Result (list Reward * list Tensor) :=
  Agent.foldR iadd (Agent.countdown self_n) st.

(** What the pair [(j, k)] is worth on [cost] when [e] estimates what is
    left: [cost[0, j, k]] plus the answer of [e] on the struck-out state. *)
Definition score (e : Estimator) (cost : Tensor) (j k : nat) : Result Z :=
  immediate ← index3 cost 0 j k;
  out ← answer e (strike cost j k);
  estimate ← item_of out;
  Ok (plus immediate estimate).

End Arithmetic.

End Rounded.

(** A table that holds, for every size from 1 below [s], an estimator that
    answers above [-1] on the cubic states of that size without negative
    entries. *)
Definition answers_above (answer : Estimator → Tensor → Result (option Z))
    (table : list Estimator) (s : nat) : Prop :=
  ∀ i, 1 ≤ i < s →
    ∃ e, table !! i = Some e
         ∧ ∀ t, cubic i t = true → nonneg t →
             ∃ v, answer e t = Ok (Some v) ∧ (-1 < v)%Z.

(** [x + (y + (z + ...))], every addition taken with [add], and the list
    of these sums over the suffixes of a list. *)
Fixpoint nested (add : Z → Z → Z) (x : Z) (l : list Z) : Z :=
  match l with
  | [] => x
  | y :: l' => add x (nested add y l')
  end.

Fixpoint nested_sums (add : Z → Z → Z) (l : list Z) : list Z :=
  match l with
  | [] => []
  | x :: l' => nested add x l' :: nested_sums add l'
  end.

(** Binary floating point with [p] significant bits, on integers (and
    below the overflow threshold): a number keeps [p] significant bits, the
    rest is rounded to nearest, ties to the even significand.  An integer
    of magnitude below [2 ^ p] is kept as it is. *)
Definition round_to (p : Z) (z : Z) : Z :=
  let m := Z.abs z in
  let e := (Z.log2 m - (p - 1))%Z in
  if (e <=? 0)%Z then z
  else
    let q := (2 ^ e)%Z in
    let d := (m / q)%Z in
    let r := (m mod q)%Z in
    let d' := if (2 * r <? q)%Z then d
              else if (q <? 2 * r)%Z then (d + 1)%Z
              else if Z.even d then d else (d + 1)%Z in
    (Z.sgn z * (d' * q))%Z.

(** The sum of two single-precision numbers (24 significant bits) and of
    two double-precision numbers (53): the exact sum, rounded. *)
Definition add_single (x y : Z) : Z := round_to 24 (x + y).
Definition add_double (x y : Z) : Z := round_to 53 (x + y).

(** ** Elimination *)

Section Elimination.

Lemma mapR_app {A B} (f : A → Result B) l1 l2 ys1 ys2 :
  mapR f l1 = Ok ys1 → mapR f l2 = Ok ys2 →
  mapR f (l1 ++ l2) = Ok (ys1 ++ ys2).
Proof.
  revert ys1. induction l1 as [|x l1 IH]; intros ys1 H1 H2; simpl in *.
  - by inversion H1.
  - destruct (f x) as [y|]; simpl in *; [|done].
    destruct (mapR f l1) as [ys|]; simpl in *; [|done].
    inversion H1; subst. by rewrite (IH ys eq_refl H2).
Qed.

Lemma mapR_ok_map {A B} (f : A → Result B) (g : A → B) l :
  Forall (λ x, f x = Ok (g x)) l → mapR f l = Ok (g <$> l).
Proof.
  induction 1 as [|x l Hx _ IH]; simpl; [done|]. by rewrite Hx, IH.
Qed.

Lemma bind_Ok {A B} (a : A) (f : A → Result B) : Ok a ≫= f = f a.
Proof. done. Qed.

Lemma mapR_length {A B} (f : A → Result B) l ys :
  mapR f l = Ok ys → length ys = length l.
Proof.
  revert ys. induction l as [|x l IH]; intros ys H; simpl in *.
  - by inversion H.
  - destruct (f x); simpl in *; [|done].
    destruct (mapR f l) as [zs|] eqn:E; simpl in *; [|done].
    inversion H; subst; simpl. f_equal. by apply IH.
Qed.

Lemma take_indices_seq {A} (l : list A) a n :
  a + n ≤ length l → take_indices l (seq a n) = Ok (take n (drop a l)).
Proof.
  unfold take_indices. revert a. induction n as [|n IH]; intros a Hle; simpl.
  - by rewrite take_0.
  - rewrite IH by lia. unfold getitem_nat.
    destruct (l !! a) as [x|] eqn:Hx.
    2:{ apply lookup_ge_None in Hx. lia. }
    by rewrite (drop_S l x a Hx).
Qed.

Lemma filter_all {A} (P : A → Prop) `{!∀ x, Decision (P x)} (l : list A) :
  Forall P l → filter P l = l.
Proof.
  induction 1 as [|x l Hx _ IH]; [done|].
  by rewrite filter_cons_True, IH.
Qed.

Lemma left_split size j :
  j < size → left size j = seq 0 j ++ seq (S j) (size - S j).
Proof.
  intros Hj. unfold left, range.
  replace size with (j + S (size - S j)) at 1 by lia.
  rewrite seq_app, filter_app. simpl.
  rewrite filter_cons_False by (intros H; by apply H).
  f_equal; apply filter_all, Forall_forall; intros i Hi;
    apply elem_of_seq in Hi; lia.
Qed.

Lemma take_indices_left {A} (l : list A) j :
  j < length l → take_indices l (left (length l) j) = Ok (delete j l).
Proof.
  intros Hj. rewrite left_split by done. unfold take_indices.
  rewrite delete_take_drop.
  apply mapR_app.
  - fold (take_indices l (seq 0 j)). rewrite take_indices_seq by lia.
    by rewrite drop_0.
  - fold (take_indices l (seq (S j) (length l - S j))).
    rewrite take_indices_seq by lia.
    by rewrite take_ge by (rewrite length_drop; lia).
Qed.

Lemma cubic_spec s t :
  cubic s t = true ↔
  length t = s ∧
  Forall (λ block, length block = s ∧ Forall (λ row, length row = s) block) t.
Proof.
  unfold cubic. rewrite andb_true_iff, Nat.eqb_eq, forallb_forall.
  rewrite Forall_forall. setoid_rewrite <- list_elem_of_In.
  split; intros [Hl Hb]; (split; [done|]); intros block Hin;
    specialize (Hb block Hin).
  - apply andb_true_iff in Hb as [Hb1 Hb2]. apply Nat.eqb_eq in Hb1.
    split; [done|]. apply Forall_forall. intros row Hrow.
    rewrite forallb_forall in Hb2. apply Nat.eqb_eq, Hb2.
    by apply list_elem_of_In.
  - destruct Hb as [Hb1 Hb2]. apply andb_true_iff. split.
    + by apply Nat.eqb_eq.
    + apply forallb_forall. intros row Hrow. apply Nat.eqb_eq.
      rewrite Forall_forall in Hb2. by apply Hb2, list_elem_of_In.
Qed.

Lemma cubic_one (cost : Tensor) : cubic 1 cost = true → ∃ x, cost = [[[x]]].
Proof.
  intros Hc. apply cubic_spec in Hc as [Hlen Hblocks].
  destruct cost as [|block [|]]; try done.
  apply Forall_cons in Hblocks as [[Hb Hrows] _].
  destruct block as [|row [|]]; try done.
  apply Forall_cons in Hrows as [Hr _].
  destruct row as [|x [|]]; try done. by exists x.
Qed.

Lemma tail_length {A} (l : list A) : length (tail l) = length l - 1.
Proof. destruct l; simpl; lia. Qed.

Lemma Forall_tail {A} (P : A → Prop) l : Forall P l → Forall P (tail l).
Proof. destruct 1; simpl; [constructor|done]. Qed.

Lemma Forall_delete' {A} (P : A → Prop) l i : Forall P l → Forall P (delete i l).
Proof.
  intros H. rewrite delete_take_drop. apply Forall_app; split.
  - by apply Forall_take.
  - by apply Forall_drop.
Qed.

Lemma eliminate_strike s cost j k :
  cubic s cost = true → j < s → k < s →
  eliminate cost j k = Ok (strike cost j k).
Proof.
  intros Hc Hj Hk. apply cubic_spec in Hc as [Hlen Hblocks].
  unfold eliminate, strike. rewrite Hlen.
  rewrite (mapR_ok_map _ (delete j)).
  2:{ apply Forall_tail. eapply Forall_impl; [exact Hblocks|].
      intros block [Hb _]; simpl in *. rewrite <- Hb at 1.
      apply take_indices_left. lia. }
  rewrite bind_Ok, (mapR_ok_map _ (fmap (delete k))).
  { by rewrite <- list_fmap_compose. }
  apply Forall_fmap, Forall_tail. eapply Forall_impl; [exact Hblocks|].
  intros block [_ Hrows]; simpl.
  apply mapR_ok_map. apply Forall_delete'.
  eapply Forall_impl; [exact Hrows|]. intros row Hr; simpl in *.
  rewrite <- Hr at 1. apply take_indices_left. lia.
Qed.

Lemma cubic_strike s cost j k :
  cubic s cost = true → j < s → k < s →
  cubic (s - 1) (strike cost j k) = true.
Proof.
  intros Hc Hj Hk. apply cubic_spec in Hc as [Hlen Hblocks].
  apply cubic_spec. unfold strike. split.
  - rewrite length_fmap, tail_length. lia.
  - apply Forall_fmap, Forall_tail.
    eapply Forall_impl; [exact Hblocks|]. intros block [Hb Hrows]; simpl.
    split.
    + rewrite length_fmap, length_delete; [lia|].
      apply lookup_lt_is_Some. lia.
    + apply Forall_fmap, Forall_delete'.
      eapply Forall_impl; [exact Hrows|]. intros row Hr; simpl in *.
      rewrite length_delete; [lia|]. apply lookup_lt_is_Some. lia.
Qed.

Lemma eliminate_length cost j k t :
  eliminate cost j k = Ok t → length t = length cost - 1.
Proof.
  unfold eliminate. intros H.
  destruct (mapR _ (tail cost)) as [t1|] eqn:E1; simpl in H; [|done].
  apply mapR_length in H, E1. rewrite tail_length in E1. lia.
Qed.

End Elimination.

(** ** The elimination step *)

Lemma entry_strike cost j k a b c :
  entry (strike cost j k) a b c = entry cost (S a) (skip j b) (skip k c).
Proof.
  unfold entry, strike, skip.
  rewrite list_lookup_fmap, lookup_tail.
  destruct (cost !! S a) as [block|]; simpl; [|done].
  rewrite list_lookup_fmap.
  assert (delete j block !! b = block !! (if b <? j then b else S b)) as ->.
  { destruct (Nat.ltb_spec b j).
    - by apply list_lookup_delete_lt.
    - by apply list_lookup_delete_ge. }
  destruct (block !! _) as [row|]; simpl; [|done].
  destruct (Nat.ltb_spec c k).
  - by apply list_lookup_delete_lt.
  - by apply list_lookup_delete_ge.
Qed.

(** C8: on a cubic state of size [s >= 2] the elimination step for the action
    [(j, k)] yields a cubic state of size [s - 1]: the old state with block 0,
    row [j] and column [k] struck out, every other entry kept in order. *)
Theorem eliminate_removes_block_row_column s (cost : Tensor) j k :
  cubic s cost = true → 2 ≤ s → j < s → k < s →
  ∃ t, eliminate cost j k = Ok t
       ∧ cubic (s - 1) t = true
       ∧ t = strike cost j k
       ∧ ∀ a b c, entry t a b c = entry cost (S a) (skip j b) (skip k c).
Proof.
  intros Hc _ Hj Hk. exists (strike cost j k). repeat split.
  - by eapply eliminate_strike.
  - by apply cubic_strike.
  - intros. apply entry_strike.
Qed.

Lemma eliminate_removes_block_row_column_witness :
  ∃ t, eliminate [[[1;2];[3;4]];[[5;6];[7;8]]]%Z 0 1 = Ok t
       ∧ cubic 1 t = true
       ∧ t = [[[7]]]%Z
       ∧ ∀ a b c, entry t a b c
                  = entry [[[1;2];[3;4]];[[5;6];[7;8]]]%Z (S a) (skip 0 b) (skip 1 c).
Proof.
  apply (eliminate_removes_block_row_column 2 [[[1;2];[3;4]];[[5;6];[7;8]]]%Z 0 1);
    [reflexivity | lia | lia | lia].
Defined.

(** ** Reasoning about runs of the machine *)

Section Runs.
Import Agent.
Context {A : Type}.
Implicit Types (m : Machine) (E : Exn → Machine → Prop).

Lemma post_ret (a : A) m (Q : A → Machine → Prop) E :
  Q a m → post (mret a) m Q E.
Proof. done. Qed.

Lemma post_bind {B} (c : M B) (f : B → M A) m (Q : A → Machine → Prop) E :
  post c m (λ b m', post (f b) m' Q E) E → post (c ≫= f) m Q E.
Proof.
  unfold post, mbind, M_bind. by destruct (c m) as [[b|e] m'].
Qed.

Lemma post_lift (r : Result A) m (Q : A → Machine → Prop) E :
  (∀ a, r = Ok a → Q a m) → (∀ e, r = Raise e → E e m) →
  post (lift r) m Q E.
Proof. unfold post, lift. destruct r; auto. Qed.

Lemma post_mono (c : M A) m (Q Q' : A → Machine → Prop) E E' :
  post c m Q E → (∀ a m', Q a m' → Q' a m') → (∀ e m', E e m' → E' e m') →
  post c m Q' E'.
Proof. unfold post. destruct (c m) as [[a|e] m']; auto. Qed.

Lemma post_foldM {X} (body : A → X → M A) (I : A → Machine → Prop) E l acc m :
  I acc m →
  (∀ acc x m, x ∈ l → I acc m → post (body acc x) m I E) →
  post (foldM body l acc) m I E.
Proof.
  revert acc m. induction l as [|x l IH]; intros acc m Hacc Hbody; simpl.
  - by apply post_ret.
  - apply post_bind. eapply post_mono.
    + apply Hbody; [left|done].
    + intros acc' m' H'. apply IH; [done|].
      intros ? ? ? ?. apply Hbody. by right.
    + done.
Qed.

Lemma post_fst_snd (c : M A) m Q E :
  post c m Q E →
  match fst (c m) with
  | Ok a => Q a (snd (c m))
  | Raise e => E e (snd (c m))
  end.
Proof. unfold post. by destruct (c m) as [[a|e] m']. Qed.

End Runs.

Lemma post_get_self m (Q : Agent.t → Agent.Machine → Prop) E :
  Q (Agent.self m) m → post Agent.get_self m Q E.
Proof. done. Qed.

Lemma post_record_call c m (Q : unit → Agent.Machine → Prop) E :
  Q tt (logged m [c]) → post (Agent.record_call c) m Q E.
Proof. done. Qed.

Lemma post_forM {X B} (f : X → Agent.M B) (I : Agent.Machine → Prop)
    (E : Exn → Agent.Machine → Prop) l m :
  I m →
  (∀ x m, x ∈ l → I m → post (f x) m (λ _, I) E) →
  post (Agent.forM f l) m (λ _, I) E.
Proof.
  revert m. induction l as [|x l IH]; intros m Hm Hf; simpl.
  - by apply post_ret.
  - apply post_bind. eapply post_mono; [apply Hf; [left|done]| |done].
    intros y m' Hm'. simpl. apply post_bind.
    eapply post_mono; [apply IH; [done|]| |done].
    + intros ? ? ?. apply Hf. by right.
    + intros ys m'' Hm''. by apply post_ret.
Qed.

Lemma extends_refl m : extends m m.
Proof.
  exists []. split; [|done]. destruct m. unfold logged; simpl.
  by rewrite app_nil_r.
Qed.

Lemma extends_trans m1 m2 m3 : extends m1 m2 → extends m2 m3 → extends m1 m3.
Proof.
  intros (cs1 & -> & H1) (cs2 & -> & H2). exists (cs1 ++ cs2). split.
  - unfold logged; simpl. by rewrite app_assoc.
  - by apply Forall_app.
Qed.

Lemma extends_self m m' : extends m m' → Agent.self m' = Agent.self m.
Proof. by intros (cs & -> & _). Qed.

Lemma fails_from_trans m1 m2 e m3 :
  extends m1 m2 → fails_from m2 e m3 → fails_from m1 e m3.
Proof. intros H12 [H23 He]. split; [by eapply extends_trans|done]. Qed.

(** ** Which exceptions the operations raise *)

Section Raises.

Lemma getitem_nat_raises {A} (l : list A) i e :
  getitem_nat l i = Raise e → genuine e.
Proof. unfold getitem_nat. destruct (l !! i); by intros [= <-]. Qed.

Lemma mapR_raises {A B} (f : A → Result B) l e :
  (∀ x e, f x = Raise e → genuine e) → mapR f l = Raise e → genuine e.
Proof.
  intros Hf. induction l as [|x l IH]; simpl; [done|].
  destruct (f x) as [y|e'] eqn:Hx; simpl.
  - destruct (mapR f l); simpl; [done|]. intros [= <-]. by apply IH.
  - intros [= <-]. by eapply Hf.
Qed.

Lemma index3_raises t i j k e : index3 t i j k = Raise e → genuine e.
Proof.
  unfold index3.
  destruct (getitem_nat t i) as [block|e1] eqn:H1; simpl.
  2:{ intros [= <-]. by eapply getitem_nat_raises. }
  destruct (getitem_nat block j) as [row|e2] eqn:H2; simpl.
  2:{ intros [= <-]. by eapply getitem_nat_raises. }
  apply getitem_nat_raises.
Qed.

Lemma item_raises t e : item t = Raise e → genuine e.
Proof. unfold item. destruct (concat (concat t)) as [|? [|]]; by intros [= <-]. Qed.

Lemma resolve_index_raises len i e : resolve_index len i = Raise e → genuine e.
Proof.
  unfold resolve_index. repeat case_match; by intros [= <-].
Qed.

Lemma take_indices_raises {A} (l : list A) idx e :
  take_indices l idx = Raise e → genuine e.
Proof. apply mapR_raises. intros ? ?. apply getitem_nat_raises. Qed.

Lemma eliminate_raises cost j k e : eliminate cost j k = Raise e → genuine e.
Proof.
  unfold eliminate.
  destruct (mapR _ (tail cost)) as [t1|e1] eqn:H1; simpl.
  - apply mapR_raises. intros block ?. apply mapR_raises.
    intros row ?. apply take_indices_raises.
  - intros [= <-]. revert H1. apply mapR_raises.
    intros block ?. apply take_indices_raises.
Qed.

Lemma linear_raises l x e : linear l x = Raise e → genuine e.
Proof. unfold linear. case_match; by intros [= <-]. Qed.

Lemma forward_raises net costs e : forward net costs = Raise e → genuine e.
Proof.
  unfold forward.
  destruct (linear (linear_1 net) _) as [h1|e1] eqn:H1; simpl.
  2:{ intros [= <-]. by eapply linear_raises. }
  destruct (linear (linear_2 net) _) as [h2|e2] eqn:H2; simpl.
  2:{ intros [= <-]. by eapply linear_raises. }
  destruct (linear (linear_3 net) _) as [out|e3] eqn:H3; simpl.
  2:{ intros [= <-]. by eapply linear_raises. }
  apply getitem_nat_raises.
Qed.

Lemma call_raises est costs e : call est costs = Raise e → genuine e.
Proof.
  destruct est as [[|[|k]]|net]; simpl.
  - destruct (index3 costs 0 0 0) eqn:H; simpl; [done|].
    intros [= <-]. by eapply index3_raises.
  - destruct (index3 costs 0 0 0) eqn:H; simpl; [done|].
    intros [= <-]. by eapply index3_raises.
  - done.
  - destruct (forward net costs) eqn:H; simpl; [done|].
    intros [= <-]. by eapply forward_raises.
Qed.

Lemma item_of_raises out e : item_of out = Raise e → genuine e.
Proof. destruct out; by intros [= <-]. Qed.

Lemma concat_of_raises out e : concat_of out = Raise e → genuine e.
Proof. destruct out; by intros [= <-]. Qed.

Lemma unpack_move_raises ev e : Agent.unpack_move ev = Raise e → genuine e.
Proof. destruct ev as [|? []]; by intros [= <-]. Qed.

End Raises.

Create HintDb raises.
#[local] Hint Resolve getitem_nat_raises index3_raises item_raises
  resolve_index_raises eliminate_raises call_raises item_of_raises
  concat_of_raises unpack_move_raises extends_refl : raises.

(** ** Every invocation matches the size of its state *)

Section Invocations.
Import Agent.

Lemma product_in size j k : (j, k) ∈ product size ↔ j < size ∧ k < size.
Proof.
  unfold product, range. rewrite list_elem_of_In, in_prod_iff.
  rewrite <- !list_elem_of_In, !elem_of_seq. lia.
Qed.

Lemma resolve_index_nonneg len (i : Z) idx :
  (0 ≤ i)%Z → resolve_index len i = Ok idx → idx = Z.to_nat i ∧ idx < len.
Proof.
  unfold resolve_index. intros Hi.
  destruct (Z.leb_spec 0 i); [|lia].
  destruct (Z.ltb_spec i (Z.of_nat len)); [|done].
  intros [= <-]. lia.
Qed.

Lemma item_nonempty (t : Tensor) v : item t = Ok v → 1 ≤ length t.
Proof. unfold item. destruct t; simpl; [done|lia]. Qed.

Ltac raised := intros ? ?; split; eauto with raises.

Lemma invoke_post (i : Z) state m :
  (0 ≤ i)%Z → Z.to_nat i = length state →
  post (invoke i state) m (λ _ m', extends m m') (fails_from m).
Proof.
  intros Hi Hlen. unfold invoke.
  apply post_bind, post_get_self, post_bind, post_lift; [|raised].
  intros idx Hidx. apply resolve_index_nonneg in Hidx as [-> _]; [|done].
  apply post_bind, post_lift; [|raised].
  intros e _. apply post_bind, post_record_call.
  assert (extends m (logged m [{| table_index := Z.to_nat i; argument := state |}])).
  { eexists. split; [done|]. by repeat constructor. }
  apply post_lift; [done|raised].
Qed.

Lemma consider_post cost best jk m :
  jk ∈ product (length cost) →
  post (consider cost (length cost) best jk) m
    (λ _ m', extends m m') (fails_from m).
Proof.
  destruct best as [best_pos best_reward], jk as [j k]. intros Hjk.
  apply product_in in Hjk. unfold consider.
  apply post_bind, post_lift; [|raised]. intros cost_left Hleft.
  apply eliminate_length in Hleft.
  apply post_bind, post_lift; [|raised]. intros immediate _.
  apply post_bind.
  eapply post_mono; [apply invoke_post; lia| |done].
  intros out m' Hm'. simpl.
  apply post_bind, post_lift; [|raised]. intros estimate _.
  by destruct (_ <? _)%Z; apply post_ret.
Qed.

Lemma evaluate_position_post cost return_best_move m :
  post (evaluate_position cost return_best_move) m
    (λ _ m', extends m m') (fails_from m).
Proof.
  unfold evaluate_position. destruct (length cost =? 1).
  - apply post_bind, post_lift; [|raised].
    intros v _. apply post_ret, extends_refl.
  - apply post_bind.
    eapply post_mono;
      [apply (post_foldM _ (λ _ m', extends m m') (fails_from m));
         [apply extends_refl|]| |done].
    + intros acc jk m' Hjk Hm'.
      eapply post_mono; [by apply consider_post| |]; simpl.
      * intros ? ? H. exact (extends_trans _ _ _ Hm' H).
      * intros ? ? H. exact (fails_from_trans _ _ _ _ Hm' H).
    + intros [best_pos best_reward] m' Hm'; simpl.
      by destruct return_best_move; apply post_ret.
Qed.

Lemma positions_sized_snoc top positions (cost : Tensor) :
  positions_sized top positions → length cost + length positions = top →
  positions_sized top (positions ++ [cost]).
Proof.
  intros Hps Hc i pos Hi.
  apply lookup_app_Some in Hi as [Hi|[Hge Hi]]; [by apply Hps|].
  apply list_lookup_singleton_Some in Hi as [Hi <-]. lia.
Qed.

Lemma get_rewards_loop_post fuel return_positions top cost rewards positions m :
  length cost ≤ fuel →
  rollout_inv top return_positions (cost, rewards, positions) →
  post (get_rewards_loop fuel return_positions cost rewards positions) m
    (λ st m', extends m m' ∧ rollout_inv top return_positions st
              ∧ length st.1.1 ≤ 1)
    (fails_from m).
Proof.
  revert cost rewards positions m.
  induction fuel as [|fuel IH]; intros cost rewards positions m Hfuel Hinv;
    simpl; destruct (Nat.ltb_spec 1 (length cost)) as [Hlen|Hlen];
    try lia; try (apply post_ret; split; [apply extends_refl|done]).
  apply post_bind.
  eapply post_mono; [apply evaluate_position_post| |done].
  intros ev m' Hm'; simpl.
  apply post_bind, post_lift; [|raised]. intros [j k] _.
  apply post_bind, post_lift; [|raised]. intros r _.
  apply post_bind, post_lift; [|raised]. intros cost' Hcost'.
  apply eliminate_length in Hcost'. destruct Hinv as [Hrw Hps].
  eapply post_mono; [apply (IH cost'); [lia|]| |]; simpl.
  - split; [rewrite length_app; simpl; lia|].
    intros ->. destruct (Hps eq_refl) as [Hpl Hsized].
    rewrite !length_app; simpl. split; [lia|].
    apply positions_sized_snoc; [done|lia].
  - intros st m'' (H & ? & ?). split; [|done].
    exact (extends_trans _ _ _ Hm' H).
  - intros ? ? H. exact (fails_from_trans _ _ _ _ Hm' H).
Qed.

Lemma get_rewards_post cost return_positions m :
  post (get_rewards cost return_positions) m
    (λ out m', extends m m' ∧ rollout_ok (length cost) return_positions out)
    (fails_from m).
Proof.
  unfold get_rewards. apply post_bind.
  eapply post_mono;
    [apply (get_rewards_loop_post _ _ (length cost)); [done|]| |done].
  { split; [done|]. intros _. split; [done|]. by intros i pos Hi. }
  intros [[cost' rewards] positions] m' (Hm' & [Hrw Hps] & Hlen); simpl in *.
  apply post_bind, post_lift; [|raised]. intros v Hv.
  apply item_nonempty in Hv.
  destruct return_positions; apply post_ret; (split; [done|]); simpl.
  - destruct (Hps eq_refl) as [Hpl Hsized].
    rewrite !length_app; simpl. repeat split; try lia.
    apply positions_sized_snoc; [done|lia].
  - rewrite length_app; simpl. split; [done|lia].
Qed.

Lemma act_post cost m :
  post (act cost) m (λ _ m', extends m m') (fails_from m).
Proof.
  unfold act. apply post_bind.
  eapply post_mono; [apply get_rewards_post| |done].
  intros [rewards|rewards positions] m' [Hm' _]; simpl.
  - by apply post_ret.
  - apply post_lift; [done|]. intros e [= <-]. by split.
Qed.

End Invocations.

(** ** One step of lookahead *)

Section Estimators.

Lemma index3_cubic s (t : Tensor) i j k :
  cubic s t = true → i < s → j < s → k < s → ∃ r, index3 t i j k = Ok r.
Proof.
  intros Hc Hi Hj Hk. apply cubic_spec in Hc as [Hlen Hblocks].
  unfold index3, getitem_nat.
  destruct (t !! i) as [block|] eqn:Hb.
  2:{ apply lookup_ge_None in Hb. lia. }
  destruct (Forall_lookup_1 _ _ _ _ Hblocks Hb) as [Hbl Hrows]. simpl.
  destruct (block !! j) as [row|] eqn:Hr.
  2:{ apply lookup_ge_None in Hr. lia. }
  pose proof (Forall_lookup_1 _ _ _ _ Hrows Hr) as Hrl. simpl in *.
  destruct (row !! k) as [x|] eqn:Hx; [by eexists|].
  apply lookup_ge_None in Hx. lia.
Qed.

Lemma concat_length {A} (l : list (list A)) n :
  Forall (λ x, length x = n) l → length (concat l) = length l * n.
Proof.
  induction 1 as [|x l Hx _ IH]; simpl; [done|].
  rewrite length_app, IH, Hx. lia.
Qed.

Lemma features_length s (t : Tensor) :
  cubic s t = true → length (concat (concat t)) = s ^ 3.
Proof.
  intros Hc. apply cubic_spec in Hc as [Hlen Hblocks].
  rewrite (concat_length _ s).
  - rewrite (concat_length _ s).
    + rewrite Hlen. simpl. lia.
    + eapply Forall_impl; [exact Hblocks|]. by intros ? [? _].
  - apply Forall_concat. eapply Forall_impl; [exact Hblocks|].
    by intros ? [_ ?].
Qed.

Lemma linear_shaped l inputs x :
  shaped l inputs = true → length x = inputs →
  ∃ y, linear l x = Ok y ∧ length y = length (weight l).
Proof.
  unfold shaped, linear. intros Hs <-. rewrite Hs.
  eexists. split; [done|].
  apply andb_true_iff in Hs as [_ Hb]. apply Nat.eqb_eq in Hb.
  rewrite length_zip_with. lia.
Qed.

Lemma call_accepts e m (t : Tensor) :
  accepts e m = true → cubic m t = true → ∃ v, call e t = Ok (Some v).
Proof.
  destruct e as [k|net]; simpl; intros Ha Hc.
  - apply andb_true_iff in Ha as [Hk Hm].
    apply Nat.ltb_lt in Hk, Hm.
    destruct (index3_cubic m t 0 0 0 Hc Hm Hm Hm) as [r Hr].
    destruct k as [|[|k]]; [| |lia]; rewrite Hr; by eexists.
  - apply andb_true_iff in Ha as [Ha H0].
    apply andb_true_iff in Ha as [Ha H3].
    apply andb_true_iff in Ha as [H1 H2].
    apply Nat.ltb_lt in H0. unfold forward.
    destruct (linear_shaped _ _ _ H1 (features_length _ _ Hc)) as (h1 & -> & L1).
    rewrite bind_Ok.
    destruct (linear_shaped _ _ (relu h1) H2) as (h2 & -> & L2).
    { unfold relu. by rewrite length_fmap. }
    rewrite bind_Ok.
    destruct (linear_shaped _ _ (relu h2) H3) as (out & -> & L3).
    { unfold relu. by rewrite length_fmap. }
    rewrite bind_Ok. unfold getitem_nat.
    destruct (out !! 0) as [v|] eqn:Hv; [by eexists|].
    apply lookup_ge_None in Hv. lia.
Qed.

End Estimators.

Section Lookahead.
Import Agent.
Variables (s : nat) (cost : Tensor) (e : Estimator).
Hypothesis Hcubic : cubic s cost = true.
Hypothesis Hs : 2 ≤ s.
Hypothesis Haccepts : accepts e (s - 1) = true.

Lemma score_total j k : j < s → k < s → ∃ c, score e cost j k = Ok c.
Proof.
  intros Hj Hk. unfold score.
  destruct (index3_cubic s cost 0 j k Hcubic) as [r ->]; [lia|done|done|].
  destruct (call_accepts e (s - 1) (strike cost j k) Haccepts) as [v ->].
  { by apply cubic_strike. }
  by eexists.
Qed.

Lemma consider_run best j k m :
  value_networks (self m) !! (s - 1) = Some e → j < s → k < s →
  consider cost s best (j, k) m
  = (Ok (pick (score_or e cost) best (j, k)), logged m (lookahead s cost [(j, k)])).
Proof.
  intros Htable Hj Hk. destruct best as [best_pos best_reward].
  destruct (score_total j k Hj Hk) as [c Hc].
  unfold pick, score_or; simpl. rewrite Hc.
  revert Hc. unfold score, consider, invoke.
  cbv [mbind M_bind lift get_self record_call].
  rewrite (eliminate_strike s cost j k Hcubic Hj Hk).
  destruct (index3 cost 0 j k) as [r|]; [|done]. simpl.
  assert (resolve_index (length (value_networks (self m))) (Z.of_nat s - 1)
          = Ok (s - 1)) as ->.
  { apply lookup_lt_Some in Htable. unfold resolve_index.
    destruct (Z.leb_spec 0 (Z.of_nat s - 1)); [|lia].
    destruct (Z.ltb_spec (Z.of_nat s - 1)
                (Z.of_nat (length (value_networks (self m))))); [|lia].
    f_equal. lia. }
  unfold getitem_nat. rewrite Htable.
  destruct (call e (strike cost j k)) as [[v|]|]; simpl; try done.
  intros [= <-]. by destruct (_ <? _)%Z.
Qed.

Lemma lookahead_run ps best m :
  value_networks (self m) !! (s - 1) = Some e →
  Forall (λ jk, jk.1 < s ∧ jk.2 < s) ps →
  foldM (consider cost s) ps best m
  = (Ok (foldl (pick (score_or e cost)) best ps), logged m (lookahead s cost ps)).
Proof.
  intros Htable Hps. revert best m Htable.
  induction Hps as [|[j k] ps [Hj Hk] _ IH]; intros best m Htable; simpl.
  - unfold mret, M_ret, logged, lookahead; simpl. rewrite app_nil_r.
    by destruct m.
  - unfold mbind, M_bind. rewrite consider_run by done.
    rewrite IH by done. unfold logged, lookahead; simpl.
    by rewrite <- app_assoc.
Qed.

Lemma product_range size :
  Forall (λ jk : nat * nat, jk.1 < size ∧ jk.2 < size) (product size).
Proof.
  apply Forall_forall. intros [j k] Hjk. by apply product_in.
Qed.

(** What [evaluate_position] does on a cubic state of size [s >= 2] whose
    size-[s - 1] estimator is in the table. *)
Lemma evaluate_position_run return_best_move m :
  value_networks (self m) !! (s - 1) = Some e →
  evaluate_position cost return_best_move m
  = (Ok (let best := foldl (pick (score_or e cost)) (None, (-1)%Z) (product s) in
         if return_best_move then Pair best.2 best.1 else Scalar best.2),
     logged m (lookahead s cost (product s))).
Proof.
  intros Htable. unfold evaluate_position.
  pose proof Hcubic as Hc. apply cubic_spec in Hc as [Hlen _]. rewrite Hlen.
  destruct (Nat.eqb_spec s 1) as [->|_]; [lia|].
  unfold mbind, M_bind. rewrite lookahead_run by (done || apply product_range).
  destruct (foldl _ _ _) as [best_pos best_reward]; simpl.
  by destruct return_best_move.
Qed.

End Lookahead.

(** ** The running best of the enumeration *)

Section RunningBest.
Variable f : nat * nat → Z.

Lemma pick_fold ps best :
  let r := foldl (pick f) best ps in
  (best.2 ≤ r.2)%Z
  ∧ (∀ p, p ∈ ps → (f p ≤ r.2)%Z)
  ∧ (r = best
     ∨ ∃ ps1 p ps2, ps = ps1 ++ p :: ps2 ∧ r = (Some p, f p)
                    ∧ (best.2 < f p)%Z ∧ ∀ q, q ∈ ps1 → (f q < f p)%Z).
Proof.
  revert best. induction ps as [|a ps IH]; intros best; simpl.
  - split; [lia|]. split; [|by left]. intros p Hp. by apply elem_of_nil in Hp.
  - specialize (IH (pick f best a)). simpl in IH.
    destruct IH as (Hle & Hall & Hbest).
    assert ((best.2 ≤ (pick f best a).2)%Z ∧ (f a ≤ (pick f best a).2)%Z)
      as [Hb Ha].
    { unfold pick. destruct (Z.ltb_spec best.2 (f a)); simpl; lia. }
    split; [lia|]. split.
    { intros p [->|Hp]%elem_of_cons; [lia|by apply Hall]. }
    unfold pick in *. destruct (Z.ltb_spec best.2 (f a)) as [Hlt|Hge].
    + right. destruct Hbest as [->|(ps1 & p & ps2 & -> & -> & Hp & Hq)].
      * exists [], a, ps. repeat split; [done|].
        intros q Hq. by apply elem_of_nil in Hq.
      * exists (a :: ps1), p, ps2. simpl in *. repeat split; [lia|].
        intros q [->|Hin]%elem_of_cons; [done|by apply Hq].
    + destruct Hbest as [->|(ps1 & p & ps2 & -> & -> & Hp & Hq)]; [by left|].
      right. exists (a :: ps1), p, ps2. repeat split; [done|].
      intros q [->|Hin]%elem_of_cons; [lia|by apply Hq].
Qed.

End RunningBest.

Section EnumerationOrder.

Lemma seq_sorted start len : StronglySorted lt (seq start len).
Proof.
  revert start. induction len as [|len IH]; intros start; simpl.
  - constructor.
  - constructor; [apply IH|]. apply Forall_forall. intros i Hi.
    apply elem_of_seq in Hi. lia.
Qed.

Lemma list_prod_sorted (l1 l2 : list nat) :
  StronglySorted lt l1 → StronglySorted lt l2 →
  StronglySorted before (list_prod l1 l2).
Proof.
  intros H1 H2. induction H1 as [|x l1 _ IH Hx]; simpl; [constructor|].
  apply StronglySorted_app_2; [| |done].
  - intros [x1 y1] [x2 y2] Hin1 Hin2.
    apply list_elem_of_In, in_map_iff in Hin1 as (y & [= <- <-] & _).
    apply list_elem_of_In, in_prod_iff in Hin2 as [Hin2 _].
    left; simpl. rewrite Forall_forall in Hx.
    by apply Hx, list_elem_of_In.
  - change (map (λ y, (x, y)) l2) with ((λ y, (x, y)) <$> l2).
    eapply (StronglySorted_fmap _ lt); [|done].
    intros y1 y2 Hy. right; simpl. lia.
Qed.

Lemma product_sorted size : StronglySorted before (product size).
Proof. apply list_prod_sorted; apply seq_sorted. Qed.

Lemma before_asymm p q : before p q → before q p → False.
Proof. unfold before. lia. Qed.

Lemma before_irrefl p : ¬ before p p.
Proof. unfold before. lia. Qed.

(** In a split of the enumeration at [p], the pairs left of [p] are the
    pairs enumerated before it. *)
Lemma product_split size ps1 p ps2 q :
  product size = ps1 ++ p :: ps2 → q ∈ product size →
  q ∈ ps1 ∨ q = p ∨ before p q.
Proof.
  intros Hsplit Hq. pose proof (product_sorted size) as Hsorted.
  rewrite Hsplit in Hq, Hsorted.
  apply elem_of_app in Hq as [Hq|Hq]; [by left|].
  apply elem_of_cons in Hq as [->|Hq]; [by right; left|].
  right; right. apply StronglySorted_app_1_r in Hsorted.
  apply StronglySorted_cons in Hsorted as [Hp _].
  rewrite Forall_forall in Hp. by apply Hp.
Qed.

End EnumerationOrder.

(** ** The trailing-sum scan *)

Section Scan.
Import Agent.

Lemma sumZ_app l1 l2 : sumZ (l1 ++ l2) = (sumZ l1 + sumZ l2)%Z.
Proof. induction l1 as [|x l1 IH]; simpl; [done|]. rewrite IH. lia. Qed.

Lemma trailing_length l : length (trailing l) = length l.
Proof. induction l; simpl; by f_equal. Qed.

Lemma trailing_lookup l i :
  i < length l → trailing l !! i = Some (sumZ (drop i l)).
Proof.
  revert i. induction l as [|x l IH]; intros [|i] Hi; simpl in *;
    try lia; [done|]. apply IH. lia.
Qed.

Lemma trailing_snoc2 pre a b :
  trailing (pre ++ [a; b]) = trailing (pre ++ [(a + b)%Z]) ++ [b].
Proof.
  induction pre as [|x pre IH]; simpl.
  - rewrite !Z.add_0_r. done.
  - rewrite IH. simpl. f_equal. rewrite !sumZ_app. simpl. lia.
Qed.

Lemma set_entry_length (t : Tensor) i j k v :
  length (set_entry t i j k v) = length t.
Proof. unfold set_entry. apply length_alter. Qed.

Lemma alter_lengths (f : Tensor → Tensor) p (positions : list Tensor) :
  (∀ t, length (f t) = length t) →
  length <$> alter f p positions = length <$> positions.
Proof.
  intros Hf. apply list_eq. intros i. rewrite !list_lookup_fmap.
  destruct (decide (p = i)) as [->|Hne].
  - rewrite list_lookup_alter_eq. destruct (positions !! i); simpl; [|done].
    by rewrite Hf.
  - by rewrite list_lookup_alter_ne.
Qed.

Lemma iadd_run rewards positions i target addend :
  rewards !! (i - 1) = Some target → rewards !! i = Some addend →
  ∃ rewards' positions',
    iadd (rewards, positions) i = Ok (rewards', positions')
    ∧ value <$> rewards'
      = <[i - 1 := (value target + value addend)%Z]> (value <$> rewards)
    ∧ length <$> positions' = length <$> positions.
Proof.
  intros Ht Ha. unfold iadd, getitem_nat. rewrite Ht, Ha. simpl.
  eexists _, _. split; [done|]. split.
  - by rewrite list_fmap_insert.
  - destruct (view target) as [[[p j] k]|]; [|done].
    apply alter_lengths. intros t. apply set_entry_length.
Qed.

Lemma foldR_cons {X S} (body : S → X → Result S) x l acc :
  foldR body (x :: l) acc = body acc x ≫= foldR body l.
Proof. done. Qed.

Lemma scan_run m rewards positions :
  m ≤ length rewards - 1 →
  ∃ rewards' positions',
    foldR iadd (reverse (seq 1 m)) (rewards, positions)
    = Ok (rewards', positions')
    ∧ value <$> rewards'
      = trailing (take (S m) (value <$> rewards))
        ++ drop (S m) (value <$> rewards)
    ∧ length <$> positions' = length <$> positions.
Proof.
  revert rewards positions.
  induction m as [|m IH]; intros rewards positions Hm.
  - simpl. eexists _, _. split; [done|]. split; [|done].
    destruct rewards as [|r rewards]; simpl; [done|].
    rewrite drop_0. f_equal. lia.
  - rewrite seq_S, reverse_snoc, foldR_cons. change (1 + m) with (S m).
    destruct (lookup_lt_is_Some_2 rewards m) as [target Ht]; [lia|].
    destruct (lookup_lt_is_Some_2 rewards (S m)) as [addend Ha]; [lia|].
    destruct (iadd_run rewards positions (S m) target addend)
      as (rewards1 & positions1 & -> & Hv1 & Hp1); [|done|].
    { by replace (S m - 1) with m by lia. }
    rewrite bind_Ok.
    assert (length rewards1 = length rewards) as Hl1.
    { rewrite <- (length_fmap value rewards1), Hv1, length_insert.
      apply length_fmap. }
    destruct (IH rewards1 positions1) as (rewards' & positions' & -> & Hv & Hp);
      [lia|].
    eexists _, _. split; [done|]. split; [|congruence].
    rewrite Hv, Hv1. replace (S m - 1) with m by lia.
    set (V := value <$> rewards).
    assert (V !! m = Some (value target)) as HVt.
    { unfold V. by rewrite list_lookup_fmap, Ht. }
    assert (V !! S m = Some (value addend)) as HVa.
    { unfold V. by rewrite list_lookup_fmap, Ha. }
    rewrite take_insert_lt, drop_insert_lt by lia.
    rewrite (take_S_r V (S m) _ HVa), (take_S_r V m _ HVt).
    rewrite insert_app_r_alt by (rewrite length_take; lia).
    replace (m - length (take m V)) with 0
      by (rewrite length_take; apply lookup_lt_Some in HVt; lia).
    simpl. rewrite <- (app_assoc (take m V)). simpl.
    rewrite trailing_snoc2, <- app_assoc. simpl.
    by rewrite (drop_S V _ (S m) HVa).
Qed.

End Scan.

(** ** The positions scored while fine-tuning *)

Section FineTune.
Import Agent.

Lemma positions_sized_lengths top (ps ps' : list Tensor) :
  length <$> ps' = length <$> ps →
  positions_sized top ps → positions_sized top ps'.
Proof.
  intros Heq Hps i pos' Hi.
  assert ((length <$> ps') !! i = Some (length pos')) as Hl.
  { by rewrite list_lookup_fmap, Hi. }
  rewrite Heq in Hl. apply list_lookup_fmap_Some in Hl as (pos & -> & Hpos).
  by apply Hps.
Qed.

Lemma scan_post self_n rewards positions :
  length rewards + 1 = self_n →
  ∃ rewards' positions',
    scan self_n (rewards, positions) = Ok (rewards', positions')
    ∧ value <$> rewards' = trailing (value <$> rewards)
    ∧ length <$> positions' = length <$> positions.
Proof.
  intros Hn. unfold scan, countdown.
  destruct (scan_run (self_n - 2) rewards positions)
    as (rewards' & positions' & Hrun & Hv & Hp); [lia|].
  exists rewards', positions'. split; [done|]. split; [|done].
  rewrite Hv, take_ge, drop_ge by (rewrite length_fmap; lia).
  by rewrite app_nil_r.
Qed.

Ltac raised := intros ? ?; split; eauto with raises.

Lemma fine_tune_instance_post cost m :
  length cost + 1 = n (self m) →
  post (fine_tune_instance cost) m (λ _ m', extends m m') (fails_from m).
Proof.
  intros Hn. unfold fine_tune_instance. apply post_bind.
  eapply post_mono; [apply get_rewards_post| |done].
  intros [rewards|rewards positions] m' [Hm' Hok]; simpl in *.
  { apply post_lift; [done|]. intros e [= <-]. by split. }
  destruct Hok as (_ & Hrw & Hpl & Hps).
  apply post_bind, post_get_self, post_bind.
  pose proof (extends_self _ _ Hm') as Hself.
  destruct (scan_post (n (self m')) rewards positions)
    as (rewards' & positions' & Hscan & _ & Hlens).
  { rewrite Hself. lia. }
  apply post_lift; rewrite Hscan; [|done]. intros ? [= <-].
  apply (positions_sized_lengths _ _ _ Hlens) in Hps.
  apply post_bind.
  eapply post_mono;
    [apply (post_forM _ (extends m) (fails_from m)); [done|]| |done].
  2:{ intros outs m1 Hm1. apply post_bind, post_lift.
      - intros ? _. by apply post_ret.
      - intros e He. split; [done|].
        eapply mapR_raises; [|exact He]. intros ? ?. apply concat_of_raises. }
  intros [i pos] m1 Hin Hm1.
  apply elem_of_lookup_imap_1 in Hin as (i' & pos' & [= -> ->] & Hpos).
  apply post_bind, post_get_self.
  rewrite (extends_self _ _ Hm1). specialize (Hps _ _ Hpos).
  eapply post_mono; [apply invoke_post; lia| |].
  - intros out m2 Hm2; simpl. by eapply extends_trans.
  - intros e m2 Hm2. by eapply fails_from_trans.
Qed.

End FineTune.

(** ** The best pair, when some pair beats the initial running best *)

Section AboveSentinel.
Import Agent.

Lemma score_or_ok e cost j k c :
  score e cost j k = Ok c → score_or e cost (j, k) = c.
Proof. unfold score_or; simpl. by intros ->. Qed.

(** If some pair is worth more than [-1], the value returned is the
    greatest worth of any pair and the move returned is the first pair of
    the enumeration that has it. *)
Lemma evaluate_position_above_sentinel s cost e m :
  cubic s cost = true → 2 ≤ s →
  value_networks (self m) !! (s - 1) = Some e → accepts e (s - 1) = true →
  (∃ j k c, j < s ∧ k < s ∧ score e cost j k = Ok c ∧ (-1 < c)%Z) →
  ∃ v j k,
    fst (evaluate_position cost true m) = Ok (Pair v (Some (j, k)))
    ∧ fst (evaluate_position cost false m) = Ok (Scalar v)
    ∧ j < s ∧ k < s ∧ score e cost j k = Ok v
    ∧ ∀ j' k', j' < s → k' < s →
        ∃ c, score e cost j' k' = Ok c ∧ (c ≤ v)%Z
             ∧ (c = v → (j', k') = (j, k) ∨ before (j, k) (j', k')).
Proof.
  intros Hcubic Hs Htable Haccepts (j0 & k0 & c0 & Hj0 & Hk0 & Hc0 & Hgt).
  rewrite !(evaluate_position_run s cost e) by done. simpl.
  destruct (pick_fold (score_or e cost) (product s) (None, (-1)%Z))
    as (_ & Hall & Hbest). simpl in *.
  assert ((c0 ≤ (foldl (pick (score_or e cost)) (None, (-1)%Z) (product s)).2)%Z)
    as Hc0le.
  { rewrite <- (score_or_ok _ _ _ _ _ Hc0). by apply Hall, product_in. }
  destruct Hbest as [Heq|(ps1 & [j k] & ps2 & Hsplit & Heq & _ & Hfirst)].
  { rewrite Heq in Hc0le. simpl in Hc0le. lia. }
  rewrite Heq in *. simpl in *.
  assert ((j, k) ∈ product s) as Hin.
  { rewrite Hsplit. apply elem_of_app. right. by left. }
  apply product_in in Hin as [Hj Hk].
  destruct (score_total s cost e Hcubic Hs Haccepts j k Hj Hk) as [v Hv].
  rewrite (score_or_ok _ _ _ _ _ Hv) in *.
  exists v, j, k. repeat split; try done.
  intros j' k' Hj' Hk'.
  destruct (score_total s cost e Hcubic Hs Haccepts j' k' Hj' Hk') as [c Hc].
  exists c. split; [done|].
  assert ((j', k') ∈ product s) as Hin' by by apply product_in.
  pose proof (Hall _ Hin') as Hle. rewrite (score_or_ok _ _ _ _ _ Hc) in Hle.
  split; [done|]. intros ->.
  destruct (product_split _ _ _ _ _ Hsplit Hin') as [Hq|[Hq|Hq]]; auto.
  apply Hfirst in Hq. rewrite (score_or_ok _ _ _ _ _ Hc) in Hq. lia.
Qed.

End AboveSentinel.

(** ** The rollout on states without negative entries *)

Section Rollout.
Import Agent.

Lemma evaluate_position_move s cost e m :
  cubic s cost = true → 2 ≤ s →
  value_networks (self m) !! (s - 1) = Some e → accepts e (s - 1) = true →
  (∃ j k c, j < s ∧ k < s ∧ score e cost j k = Ok c ∧ (-1 < c)%Z) →
  ∃ v j k,
    evaluate_position cost true m
    = (Ok (Pair v (Some (j, k))), logged m (lookahead s cost (product s)))
    ∧ j < s ∧ k < s.
Proof.
  intros Hcubic Hs Htable Haccepts Hsome.
  destruct (evaluate_position_above_sentinel s cost e m)
    as (v & j & k & Hfst & _ & Hj & Hk & _); try done.
  exists v, j, k. split; [|done].
  rewrite (evaluate_position_run s cost e) in Hfst |- * by done.
  simpl in *. by rewrite Hfst.
Qed.

Lemma nonneg_index3 cost i j k r :
  nonneg cost → index3 cost i j k = Ok r → (0 ≤ r)%Z.
Proof.
  unfold nonneg, index3, getitem_nat. intros Hn.
  destruct (cost !! i) as [block|] eqn:Hb; simpl; [|done].
  pose proof (Forall_lookup_1 _ _ _ _ Hn Hb) as Hblock.
  destruct (block !! j) as [row|] eqn:Hr; simpl; [|done].
  pose proof (Forall_lookup_1 _ _ _ _ Hblock Hr) as Hrow.
  destruct (row !! k) as [x|] eqn:Hx; simpl; [|done].
  intros [= <-]. exact (Forall_lookup_1 _ _ _ _ Hrow Hx).
Qed.

Lemma nonneg_strike cost j k : nonneg cost → nonneg (strike cost j k).
Proof.
  unfold nonneg, strike. intros Hn.
  apply Forall_fmap, Forall_tail. eapply Forall_impl; [exact Hn|].
  intros block Hblock; simpl.
  apply Forall_fmap, Forall_delete'. eapply Forall_impl; [exact Hblock|].
  intros row Hrow; simpl. by apply Forall_delete'.
Qed.

Lemma covers_pair s cost e :
  cubic s cost = true → 2 ≤ s → nonneg cost →
  accepts e (s - 1) = true → hopeful e →
  ∃ j k c, j < s ∧ k < s ∧ score e cost j k = Ok c ∧ (-1 < c)%Z.
Proof.
  intros Hcubic Hs Hn Haccepts Hhope.
  destruct (score_total s cost e Hcubic Hs Haccepts 0 0) as [c Hc]; [lia..|].
  exists 0, 0, c. repeat split; [lia..|done|].
  revert Hc. unfold score.
  destruct (index3 cost 0 0 0) as [r|] eqn:Hr; simpl; [|done].
  destruct (call e (strike cost 0 0)) as [[v|]|] eqn:Hv; simpl; try done.
  intros [= <-]. apply (nonneg_index3 _ _ _ _ _ Hn) in Hr.
  apply Hhope in Hv; [lia|]. by apply nonneg_strike.
Qed.

Lemma get_rewards_loop_total fuel return_positions s cost rewards positions m :
  cubic s cost = true → 1 ≤ s → s ≤ fuel → nonneg cost →
  covers (value_networks (self m)) s →
  ∃ st m',
    get_rewards_loop fuel return_positions cost rewards positions m
    = (Ok st, m')
    ∧ cubic 1 st.1.1 = true.
Proof.
  revert s cost rewards positions m.
  induction fuel as [|fuel IH];
    intros s cost rewards positions m Hcubic Hs Hfuel Hn Hcov; [lia|].
  simpl. pose proof Hcubic as [Hlen _]%cubic_spec. rewrite Hlen.
  destruct (Nat.ltb_spec 1 s) as [Hs2|Hs1].
  2:{ eexists _, _. split; [done|]. simpl. by replace 1 with s by lia. }
  destruct (Hcov (s - 1)) as (e & Htable & Haccepts & Hhope); [lia|].
  destruct (evaluate_position_move s cost e m) as (v & j & k & Hev & Hj & Hk);
    try done.
  { by apply covers_pair. }
  unfold mbind at 1, M_bind at 1. rewrite Hev. simpl.
  destruct (index3_cubic s cost 0 j k Hcubic) as [r Hr]; [lia|done..|].
  cbv [mbind M_bind lift]. rewrite Hr, (eliminate_strike s cost j k) by done.
  apply (IH (s - 1)); [by apply cubic_strike|lia..|by apply nonneg_strike|].
  intros i Hi. apply Hcov. lia.
Qed.

(** On a cubic state of size [s >= 1] without negative entries, with a table
    that covers the sizes below [s], [get_rewards] returns [s] rewards and
    [act] returns their sum. *)
Lemma get_rewards_total s cost m :
  cubic s cost = true → 1 ≤ s → nonneg cost →
  covers (value_networks (self m)) s →
  ∃ rewards,
    fst (get_rewards cost false m) = Ok (Rewards rewards)
    ∧ length rewards = s
    ∧ fst (act cost m) = Ok (foldl Z.add 0%Z (value <$> rewards)).
Proof.
  intros Hcubic Hs Hn Hcov.
  pose proof Hcubic as [Hlen _]%cubic_spec.
  assert (∃ out, fst (get_rewards cost false m) = Ok out) as [out Hout].
  { unfold get_rewards.
    destruct (get_rewards_loop_total (length cost) false s cost [] [] m)
      as ([[cost' rewards] positions] & m' & Hloop & Hone); try done; [lia|].
    unfold mbind at 1, M_bind at 1. rewrite Hloop. simpl in Hone.
    apply cubic_one in Hone as [x ->]. by eexists. }
  pose proof (get_rewards_post cost false m) as Hpost.
  apply post_fst_snd in Hpost. rewrite Hout in Hpost.
  destruct Hpost as [_ Hok]. destruct out as [rewards|? ?]; [|by destruct Hok].
  destruct Hok as [_ Hrw]. exists rewards. split; [done|]. split; [lia|].
  unfold act, mbind, M_bind. revert Hout.
  destruct (get_rewards cost false m) as [[out|e] m']; simpl; [|done].
  by intros [= ->].
Qed.

Lemma classical_hopeful k : hopeful (ClassicalValueEstimator k).
Proof.
  intros t v Hn. destruct k as [|[|k]]; simpl.
  - destruct (index3 t 0 0 0); simpl; [|done]. intros [= <-]. lia.
  - destruct (index3 t 0 0 0) as [r|] eqn:Hr; simpl; [|done].
    intros [= <-]. apply (nonneg_index3 _ _ _ _ _ Hn) in Hr. lia.
  - done.
Qed.

(** The default agent on the states of sizes 1 and 2 it is built for. *)
Lemma default_agent_rollout s cost m :
  self m = init_default → cubic s cost = true → 1 ≤ s ≤ 2 → nonneg cost →
  ∃ rewards,
    fst (get_rewards cost false m) = Ok (Rewards rewards)
    ∧ length rewards = s
    ∧ fst (act cost m) = Ok (foldl Z.add 0%Z (value <$> rewards)).
Proof.
  intros Hself Hcubic Hs Hn. apply get_rewards_total; [done|lia|done|].
  rewrite Hself. intros i Hi. assert (i = 1) as -> by lia.
  exists (ClassicalValueEstimator 1). repeat split. apply classical_hopeful.
Qed.

(** With entries in the range of the default generator the initial running
    best can still win: a network that answers [-5] leaves every pair of
    [zero_cost_3] worth [-5]. *)
Example evaluate_position_gloomy :
  fst (evaluate_position zero_cost_3 true (fresh gloomy_agent_3))
  = Ok (Pair (-1) None)
  ∧ fst (get_rewards zero_cost_3 false (fresh gloomy_agent_3))
    = Raise TypeError.
Proof. by vm_compute. Qed.

End Rollout.

(** ** The position evaluator *)

Lemma post_extends {A} (c : Agent.M A) m :
  post c m (λ _ m', extends m m') (fails_from m) → extends m (snd (c m)).
Proof.
  intros H. apply post_fst_snd in H.
  destruct (fst (c m)); [done|by destruct H].
Qed.

(** C7: on a 1x1x1 state [evaluate_position] returns the single entry with
    the action [(0, 0)], whatever [return_best_move] is, and the machine is
    left as it was: no estimator is invoked. *)
Theorem evaluate_position_size_one (cost : Tensor) :
  cubic 1 cost = true →
  ∃ x, entry cost 0 0 0 = Some x
       ∧ ∀ return_best_move m,
           Agent.evaluate_position cost return_best_move m
           = (Ok (Pair x (Some (0, 0))), m).
Proof.
  intros [x ->]%cubic_one. exists x. split; [done|]. by intros [] m.
Qed.

Lemma evaluate_position_size_one_witness :
  ∃ x, entry [[[7%Z]]] 0 0 0 = Some x
       ∧ ∀ return_best_move m,
           Agent.evaluate_position [[[7%Z]]] return_best_move m
           = (Ok (Pair x (Some (0, 0))), m).
Proof. apply (evaluate_position_size_one [[[7%Z]]]). reflexivity. Defined.

(** C10: with [return_best_move=False] the result is a bare number on a
    state of size [s >= 2] (whose size-[s - 1] estimator is in the table) and
    a tuple of the value and [(0, 0)] on a state of size 1. *)
Theorem evaluate_position_default_shape :
  (∀ s (cost : Tensor) e m,
     cubic s cost = true → 2 ≤ s →
     Agent.value_networks (Agent.self m) !! (s - 1) = Some e →
     accepts e (s - 1) = true →
     ∃ v, fst (Agent.evaluate_position cost false m) = Ok (Scalar v))
  ∧ (∀ (cost : Tensor) m,
       cubic 1 cost = true →
       ∃ v, fst (Agent.evaluate_position cost false m)
            = Ok (Pair v (Some (0, 0)))).
Proof.
  split.
  - intros s cost e m Hc Hs Htable Ha.
    rewrite (evaluate_position_run s cost e) by done. by eexists.
  - intros cost m [x ->]%cubic_one. by exists x.
Qed.

Lemma evaluate_position_default_shape_witness :
  (∃ v, fst (Agent.evaluate_position sample_cost_2 false
               (fresh Agent.init_default)) = Ok (Scalar v))
  ∧ (∃ v, fst (Agent.evaluate_position [[[7%Z]]] false
                 (fresh Agent.init_default)) = Ok (Pair v (Some (0, 0)))).
Proof.
  split.
  - apply (proj1 evaluate_position_default_shape 2 sample_cost_2
             (ClassicalValueEstimator 1) (fresh Agent.init_default));
      [reflexivity | lia | reflexivity | reflexivity].
  - apply (proj2 evaluate_position_default_shape [[[7%Z]]]
             (fresh Agent.init_default)). reflexivity.
Defined.

(** C1: on [low_cost] every pair is worth [-2], so the maximum is [-2]; the
    default agent's [evaluate_position] returns the initial running best
    [-1] and no move ([None]). *)
Theorem evaluate_position_low_cost :
  cubic 2 low_cost = true
  ∧ (λ jk, score (ClassicalValueEstimator 1) low_cost jk.1 jk.2) <$> product 2
    = [Ok (-2)%Z; Ok (-2)%Z; Ok (-2)%Z; Ok (-2)%Z]
  ∧ fst (Agent.evaluate_position low_cost true (fresh Agent.init_default))
    = Ok (Pair (-1) None)
  ∧ fst (Agent.evaluate_position low_cost false (fresh Agent.init_default))
    = Ok (Scalar (-1)).
Proof. by vm_compute. Qed.

(** C6: on [tied_cost] the pairs [(0, 0)] and [(1, 1)] tie for the best
    worth, [-3]; the default agent's [evaluate_position] returns no move at
    all instead of the earlier pair [(0, 0)]. *)
Theorem evaluate_position_tied_cost :
  cubic 2 tied_cost = true
  ∧ (λ jk, (jk, score (ClassicalValueEstimator 1) tied_cost jk.1 jk.2))
      <$> product 2
    = [((0, 0), Ok (-3)%Z); ((0, 1), Ok (-5)%Z);
       ((1, 0), Ok (-5)%Z); ((1, 1), Ok (-3)%Z)]
  ∧ fst (Agent.evaluate_position tied_cost true (fresh Agent.init_default))
    = Ok (Pair (-1) None).
Proof. by vm_compute. Qed.

(** ** The rollout *)

(** C2: on the cubic state [low_cost] of size 2 the default agent's
    [get_rewards] and [act] raise [TypeError] (the move to unpack is
    [None]) instead of returning two rewards and their sum. *)
Theorem get_rewards_low_cost :
  cubic 2 low_cost = true
  ∧ fst (Agent.get_rewards low_cost false (fresh Agent.init_default))
    = Raise TypeError
  ∧ fst (Agent.act low_cost (fresh Agent.init_default)) = Raise TypeError.
Proof. by vm_compute. Qed.

(** When [get_rewards] returns, it returns as many rewards as the state has
    blocks (and as many positions, the [i]-th of size [length cost - i]). *)
Lemma get_rewards_length cost return_positions m out :
  fst (Agent.get_rewards cost return_positions m) = Ok out →
  rollout_ok (length cost) return_positions out.
Proof.
  intros H. pose proof (get_rewards_post cost return_positions m) as Hp.
  apply post_fst_snd in Hp. rewrite H in Hp. by destruct Hp.
Qed.

(** [act] returns the sum of what [get_rewards] returns. *)
Lemma act_sum cost m rewards :
  fst (Agent.get_rewards cost false m) = Ok (Rewards rewards) →
  fst (Agent.act cost m) = Ok (foldl Z.add 0%Z (value <$> rewards)).
Proof.
  unfold Agent.act, mbind, Agent.M_bind.
  destruct (Agent.get_rewards cost false m) as [[out|e] m']; simpl; [|done].
  by intros [= ->].
Qed.

(** The loop of [get_rewards] never uses up its fuel. *)
Lemma get_rewards_fuel cost return_positions m :
  fst (Agent.get_rewards cost return_positions m) ≠ Raise OutOfFuel.
Proof.
  pose proof (get_rewards_post cost return_positions m) as Hp.
  apply post_fst_snd in Hp.
  destruct (fst _) as [out|e]; [done|]. destruct Hp as [_ He].
  intros [= ->]. by apply He.
Qed.

Example get_rewards_sample :
  fst (Agent.get_rewards sample_cost_3 false (fresh sample_agent_3))
  = Ok (Rewards [{| value := 5; view := None |};
                 {| value := 9; view := None |};
                 {| value := 9; view := None |}])
  ∧ fst (Agent.act sample_cost_3 (fresh sample_agent_3)) = Ok 23%Z.
Proof. by vm_compute. Qed.

(** ** Estimators and the sizes of the states they score *)

(** C3: every estimator invocation made by [evaluate_position], and every
    one made while the targets and predictions of a fine-tuning instance of
    size [self.n - 1] are computed (the rollout and the per-position
    predictions), hands a state of size [s] to the table entry [s]. *)
Theorem invocations_match_sizes :
  (∀ (cost : Tensor) return_best_move m,
     ∃ calls,
       snd (Agent.evaluate_position cost return_best_move m) = logged m calls
       ∧ Forall (λ c, table_index c = length (argument c)) calls)
  ∧ (∀ (cost : Tensor) m,
       length cost + 1 = Agent.n (Agent.self m) →
       ∃ calls,
         snd (Agent.fine_tune_instance cost m) = logged m calls
         ∧ Forall (λ c, table_index c = length (argument c)) calls).
Proof.
  split.
  - intros cost rbm m. apply post_extends, evaluate_position_post.
  - intros cost m Hn. by apply post_extends, fine_tune_instance_post.
Qed.

Lemma invocations_match_sizes_witness :
  (∃ calls,
     snd (Agent.evaluate_position sample_cost_3 true (fresh sample_agent_3))
     = logged (fresh sample_agent_3) calls
     ∧ Forall (λ c, table_index c = length (argument c)) calls)
  ∧ (∃ calls,
       snd (Agent.fine_tune_instance sample_cost_2 (fresh sample_agent_3))
       = logged (fresh sample_agent_3) calls
       ∧ Forall (λ c, table_index c = length (argument c)) calls).
Proof.
  split.
  - apply (proj1 invocations_match_sizes sample_cost_3 true
             (fresh sample_agent_3)).
  - apply (proj2 invocations_match_sizes sample_cost_2 (fresh sample_agent_3)).
    reflexivity.
Defined.

(** The invocations of one fine-tuning instance: four lookaheads of the
    rollout, then one prediction per recorded position, each by the entry of
    that position's size.  The first position reaches its estimator with the
    entry [[0, 0, 0]] already overwritten by the trailing sum. *)
Example fine_tune_instance_sample :
  Agent.fine_tune_instance sample_cost_2 (fresh sample_agent_3)
  = (Ok ([9; 8]%Z, [19; 8]%Z),
     logged (fresh sample_agent_3)
       [{| table_index := 1; argument := [[[8%Z]]] |};
        {| table_index := 1; argument := [[[7%Z]]] |};
        {| table_index := 1; argument := [[[6%Z]]] |};
        {| table_index := 1; argument := [[[5%Z]]] |};
        {| table_index := 2;
           argument := [[[9; 2]; [3; 4]]; [[5; 6]; [7; 8]]]%Z |};
        {| table_index := 1; argument := [[[8%Z]]] |}]).
Proof. by vm_compute. Qed.

(** ** Inference leaves the table alone *)

Lemma run_self c m : Agent.self (Agent.run c m) = Agent.self m.
Proof.
  destruct c; simpl; apply extends_self, post_extends.
  - apply act_post.
  - eapply post_mono; [apply get_rewards_post| |done]. by intros ? ? [? _].
  - apply evaluate_position_post.
Qed.

(** C9: whatever sequence of [act], [get_rewards] and [evaluate_position]
    calls is run, on whatever states, the estimator table (every estimator
    and every parameter in it) is afterwards what it was before. *)
Theorem inference_keeps_parameters cs m :
  Agent.value_networks (Agent.self (Agent.run_all cs m))
  = Agent.value_networks (Agent.self m).
Proof.
  unfold Agent.run_all. revert m.
  induction cs as [|c cs IH]; intros m; simpl; [done|].
  by rewrite IH, run_self.
Qed.

Example inference_keeps_parameters_sample :
  Agent.value_networks
    (Agent.self
       (Agent.run_all
          [Agent.Act sample_cost_3; Agent.GetRewards low_cost true;
           Agent.EvaluatePosition sample_cost_2 false]
          (fresh sample_agent_3)))
  = [ClassicalValueEstimator 0; ClassicalValueEstimator 1;
     Network sample_net_2].
Proof. by vm_compute. Qed.

(** ** The fine-tuning targets *)

(** ** The scan over machine numbers *)

Section NestedScan.
Variable add : Z → Z → Z.

Lemma nested_snoc2 x pre a b :
  nested add x (pre ++ [a; b]) = nested add x (pre ++ [add a b]).
Proof.
  revert x. induction pre as [|y pre IH]; intros x; simpl; [done|].
  by rewrite IH.
Qed.

Lemma nested_sums_snoc2 pre a b :
  nested_sums add (pre ++ [a; b]) = nested_sums add (pre ++ [add a b]) ++ [b].
Proof.
  induction pre as [|x pre IH]; simpl; [done|].
  by rewrite IH, nested_snoc2.
Qed.

Lemma nested_sums_length l : length (nested_sums add l) = length l.
Proof. induction l; simpl; by f_equal. Qed.

Lemma nested_sums_lookup l i x rest :
  drop i l = x :: rest → nested_sums add l !! i = Some (nested add x rest).
Proof.
  revert i. induction l as [|y l IH]; intros [|i] Hdrop; simpl in *;
    try done.
  - by injection Hdrop as -> ->.
  - by apply IH.
Qed.

Lemma nested_sums_last l : last (nested_sums add l) = last l.
Proof.
  induction l as [|x [|y l] IH]; [done|done|].
  change (last (nested_sums add (y :: l)) = last (y :: l)). exact IH.
Qed.

Lemma rounded_iadd_run rewards positions i target addend :
  rewards !! (i - 1) = Some target → rewards !! i = Some addend →
  ∃ rewards' positions',
    Rounded.iadd add (rewards, positions) i = Ok (rewards', positions')
    ∧ value <$> rewards'
      = <[i - 1 := add (value target) (value addend)]> (value <$> rewards)
    ∧ length <$> positions' = length <$> positions.
Proof.
  intros Ht Ha. unfold Rounded.iadd, getitem_nat. rewrite Ht, Ha. simpl.
  eexists _, _. split; [done|]. split.
  - by rewrite list_fmap_insert.
  - destruct (view target) as [[[p j] k]|]; [|done].
    apply alter_lengths. intros t. apply set_entry_length.
Qed.

Lemma rounded_scan_run m rewards positions :
  m ≤ length rewards - 1 →
  ∃ rewards' positions',
    Agent.foldR (Rounded.iadd add) (reverse (seq 1 m)) (rewards, positions)
    = Ok (rewards', positions')
    ∧ value <$> rewards'
      = nested_sums add (take (S m) (value <$> rewards))
        ++ drop (S m) (value <$> rewards)
    ∧ length <$> positions' = length <$> positions.
Proof.
  revert rewards positions.
  induction m as [|m IH]; intros rewards positions Hm.
  - simpl. eexists _, _. split; [done|]. split; [|done].
    destruct rewards as [|r rewards]; simpl; [done|]. by rewrite drop_0.
  - rewrite seq_S, reverse_snoc, foldR_cons. change (1 + m) with (S m).
    destruct (lookup_lt_is_Some_2 rewards m) as [target Ht]; [lia|].
    destruct (lookup_lt_is_Some_2 rewards (S m)) as [addend Ha]; [lia|].
    destruct (rounded_iadd_run rewards positions (S m) target addend)
      as (rewards1 & positions1 & -> & Hv1 & Hp1); [|done|].
    { by replace (S m - 1) with m by lia. }
    rewrite bind_Ok.
    assert (length rewards1 = length rewards) as Hl1.
    { rewrite <- (length_fmap value rewards1), Hv1, length_insert.
      apply length_fmap. }
    destruct (IH rewards1 positions1) as (rewards' & positions' & -> & Hv & Hp);
      [lia|].
    eexists _, _. split; [done|]. split; [|congruence].
    rewrite Hv, Hv1. replace (S m - 1) with m by lia.
    set (V := value <$> rewards).
    assert (V !! m = Some (value target)) as HVt.
    { unfold V. by rewrite list_lookup_fmap, Ht. }
    assert (V !! S m = Some (value addend)) as HVa.
    { unfold V. by rewrite list_lookup_fmap, Ha. }
    rewrite take_insert_lt, drop_insert_lt by lia.
    rewrite (take_S_r V (S m) _ HVa), (take_S_r V m _ HVt).
    rewrite insert_app_r_alt by (rewrite length_take; lia).
    replace (m - length (take m V)) with 0
      by (rewrite length_take; apply lookup_lt_Some in HVt; lia).
    simpl. rewrite <- (app_assoc (take m V)). simpl.
    rewrite nested_sums_snoc2, <- app_assoc. simpl.
    by rewrite (drop_S V _ (S m) HVa).
Qed.

Lemma rounded_scan_post self_n rewards positions :
  length rewards + 1 = self_n →
  ∃ rewards' positions',
    Rounded.scan add self_n (rewards, positions) = Ok (rewards', positions')
    ∧ value <$> rewards' = nested_sums add (value <$> rewards)
    ∧ length <$> positions' = length <$> positions.
Proof.
  intros Hn. unfold Rounded.scan, Agent.countdown.
  destruct (rounded_scan_run (self_n - 2) rewards positions)
    as (rewards' & positions' & Hrun & Hv & Hp); [lia|].
  exists rewards', positions'. split; [done|]. split; [|done].
  rewrite Hv, take_ge, drop_ge by (rewrite length_fmap; lia).
  by rewrite app_nil_r.
Qed.

End NestedScan.

Lemma nested_exact x l : nested Z.add x l = (x + sumZ l)%Z.
Proof.
  revert x. induction l as [|y l IH]; intros x; simpl; [lia|].
  by rewrite IH.
Qed.

Lemma nested_sums_exact l : nested_sums Z.add l = trailing l.
Proof.
  induction l as [|x l IH]; simpl; [done|]. by rewrite IH, nested_exact.
Qed.

(** C4, as amended: over the addition of the machine, of which nothing is
    assumed, the scan of [fine_tune] run on a list of [n - 1] rewards
    leaves at every index [i] the sum of the old rewards from [i] to the
    end nested from the right, [r_i + (r_(i+1) + (... + r_last))], and the
    last reward as it was; [[a, b, c]] becomes [[a+(b+c), b+c, c]].  With
    the exact addition these are the trailing sums [[a+b+c, b+c, c]] of
    the claim. *)
Theorem scan_gives_nested_sums :
  (∀ add self_n rewards positions,
     length rewards + 1 = self_n →
     ∃ rewards' positions',
       Rounded.scan add self_n (rewards, positions) = Ok (rewards', positions')
       ∧ length rewards' = length rewards
       ∧ (∀ i x rest,
            drop i (value <$> rewards) = x :: rest →
            (value <$> rewards') !! i = Some (nested add x rest))
       ∧ last (value <$> rewards') = last (value <$> rewards))
  ∧ (∀ add a b c va vb vc positions,
       ∃ rewards' positions',
         Rounded.scan add 4 ([{| value := a; view := va |};
                              {| value := b; view := vb |};
                              {| value := c; view := vc |}], positions)
         = Ok (rewards', positions')
         ∧ value <$> rewards' = [add a (add b c); add b c; c])
  ∧ (∀ a b c va vb vc positions,
       ∃ rewards' positions',
         Rounded.scan Z.add 4 ([{| value := a; view := va |};
                                {| value := b; view := vb |};
                                {| value := c; view := vc |}], positions)
         = Ok (rewards', positions')
         ∧ value <$> rewards' = [(a + b + c)%Z; (b + c)%Z; c])
  ∧ (∀ x l, nested Z.add x l = (x + sumZ l)%Z).
Proof.
  split; [|split; [|split]].
  - intros add self_n rewards positions Hn.
    destruct (rounded_scan_post add self_n rewards positions Hn)
      as (rewards' & positions' & Hscan & Hv & _).
    exists rewards', positions'. split; [done|].
    assert (length rewards' = length rewards) as Hlen.
    { by rewrite <- (length_fmap value rewards'), Hv, nested_sums_length,
        length_fmap. }
    split; [done|]. rewrite Hv. split; [|apply nested_sums_last].
    intros i x rest Hdrop. by apply nested_sums_lookup.
  - intros add a b c va vb vc positions.
    destruct (rounded_scan_post add 4 [{| value := a; view := va |};
                                       {| value := b; view := vb |};
                                       {| value := c; view := vc |}]
                positions eq_refl)
      as (rewards' & positions' & Hscan & Hv & _).
    by exists rewards', positions'.
  - intros a b c va vb vc positions.
    destruct (rounded_scan_post Z.add 4 [{| value := a; view := va |};
                                         {| value := b; view := vb |};
                                         {| value := c; view := vc |}]
                positions eq_refl)
      as (rewards' & positions' & Hscan & Hv & _).
    exists rewards', positions'. split; [done|]. rewrite Hv. simpl.
    by rewrite Z.add_assoc.
  - apply nested_exact.
Qed.

Lemma scan_gives_nested_sums_witness :
  ∃ rewards' positions',
    Rounded.scan add_single 4
      ([{| value := 1; view := None |};
        {| value := 16777216; view := None |};
        {| value := -16777216; view := None |}], [])
    = Ok (rewards', positions')
    ∧ length rewards' = 3
    ∧ (∀ i x rest,
         drop i [1; 16777216; -16777216]%Z = x :: rest →
         (value <$> rewards') !! i = Some (nested add_single x rest))
    ∧ last (value <$> rewards') = Some (-16777216)%Z.
Proof.
  apply (proj1 scan_gives_nested_sums add_single 4
           [{| value := 1; view := None |};
            {| value := 16777216; view := None |};
            {| value := -16777216; view := None |}] []).
  reflexivity.
Defined.

(** C4, as stated, fails in single precision.  On the rewards
    [[16777216, 1]] the scan leaves [16777216] at index 0, not the sum
    [16777217] of the old rewards from index 0 to the last; on
    [[1, 16777216, -16777216]] it leaves [1 + (16777216 + -16777216) = 1]
    at index 0, where [1 + 16777216 + -16777216], added from the left as
    written, is [0] in single precision. *)
Lemma scan_rounds :
  ¬ (∃ rewards' positions',
       Rounded.scan add_single 3
         ([{| value := 16777216; view := None |};
           {| value := 1; view := None |}], [])
       = Ok (rewards', positions')
       ∧ (value <$> rewards') !! 0 = Some (sumZ [16777216; 1]%Z))
  ∧ Rounded.scan add_single 3
      ([{| value := 16777216; view := None |};
        {| value := 1; view := None |}], [])
    = Ok ([{| value := 16777216; view := None |};
           {| value := 1; view := None |}], [])
  ∧ Rounded.scan add_single 4
      ([{| value := 1; view := None |};
        {| value := 16777216; view := None |};
        {| value := -16777216; view := None |}], [])
    = Ok ([{| value := 1; view := None |};
           {| value := 0; view := None |};
           {| value := -16777216; view := None |}], [])
  ∧ add_single (add_single 1 16777216) (-16777216) = 0%Z.
Proof.
  split; [|by vm_compute].
  intros (rewards' & positions' & Hscan & Hv). vm_compute in Hscan.
  injection Hscan as <- <-. by vm_compute in Hv.
Qed.

(** ** Loading *)

(** C5: for every requested size above 2, whatever the checkpoints hold,
    [Agent.load] raises [NameError]: the first turn of its loop looks up
    [self], which is bound nowhere in a class method. *)
Theorem load_raises_name_error checkpoint k save_prefix :
  Agent.load checkpoint (3 + k) save_prefix = Raise NameError.
Proof.
  unfold Agent.load. replace (3 + k - 2) with (S k) by lia.
  simpl seq. by rewrite foldR_cons.
Qed.

(** For a requested size of at most 2 the loop does not run and the agent
    is the default one. *)
Lemma load_small checkpoint n_requested save_prefix :
  n_requested ≤ 2 →
  Agent.load checkpoint n_requested save_prefix = Ok Agent.init_default.
Proof.
  intros Hn. unfold Agent.load.
  by replace (n_requested - 2) with 0 by lia.
Qed.

(** * Further properties of the evaluator and the rollout *)

(** ** The evaluation over machine numbers *)

Section RoundedLookahead.
Variable plus : Z → Z → Z.
Variable answer : Estimator → Tensor → Result (option Z).
Variables (s : nat) (cost : Tensor) (e : Estimator).
Variable worth : nat * nat → Z.
Hypothesis Hcubic : cubic s cost = true.
Hypothesis Hs : 2 ≤ s.
Hypothesis Hworth : ∀ j k, j < s → k < s →
  Rounded.score plus answer e cost j k = Ok (worth (j, k)).

Lemma rounded_consider_run best j k m :
  Agent.value_networks (Agent.self m) !! (s - 1) = Some e → j < s → k < s →
  Rounded.consider plus answer cost s best (j, k) m
  = (Ok (pick worth best (j, k)), logged m (lookahead s cost [(j, k)])).
Proof.
  intros Htable Hj Hk. destruct best as [best_pos best_reward].
  pose proof (Hworth j k Hj Hk) as Hc.
  unfold pick; simpl.
  revert Hc. unfold Rounded.score, Rounded.consider, Rounded.invoke.
  cbv [mbind Agent.M_bind Agent.lift Agent.get_self Agent.record_call].
  rewrite (eliminate_strike s cost j k Hcubic Hj Hk).
  destruct (index3 cost 0 j k) as [r|]; [|done]. simpl.
  assert (resolve_index (length (Agent.value_networks (Agent.self m)))
            (Z.of_nat s - 1) = Ok (s - 1)) as ->.
  { apply lookup_lt_Some in Htable. unfold resolve_index.
    destruct (Z.leb_spec 0 (Z.of_nat s - 1)); [|lia].
    destruct (Z.ltb_spec (Z.of_nat s - 1)
                (Z.of_nat (length (Agent.value_networks (Agent.self m)))));
      [|lia].
    f_equal. lia. }
  unfold getitem_nat. rewrite Htable.
  destruct (answer e (strike cost j k)) as [[v|]|]; simpl; try done.
  intros [= <-]. by destruct (_ <? _)%Z.
Qed.

Lemma rounded_lookahead_run ps best m :
  Agent.value_networks (Agent.self m) !! (s - 1) = Some e →
  Forall (λ jk, jk.1 < s ∧ jk.2 < s) ps →
  Agent.foldM (Rounded.consider plus answer cost s) ps best m
  = (Ok (foldl (pick worth) best ps), logged m (lookahead s cost ps)).
Proof.
  intros Htable Hps. revert best m Htable.
  induction Hps as [|[j k] ps [Hj Hk] _ IH]; intros best m Htable; simpl.
  - unfold mret, Agent.M_ret, logged, lookahead; simpl. rewrite app_nil_r.
    by destruct m.
  - unfold mbind, Agent.M_bind. rewrite rounded_consider_run by done.
    rewrite IH by done. unfold logged, lookahead; simpl.
    by rewrite <- app_assoc.
Qed.

Lemma rounded_evaluate_position_run return_best_move m :
  Agent.value_networks (Agent.self m) !! (s - 1) = Some e →
  Rounded.evaluate_position plus answer cost return_best_move m
  = (Ok (let best := foldl (pick worth) (None, (-1)%Z) (product s) in
         if return_best_move then Pair best.2 best.1 else Scalar best.2),
     logged m (lookahead s cost (product s))).
Proof.
  intros Htable. unfold Rounded.evaluate_position.
  pose proof Hcubic as Hc. apply cubic_spec in Hc as [Hlen _]. rewrite Hlen.
  destruct (Nat.eqb_spec s 1) as [->|_]; [lia|].
  unfold mbind, Agent.M_bind.
  rewrite rounded_lookahead_run by (done || apply product_range).
  destruct (foldl _ _ _) as [best_pos best_reward]; simpl.
  by destruct return_best_move.
Qed.

(** X1: on a cubic state of size [s >= 2] whose size-[s - 1] estimator is
    in the table and answers with a number on every struck-out state, the
    worth of a pair being the sum of its entry and of that answer as the
    machine adds them (nothing is assumed of the addition or of the
    answers), [evaluate_position] returns the greater of [-1] and the best
    worth of any pair; the move is [None] exactly when that value is [-1]
    left from the start, and otherwise the first pair of the enumeration
    worth the value returned. *)
Theorem evaluate_position_running_best m :
  Agent.value_networks (Agent.self m) !! (s - 1) = Some e →
  ∃ v best_pos,
    fst (Rounded.evaluate_position plus answer cost true m)
    = Ok (Pair v best_pos)
    ∧ fst (Rounded.evaluate_position plus answer cost false m)
      = Ok (Scalar v)
    ∧ (-1 ≤ v)%Z
    ∧ (∀ j k, j < s → k < s → (worth (j, k) ≤ v)%Z)
    ∧ match best_pos with
      | None => v = (-1)%Z
      | Some (j, k) =>
          j < s ∧ k < s ∧ worth (j, k) = v ∧ (-1 < v)%Z
          ∧ ∀ j' k', j' < s → k' < s → worth (j', k') = v →
              (j', k') = (j, k) ∨ before (j, k) (j', k')
      end.
Proof.
  intros Htable. rewrite !rounded_evaluate_position_run by done. simpl.
  destruct (pick_fold worth (product s) (None, (-1)%Z))
    as (Hlow & Hall & Hbest). simpl in *.
  eexists _, _. split; [done|]. split; [done|]. split; [done|]. split.
  { intros j k Hj Hk. by apply Hall, product_in. }
  destruct Hbest as [->|(ps1 & [j k] & ps2 & Hsplit & -> & Hgt & Hfirst)];
    [done|]. simpl in *.
  assert ((j, k) ∈ product s) as [Hj Hk]%product_in.
  { rewrite Hsplit. apply elem_of_app. right. by left. }
  repeat split; try done.
  intros j' k' Hj' Hk' Hc.
  assert ((j', k') ∈ product s) as Hin' by by apply product_in.
  destruct (product_split _ _ _ _ _ Hsplit Hin') as [Hq|[Hq|Hq]]; auto.
  apply Hfirst in Hq. lia.
Qed.

End RoundedLookahead.

Lemma evaluate_position_running_best_witness :
  let cost := [[[1152921504606846976; 1152921504606846976]; [0; 0]];
               [[0; 0]; [1; 0]]]%Z in
  let worth := λ jk : nat * nat,
    match Rounded.score add_double call (ClassicalValueEstimator 1) cost
            jk.1 jk.2 with
    | Ok c => c
    | Raise _ => 0%Z
    end in
  ∃ v best_pos,
    fst (Rounded.evaluate_position add_double call cost true
           (fresh Agent.init_default)) = Ok (Pair v best_pos)
    ∧ fst (Rounded.evaluate_position add_double call cost false
             (fresh Agent.init_default)) = Ok (Scalar v)
    ∧ (-1 ≤ v)%Z
    ∧ (∀ j k, j < 2 → k < 2 → (worth (j, k) ≤ v)%Z)
    ∧ match best_pos with
      | None => v = (-1)%Z
      | Some (j, k) =>
          j < 2 ∧ k < 2 ∧ worth (j, k) = v ∧ (-1 < v)%Z
          ∧ ∀ j' k', j' < 2 → k' < 2 → worth (j', k') = v →
              (j', k') = (j, k) ∨ before (j, k) (j', k')
      end.
Proof.
  intros cost worth.
  apply (evaluate_position_running_best add_double call 2 cost
           (ClassicalValueEstimator 1) worth).
  - reflexivity.
  - lia.
  - intros [|[|j]] [|[|k]] Hj Hk; try lia; by vm_compute.
  - reflexivity.
Defined.

(** In double precision the pairs [(0, 0)] and [(0, 1)] of that state are
    both worth [2 ^ 60], the second because [2 ^ 60 + 1] rounds to it, and
    the first is kept; at the exact addition, where the definitions of
    [Rounded] are those of [Agent], the second is worth more and wins. *)
Example evaluate_position_rounds :
  fst (Rounded.evaluate_position add_double call
         [[[1152921504606846976; 1152921504606846976]; [0; 0]];
          [[0; 0]; [1; 0]]]%Z true (fresh Agent.init_default))
  = Ok (Pair 1152921504606846976 (Some (0, 0)))
  ∧ fst (Agent.evaluate_position
           [[[1152921504606846976; 1152921504606846976]; [0; 0]];
            [[0; 0]; [1; 0]]]%Z true (fresh Agent.init_default))
    = Ok (Pair 1152921504606846977 (Some (0, 1))).
Proof. by vm_compute. Qed.

Lemma rounded_exact :
  Rounded.evaluate_position Z.add call = Agent.evaluate_position
  ∧ Rounded.get_rewards Z.add call = Agent.get_rewards
  ∧ Rounded.act Z.add Z.add call = Agent.act
  ∧ Rounded.scan Z.add = Agent.scan.
Proof. repeat split. Qed.

(** ** Rollouts over machine numbers *)

Section RoundedRollout.
Variable plus : Z → Z → Z.
Variable add : Z → Z → Z.
Variable answer : Estimator → Tensor → Result (option Z).
Hypothesis Hplus : ∀ x y, (0 ≤ x)%Z → (-1 < y)%Z → (-1 < plus x y)%Z.

Lemma rounded_worth s cost e :
  cubic s cost = true → 2 ≤ s → nonneg cost →
  (∀ t, cubic (s - 1) t = true → nonneg t →
     ∃ v, answer e t = Ok (Some v) ∧ (-1 < v)%Z) →
  ∃ worth : nat * nat → Z,
    (∀ j k, j < s → k < s →
       Rounded.score plus answer e cost j k = Ok (worth (j, k)))
    ∧ ∀ j k, j < s → k < s → (-1 < worth (j, k))%Z.
Proof.
  intros Hcubic Hs Hn Hanswer.
  exists (λ jk, match Rounded.score plus answer e cost jk.1 jk.2 with
                | Ok c => c
                | Raise _ => 0%Z
                end).
  assert (∀ j k, j < s → k < s →
            ∃ c, Rounded.score plus answer e cost j k = Ok c ∧ (-1 < c)%Z)
    as Hscore.
  { intros j k Hj Hk. unfold Rounded.score.
    destruct (index3_cubic s cost 0 j k Hcubic) as [r Hr]; [lia|done..|].
    rewrite Hr. simpl.
    destruct (Hanswer (strike cost j k)) as (v & -> & Hv).
    { by apply cubic_strike. }
    { by apply nonneg_strike. }
    simpl. eexists. split; [done|]. apply Hplus; [|done].
    by eapply nonneg_index3. }
  split; intros j k Hj Hk; simpl;
    by destruct (Hscore j k Hj Hk) as (c & -> & Hc).
Qed.

Lemma rounded_evaluate_position_move s cost e m :
  cubic s cost = true → 2 ≤ s → nonneg cost →
  Agent.value_networks (Agent.self m) !! (s - 1) = Some e →
  (∀ t, cubic (s - 1) t = true → nonneg t →
     ∃ v, answer e t = Ok (Some v) ∧ (-1 < v)%Z) →
  ∃ v j k,
    Rounded.evaluate_position plus answer cost true m
    = (Ok (Pair v (Some (j, k))), logged m (lookahead s cost (product s)))
    ∧ j < s ∧ k < s.
Proof.
  intros Hcubic Hs Hn Htable Hanswer.
  destruct (rounded_worth s cost e Hcubic Hs Hn Hanswer)
    as (worth & Hworth & Habove).
  rewrite (rounded_evaluate_position_run plus answer s cost e worth) by done.
  simpl.
  destruct (pick_fold worth (product s) (None, (-1)%Z))
    as (_ & Hall & Hbest). simpl in *.
  destruct Hbest as [Heq|(ps1 & [j k] & ps2 & Hsplit & Heq & _)].
  - assert ((0, 0) ∈ product s) as Hin by (apply product_in; lia).
    pose proof (Hall _ Hin) as Hle. rewrite Heq in Hle. simpl in Hle.
    pose proof (Habove 0 0) as Hgt. lia.
  - rewrite Heq. simpl. exists (worth (j, k)), j, k. split; [done|].
    apply product_in. rewrite Hsplit. apply elem_of_app. right. by left.
Qed.

Lemma rounded_get_rewards_loop_total fuel return_positions s cost rewards
    positions m :
  cubic s cost = true → 1 ≤ s → s ≤ fuel → nonneg cost →
  answers_above answer (Agent.value_networks (Agent.self m)) s →
  ∃ st m',
    Rounded.get_rewards_loop plus answer fuel return_positions cost rewards
      positions m = (Ok st, m')
    ∧ cubic 1 st.1.1 = true
    ∧ length st.1.2 = length rewards + (s - 1).
Proof.
  revert s cost rewards positions m.
  induction fuel as [|fuel IH];
    intros s cost rewards positions m Hcubic Hs Hfuel Hn Hcov; [lia|].
  simpl. pose proof Hcubic as [Hlen _]%cubic_spec. rewrite Hlen.
  destruct (Nat.ltb_spec 1 s) as [Hs2|Hs1].
  2:{ eexists _, _. split; [done|]. simpl.
      split; [by replace 1 with s by lia|lia]. }
  destruct (Hcov (s - 1)) as (e & Htable & Hanswer); [lia|].
  destruct (rounded_evaluate_position_move s cost e m)
    as (v & j & k & Hev & Hj & Hk); try done.
  unfold mbind at 1, Agent.M_bind at 1. rewrite Hev. simpl.
  destruct (index3_cubic s cost 0 j k Hcubic) as [r Hr]; [lia|done..|].
  cbv [mbind Agent.M_bind Agent.lift].
  rewrite Hr, (eliminate_strike s cost j k) by done.
  destruct (IH (s - 1) (strike cost j k)
              (rewards ++
                 [{| value := r;
                     view := if return_positions
                             then Some (length positions, j, k) else None |}])
              (if return_positions then positions ++ [cost] else positions)
              (logged m (lookahead s cost (product s))))
    as (st & m' & Hloop & Hone & Hlength);
    [by apply cubic_strike|lia|lia|by apply nonneg_strike| |].
  { intros i Hi. apply Hcov. lia. }
  exists st, m'. split; [exact Hloop|]. split; [done|].
  rewrite Hlength, length_app. simpl. lia.
Qed.

(** X6: on a cubic state of size [s >= 1] without negative entries, when
    the table holds for every size from 1 below [s] an estimator that
    answers above [-1] on the cubic states of that size without negative
    entries, and the sum of a number that is not negative and a number
    above [-1] is above [-1] as the machine adds them, [get_rewards]
    returns [s] rewards and [act] returns them added to [0] from the
    left. *)
Theorem rollout_returns s (cost : Tensor) m :
  cubic s cost = true → 1 ≤ s → nonneg cost →
  answers_above answer (Agent.value_networks (Agent.self m)) s →
  ∃ rewards,
    fst (Rounded.get_rewards plus answer cost false m) = Ok (Rewards rewards)
    ∧ length rewards = s
    ∧ fst (Rounded.act plus add answer cost m)
      = Ok (foldl add 0%Z (value <$> rewards)).
Proof.
  intros Hcubic Hs Hn Hcov.
  pose proof Hcubic as [Hlen _]%cubic_spec.
  destruct (rounded_get_rewards_loop_total (length cost) false s cost [] []
              m) as ([[cost' rewards] positions] & m' & Hloop & Hone & Hl);
    try done; [lia|].
  simpl in Hone, Hl. apply cubic_one in Hone as [x ->].
  assert (Rounded.get_rewards plus answer cost false m
          = (Ok (Rewards (rewards ++ [{| value := x; view := None |}])), m'))
    as Hrun.
  { unfold Rounded.get_rewards. unfold mbind at 1, Agent.M_bind at 1.
    by rewrite Hloop. }
  eexists. split; [by rewrite Hrun|]. split.
  - rewrite length_app. simpl. lia.
  - unfold Rounded.act, mbind, Agent.M_bind. by rewrite Hrun.
Qed.

End RoundedRollout.

Lemma round_to_nonneg p z : (0 ≤ z)%Z → (0 ≤ round_to p z)%Z.
Proof.
  intros Hz. unfold round_to. rewrite Z.abs_eq by done.
  destruct (Z.leb_spec (Z.log2 z - (p - 1)) 0) as [|He]; [done|].
  assert (0 < 2 ^ (Z.log2 z - (p - 1)))%Z as Hq
    by (apply Z.pow_pos_nonneg; lia).
  assert (0 ≤ z / 2 ^ (Z.log2 z - (p - 1)))%Z as Hd
    by (apply Z.div_pos; lia).
  apply Z.mul_nonneg_nonneg; [by apply Z.sgn_nonneg|].
  apply Z.mul_nonneg_nonneg; [|lia].
  repeat destruct (_ <? _)%Z; try lia. destruct (Z.even _); lia.
Qed.

Lemma add_double_above x y :
  (0 ≤ x)%Z → (-1 < y)%Z → (-1 < add_double x y)%Z.
Proof.
  intros Hx Hy. pose proof (round_to_nonneg 53 (x + y)) as H.
  unfold add_double. lia.
Qed.

Lemma rollout_returns_witness :
  ∃ rewards,
    fst (Rounded.get_rewards add_double call
           [[[16777216; 0]; [0; 0]]; [[0; 0]; [0; 1]]]%Z false
           (fresh Agent.init_default)) = Ok (Rewards rewards)
    ∧ length rewards = 2
    ∧ fst (Rounded.act add_double add_single call
             [[[16777216; 0]; [0; 0]]; [[0; 0]; [0; 1]]]%Z
             (fresh Agent.init_default))
      = Ok (foldl add_single 0%Z (value <$> rewards)).
Proof.
  apply (rollout_returns add_double add_single call add_double_above 2).
  - reflexivity.
  - lia.
  - repeat constructor; lia.
  - intros i Hi. assert (i = 1) as -> by lia.
    exists (ClassicalValueEstimator 1). split; [done|]. intros t Ht Hn.
    destruct (call_accepts (ClassicalValueEstimator 1) 1 t eq_refl Ht)
      as [v Hv].
    exists v. split; [done|]. by eapply classical_hopeful.
Defined.

(** In single precision the greedy total of that state is [16777216]: the
    rewards are [16777216] and [1], and their sum rounds. *)
Example act_rounds :
  fst (Rounded.act add_double add_single call
         [[[16777216; 0]; [0; 0]]; [[0; 0]; [0; 1]]]%Z
         (fresh Agent.init_default)) = Ok 16777216%Z
  ∧ fst (Rounded.get_rewards add_double call
           [[[16777216; 0]; [0; 0]]; [[0; 0]; [0; 1]]]%Z false
           (fresh Agent.init_default))
    = Ok (Rewards [{| value := 16777216; view := None |};
                   {| value := 1; view := None |}]).
Proof. by vm_compute. Qed.




Section Evaluator.
Import Agent.

(** X2: the evaluation of a cubic state of size [s >= 2] whose
    size-[s - 1] estimator is in the table invokes the estimator [s * s]
    times, each time the table entry [s - 1], on the states struck out for
    the pairs in the order of the enumeration; the flag [return_best_move]
    changes none of it. *)
Theorem evaluate_position_invocations s (cost : Tensor) e return_best_move m :
  cubic s cost = true → 2 ≤ s →
  value_networks (self m) !! (s - 1) = Some e → accepts e (s - 1) = true →
  ∃ calls,
    snd (evaluate_position cost return_best_move m) = logged m calls
    ∧ calls = (λ jk, {| table_index := s - 1;
                        argument := strike cost jk.1 jk.2 |}) <$> product s
    ∧ length calls = s * s.
Proof.
  intros Hcubic Hs Htable Haccepts.
  rewrite (evaluate_position_run s cost e) by done. simpl.
  eexists. split; [done|]. split; [done|].
  unfold lookahead, product, range.
  by rewrite length_fmap, length_prod, !length_seq.
Qed.

Lemma evaluate_position_invocations_witness :
  ∃ calls,
    snd (evaluate_position sample_cost_2 false (fresh init_default))
    = logged (fresh init_default) calls
    ∧ calls = (λ jk, {| table_index := 2 - 1;
                        argument := strike sample_cost_2 jk.1 jk.2 |})
              <$> product 2
    ∧ length calls = 2 * 2.
Proof.
  apply (evaluate_position_invocations 2 sample_cost_2
           (ClassicalValueEstimator 1) false (fresh init_default));
    [reflexivity | lia | reflexivity | reflexivity].
Defined.

Lemma product_head s : 1 ≤ s → ∃ ps, product s = (0, 0) :: ps.
Proof. destruct s as [|s]; [lia|]. intros _. by eexists. Qed.

(** X3: when the table is too short to hold an entry for size [s - 1], the
    evaluation of a cubic state of size [s >= 2] raises [IndexError] at the
    first pair, before any estimator is invoked; so do the rollout and
    [act]. *)
Theorem evaluate_position_short_table s (cost : Tensor) m :
  cubic s cost = true → 2 ≤ s → length (value_networks (self m)) < s →
  (∀ return_best_move,
     evaluate_position cost return_best_move m = (Raise IndexError, m))
  ∧ (∀ return_positions,
       get_rewards cost return_positions m = (Raise IndexError, m))
  ∧ act cost m = (Raise IndexError, m).
Proof.
  intros Hcubic Hs Hshort.
  pose proof Hcubic as [Hlen _]%cubic_spec.
  assert (∀ rbm, evaluate_position cost rbm m = (Raise IndexError, m)) as Hev.
  { intros rbm. unfold evaluate_position. rewrite Hlen.
    destruct (Nat.eqb_spec s 1) as [->|_]; [lia|].
    destruct (product_head s) as [ps ->]; [lia|]. simpl.
    destruct (index3_cubic s cost 0 0 0 Hcubic) as [r Hr]; [lia..|].
    unfold invoke. cbv [mbind M_bind lift get_self record_call].
    rewrite (eliminate_strike s cost 0 0 Hcubic), Hr by lia. simpl.
    unfold resolve_index.
    destruct (Z.leb_spec 0 (Z.of_nat s - 1)); [|lia].
    by destruct (Z.ltb_spec (Z.of_nat s - 1)
                   (Z.of_nat (length (value_networks (self m))))); [lia|]. }
  assert (∀ rp, get_rewards cost rp m = (Raise IndexError, m)) as Hgr.
  { intros rp. unfold get_rewards. rewrite Hlen.
    destruct s as [|s']; [lia|]. simpl. rewrite Hlen.
    destruct (Nat.ltb_spec 1 (S s')); [|lia].
    unfold mbind, M_bind. by rewrite Hev. }
  split; [done|]. split; [done|].
  unfold act, mbind, M_bind. by rewrite Hgr.
Qed.

Lemma evaluate_position_short_table_witness :
  (∀ return_best_move,
     evaluate_position sample_cost_3 return_best_move (fresh init_default)
     = (Raise IndexError, fresh init_default))
  ∧ (∀ return_positions,
       get_rewards sample_cost_3 return_positions (fresh init_default)
       = (Raise IndexError, fresh init_default))
  ∧ act sample_cost_3 (fresh init_default)
    = (Raise IndexError, fresh init_default).
Proof.
  apply (evaluate_position_short_table 3 sample_cost_3 (fresh init_default));
    [reflexivity | lia | simpl; lia].
Defined.

(** X4: on the empty state [evaluate_position] enumerates nothing and
    returns the initial running best, [-1] and no move, whatever the table;
    [get_rewards] and [act] raise [RuntimeError] (there is no single entry
    to take), and nothing is invoked. *)
Theorem empty_state m :
  evaluate_position [] true m = (Ok (Pair (-1) None), m)
  ∧ evaluate_position [] false m = (Ok (Scalar (-1)), m)
  ∧ (∀ return_positions,
       get_rewards [] return_positions m = (Raise RuntimeError, m))
  ∧ act [] m = (Raise RuntimeError, m).
Proof. repeat split. Qed.

End Evaluator.

(** ** The path of a rollout *)

Section Path.
Import Agent.

Lemma post_any {A} (c : M A) m : post c m (λ _ _, True) (λ _ _, True).
Proof. unfold post. by destruct (c m) as [[a|e] m']. Qed.

Lemma get_rewards_loop_path fuel cost0 cost rewards positions m :
  path_inv cost0 (cost, rewards, positions) →
  post (get_rewards_loop fuel true cost rewards positions) m
    (λ st _, path_inv cost0 st) (λ _ _, True).
Proof.
  revert cost rewards positions m.
  induction fuel as [|fuel IH]; intros cost rewards positions m Hinv; simpl;
    destruct (1 <? length cost); try by apply post_ret.
  { by apply post_lift. }
  apply post_bind. eapply post_mono; [apply post_any| |done].
  intros ev m' _. apply post_bind, post_lift; [|done]. intros [j k] _.
  apply post_bind, post_lift; [|done]. intros r Hr.
  apply post_bind, post_lift; [|done]. intros cost' Hcost'.
  apply IH. destruct Hinv as (Hhead & Hlen & Hsteps).
  split; [|split].
  - rewrite <- app_assoc. destruct positions; simpl in *; done.
  - rewrite !length_app. simpl. lia.
  - intros i p r' Hp Hr'.
    apply lookup_app_Some in Hp as [Hp|[Hge Hp]].
    + pose proof (lookup_lt_Some _ _ _ Hp) as Hi.
      rewrite lookup_app_l in Hr' by lia.
      destruct (Hsteps i p r' Hp Hr') as (j' & k' & p' & ? & ? & ? & Hnext).
      exists j', k', p'. repeat split; try done.
      rewrite <- app_assoc. rewrite lookup_app_Some in Hnext |- *.
      destruct Hnext as [Hnext|[Hge Hnext]]; [by left|right].
      split; [done|]. apply list_lookup_singleton_Some in Hnext as [-> ->].
      by replace (S i - length positions) with 0 by lia.
    + apply list_lookup_singleton_Some in Hp as [Hi <-].
      assert (i = length positions) as -> by lia.
      rewrite lookup_app_r, Hlen, Nat.sub_diag in Hr' by lia.
      injection Hr' as <-. simpl.
      exists j, k, cost'. repeat split; try done.
      rewrite lookup_app_r by (rewrite length_app; simpl; lia).
      rewrite length_app. simpl.
      by replace (S (length positions) - (length positions + 1)) with 0 by lia.
Qed.

(** X5: whenever [get_rewards] with [return_positions=True] returns, its
    positions and rewards form the path of a rollout: as many of each as the
    state has blocks, position [i] of size [shape[0] - i], starting at the
    state itself, each next position the elimination of the one before at
    the move whose entry is the reward, and the last reward the single entry
    of the last position. *)
Theorem get_rewards_path (cost : Tensor) m rewards positions :
  fst (get_rewards cost true m) = Ok (RewardsPositions rewards positions) →
  rollout_path cost rewards positions
  ∧ length positions = length cost
  ∧ ∀ i p, positions !! i = Some p → length p + i = length cost.
Proof.
  intros Hrun. split.
  - assert (path_inv cost (cost, [], [])) as Hinit.
    { repeat split; try done. }
    pose proof (get_rewards_loop_path (length cost) cost cost [] [] m Hinit)
      as Hloop.
    revert Hrun. unfold get_rewards, mbind at 1, M_bind at 1.
    unfold post in Hloop.
    destruct (get_rewards_loop _ _ _ _ _ _) as [[[[cost' rs] ps]|e] m'];
      simpl; [|done].
    destruct Hloop as (Hhead & Hlen & Hsteps).
    cbv [mbind M_bind lift]. destruct (item cost') as [v|] eqn:Hv; [|done].
    simpl. intros [= <- <-]. split; [done|]. split.
    { rewrite !length_app. simpl. lia. }
    intros i p r Hp Hr.
    apply lookup_app_Some in Hp as [Hp|[Hge Hp]].
    + pose proof (lookup_lt_Some _ _ _ Hp) as Hi.
      rewrite lookup_app_l in Hr by lia.
      destruct (Hsteps i p r Hp Hr) as (j & k & p' & ? & ? & ? & ->).
      by exists j, k.
    + apply list_lookup_singleton_Some in Hp as [Hi <-].
      assert (i = length ps) as -> by lia.
      rewrite lookup_app_r, Hlen, Nat.sub_diag in Hr by lia.
      injection Hr as <-. simpl.
      rewrite lookup_ge_None_2 by (rewrite length_app; simpl; lia). done.
  - apply get_rewards_length in Hrun. by destruct Hrun as (_ & _ & ? & ?).
Qed.

Lemma get_rewards_path_witness :
  rollout_path sample_cost_3
    [{| value := 5; view := Some (0, 1, 1) |};
     {| value := 9; view := Some (1, 0, 0) |};
     {| value := 9; view := None |}]
    [sample_cost_3; [[[9; 7]; [3; 1]]; [[2; 6]; [5; 9]]]%Z; [[[9%Z]]]]
  ∧ length [sample_cost_3; [[[9; 7]; [3; 1]]; [[2; 6]; [5; 9]]]%Z; [[[9%Z]]]]
    = length sample_cost_3
  ∧ ∀ i p,
      [sample_cost_3; [[[9; 7]; [3; 1]]; [[2; 6]; [5; 9]]]%Z; [[[9%Z]]]] !! i
      = Some p →
      length p + i = length sample_cost_3.
Proof.
  apply (get_rewards_path sample_cost_3 (fresh sample_agent_3)).
  vm_compute. reflexivity.
Defined.

End Path.

(** ** Rollouts that return *)

Section Returns.
Import Agent.

Lemma get_rewards_loop_flag fuel cost rewards1 positions1 rewards2 m :
  value <$> rewards1 = value <$> rewards2 →
  match get_rewards_loop fuel true cost rewards1 positions1 m,
        get_rewards_loop fuel false cost rewards2 [] m with
  | (Ok (c1, r1, _), m1), (Ok (c2, r2, p2), m2) =>
      c1 = c2 ∧ value <$> r1 = value <$> r2 ∧ p2 = [] ∧ m1 = m2
  | (Raise e1, m1), (Raise e2, m2) => e1 = e2 ∧ m1 = m2
  | _, _ => False
  end.
Proof.
  revert cost rewards1 positions1 rewards2 m.
  induction fuel as [|fuel IH]; intros cost rewards1 positions1 rewards2 m Hv;
    simpl; destruct (1 <? length cost); try done.
  cbv [mbind M_bind lift].
  destruct (evaluate_position cost true m) as [[ev|e] m']; [|done].
  destruct (unpack_move ev) as [[j k]|]; [|done].
  destruct (index3 cost 0 j k) as [r|]; [|done].
  destruct (eliminate cost j k) as [cost'|]; [|done].
  apply IH. by rewrite !fmap_app, Hv.
Qed.

Lemma get_rewards_unfold cost return_positions m :
  get_rewards cost return_positions m
  = match get_rewards_loop (length cost) return_positions cost [] [] m with
    | (Ok (cost', rewards, positions), m') =>
        match item cost' with
        | Ok v =>
            let rewards := rewards ++ [{| value := v; view := None |}] in
            (Ok (if return_positions
                 then RewardsPositions rewards (positions ++ [cost'])
                 else Rewards rewards), m')
        | Raise e => (Raise e, m')
        end
    | (Raise e, m') => (Raise e, m')
    end.
Proof.
  unfold get_rewards, mbind at 1, M_bind at 1.
  destruct (get_rewards_loop _ _ _ _ _ _) as [[[[cost' rs] ps]|e] m']; [|done].
  cbv [mbind M_bind lift]. destruct (item cost'); [|done].
  by destruct return_positions.
Qed.

(** X7: asking [get_rewards] for the positions changes neither the values
    of the rewards, nor the exception raised, nor the invocations made. *)
Theorem get_rewards_flag (cost : Tensor) m :
  snd (get_rewards cost true m) = snd (get_rewards cost false m)
  ∧ match fst (get_rewards cost true m), fst (get_rewards cost false m) with
    | Ok (RewardsPositions rewards1 _), Ok (Rewards rewards2) =>
        value <$> rewards1 = value <$> rewards2
    | Raise e1, Raise e2 => e1 = e2
    | _, _ => False
    end.
Proof.
  pose proof (get_rewards_loop_flag (length cost) cost [] [] [] m eq_refl) as H.
  rewrite !get_rewards_unfold.
  destruct (get_rewards_loop _ true _ _ _ _) as [[[[c1 r1] p1]|e1] m1];
    destruct (get_rewards_loop _ false _ _ _ _) as [[[[c2 r2] p2]|e2] m2];
    try done.
  - destruct H as (-> & Hv & -> & ->).
    destruct (item c2); simpl; [|done]. split; [done|].
    by rewrite !fmap_app, Hv.
  - by destruct H as [-> ->].
Qed.

End Returns.

(** ** A network and the size it was built for *)

Section Shapes.

Lemma has_shape_spec l inputs outputs :
  has_shape l inputs outputs = true ↔
  length (weight l) = outputs
  ∧ Forall (λ w, length w = inputs) (weight l)
  ∧ length (bias l) = outputs.
Proof.
  unfold has_shape. rewrite !andb_true_iff, !Nat.eqb_eq, forallb_forall.
  rewrite Forall_forall. setoid_rewrite <- list_elem_of_In.
  setoid_rewrite Nat.eqb_eq. tauto.
Qed.

Lemma linear_has_shape l inputs outputs x :
  has_shape l inputs outputs = true → length x = inputs →
  ∃ y, linear l x = Ok y ∧ length y = outputs.
Proof.
  intros (Hw & Hrows & Hb)%has_shape_spec Hx.
  destruct (linear_shaped l inputs x) as (y & Hy & Hlen); [|done|].
  { unfold shaped. apply andb_true_iff. split.
    - apply forallb_forall. intros w Hin. apply Nat.eqb_eq.
      rewrite Forall_forall in Hrows. by apply Hrows, list_elem_of_In.
    - apply Nat.eqb_eq. lia. }
  exists y. split; [done|lia].
Qed.

Lemma linear_mismatch l inputs outputs x :
  has_shape l inputs outputs = true → 1 ≤ outputs → length x ≠ inputs →
  linear l x = Raise RuntimeError.
Proof.
  intros (Hw & Hrows & Hb)%has_shape_spec Ho Hx. unfold linear.
  destruct (weight l) as [|w ws]; simpl in *; [lia|].
  apply Forall_cons in Hrows as [Hwl _].
  by destruct (Nat.eqb_spec (length w) (length x)); [lia|].
Qed.

(** X9: a network with the shapes [ValueNetwork(n, hidden_1_k, hidden_2_k)]
    is built with ([n] and both factors at least 1) answers on a cubic state
    exactly when the state has size [n]; on a cubic state of any other size
    [forward] raises [RuntimeError]. *)
Theorem network_takes_its_size n hidden_1_k hidden_2_k net m (t : Tensor) :
  built n hidden_1_k hidden_2_k net = true →
  1 ≤ n → 1 ≤ hidden_1_k → 1 ≤ hidden_2_k →
  cubic m t = true →
  ∃ v, forward net t = (if decide (m = n) then Ok v else Raise RuntimeError)
       ∧ call (Network net) t
         = (if decide (m = n) then Ok (Some v) else Raise RuntimeError).
Proof.
  unfold built. rewrite !andb_true_iff.
  intros [[[_ H1] H2] H3] Hn Hk1 Hk2 Hcubic.
  pose proof (features_length m t Hcubic) as Hf. simpl call. unfold forward.
  destruct (decide (m = n)) as [->|Hne].
  - destruct (linear_has_shape _ _ _ _ H1 Hf) as (h1 & -> & L1).
    rewrite bind_Ok.
    destruct (linear_has_shape _ _ _ (relu h1) H2) as (h2 & -> & L2).
    { unfold relu. by rewrite length_fmap. }
    rewrite bind_Ok.
    destruct (linear_has_shape _ _ _ (relu h2) H3) as (out & -> & L3).
    { unfold relu. by rewrite length_fmap. }
    rewrite bind_Ok. destruct out as [|v out]; [done|]. by exists v.
  - exists 0%Z. rewrite (linear_mismatch _ _ _ _ H1); [done| |].
    { assert (1 ≤ n ^ 2) by (simpl; nia). nia. }
    rewrite Hf. intros Heq. apply Nat.pow_inj_l in Heq; [done|lia].
Qed.

Lemma network_takes_its_size_witness :
  (∃ v, forward zero_net_1 [[[5%Z]]]
        = (if decide (1 = 1) then Ok v else Raise RuntimeError)
        ∧ call (Network zero_net_1) [[[5%Z]]]
          = (if decide (1 = 1) then Ok (Some v) else Raise RuntimeError))
  ∧ (∃ v, forward zero_net_1 sample_cost_2
          = (if decide (2 = 1) then Ok v else Raise RuntimeError)
          ∧ call (Network zero_net_1) sample_cost_2
            = (if decide (2 = 1) then Ok (Some v) else Raise RuntimeError)).
Proof.
  split.
  - apply (network_takes_its_size 1 4 8 zero_net_1 1 [[[5%Z]]]);
      [reflexivity | lia | lia | lia | reflexivity].
  - apply (network_takes_its_size 1 4 8 zero_net_1 2 sample_cost_2);
      [reflexivity | lia | lia | lia | reflexivity].
Defined.

End Shapes.

(** ** What the scan does to the recorded positions *)

Section Overwrite.
Variable add : Z → Z → Z.

Lemma rounded_iadd_exact rewards positions i target addend :
  rewards !! (i - 1) = Some target → rewards !! i = Some addend →
  Rounded.iadd add (rewards, positions) i
  = Ok (<[i - 1 := {| value := add (value target) (value addend);
                      view := view target |}]> rewards,
        match view target with
        | Some (p, j, k) =>
            alter (λ pos, set_entry pos 0 j k
                            (add (value target) (value addend)))
              p positions
        | None => positions
        end).
Proof. intros Ht Ha. unfold Rounded.iadd, getitem_nat. by rewrite Ht, Ha. Qed.

Lemma scan_positions m rewards positions :
  m ≤ length rewards - 1 →
  (∀ p r q j k, p < m → rewards !! p = Some r → view r = Some (q, j, k) →
     q = p) →
  ∃ rewards' positions',
    Agent.foldR (Rounded.iadd add) (reverse (seq 1 m)) (rewards, positions)
    = Ok (rewards', positions')
    ∧ (∀ p, m ≤ p →
         rewards' !! p = rewards !! p ∧ positions' !! p = positions !! p)
    ∧ (∀ p, view <$> rewards' !! p = view <$> rewards !! p)
    ∧ (∀ p r', p < m → rewards' !! p = Some r' →
         positions' !! p
         = match view r' with
           | Some (_, j, k) =>
               (λ pos, set_entry pos 0 j k (value r')) <$> positions !! p
           | None => positions !! p
           end).
Proof.
  revert rewards positions.
  induction m as [|m IH]; intros rewards positions Hm Hviews.
  { eexists _, _. split; [done|]. repeat split; try done. lia. }
  rewrite seq_S, reverse_snoc, foldR_cons. change (1 + m) with (S m).
  destruct (lookup_lt_is_Some_2 rewards m) as [target Ht]; [lia|].
  destruct (lookup_lt_is_Some_2 rewards (S m)) as [addend Ha]; [lia|].
  rewrite (rounded_iadd_exact rewards positions (S m) target addend)
    by (by replace (S m - 1) with m by lia).
  replace (S m - 1) with m by lia. rewrite bind_Ok.
  set (r1 := {| value := add (value target) (value addend);
                view := view target |}).
  set (positions1 := match view target with
                     | Some (p, j, k) => _
                     | None => positions
                     end).
  assert (∀ p, p ≠ m → positions1 !! p = positions !! p) as Hother.
  { intros p Hp. unfold positions1.
    destruct (view target) as [[[q j] k]|] eqn:Hview; [|done].
    rewrite (Hviews m target q j k) by (done || lia).
    by apply list_lookup_alter_ne. }
  destruct (IH (<[m := r1]> rewards) positions1)
    as (rewards' & positions' & -> & Hge & Hv & Hlt).
  { rewrite length_insert. lia. }
  { intros p r q j k Hp Hr. rewrite list_lookup_insert_ne in Hr by lia.
    apply Hviews; [lia|done]. }
  exists rewards', positions'. split; [done|]. split; [|split].
  - intros p Hp. destruct (Hge p) as [-> ->]; [lia|].
    rewrite list_lookup_insert_ne by lia. split; [done|]. apply Hother. lia.
  - intros p. rewrite Hv. destruct (decide (p = m)) as [->|Hne].
    + rewrite list_lookup_insert_eq by lia. by rewrite Ht.
    + by rewrite list_lookup_insert_ne.
  - intros p r' Hp Hr'. destruct (decide (p = m)) as [->|Hne].
    + destruct (Hge m) as [Hrm ->]; [lia|].
      rewrite Hr', list_lookup_insert_eq in Hrm by lia.
      injection Hrm as ->. simpl. unfold positions1.
      destruct (view target) as [[[q j] k]|] eqn:Hview; [|done].
      rewrite (Hviews m target q j k) by (done || lia).
      apply list_lookup_alter_eq.
    + rewrite (Hlt p r') by (done || lia). rewrite Hother by done. done.
Qed.

(** X10: given the rewards and positions of a rollout from [cost], the
    scan of [fine_tune] writes through the rewards into the recorded
    positions: every position but the last has its entry [[0, j, k]] at
    the chosen move, which was the reward of its step, replaced by the sum
    of the rewards from that step on, nested from the right in the
    addition of the machine, of which nothing is assumed; the last
    position is left alone. *)
Theorem scan_overwrites_positions (cost : Tensor) rewards positions
    rewards' positions' :
  rollout_path cost rewards positions → length positions = length cost →
  Rounded.scan add (length cost + 1) (rewards, positions)
  = Ok (rewards', positions') →
  (∀ i p, S i < length cost → positions !! i = Some p →
     ∃ j k r,
       rewards !! i = Some r ∧ index3 p 0 j k = Ok (value r)
       ∧ positions' !! i
         = Some (set_entry p 0 j k
                   (nested add (value r) (drop (S i) (value <$> rewards)))))
  ∧ positions' !! (length cost - 1) = positions !! (length cost - 1).
Proof.
  intros (Hhead & Hlen & Hsteps) Hpl Hscan.
  assert (∀ p r q j k, rewards !! p = Some r → view r = Some (q, j, k) →
            q = p) as Hviews.
  { intros p r q j k Hr Hview.
    destruct (lookup_lt_is_Some_2 positions p) as [pos Hpos].
    { apply lookup_lt_Some in Hr. lia. }
    specialize (Hsteps p pos r Hpos Hr).
    destruct (positions !! S p).
    - destruct Hsteps as (? & ? & Hv & _). congruence.
    - destruct Hsteps as [Hv _]. congruence. }
  destruct (scan_positions (length cost - 1) rewards positions)
    as (rs & ps & Hfold & Hge & Hview' & Hlt); [lia|by eauto|].
  destruct (rounded_scan_post add (length cost + 1) rewards positions)
    as (rs2 & ps2 & Hscan2 & Hvalues & _); [lia|].
  unfold Rounded.scan, Agent.countdown in Hscan, Hscan2.
  replace (length cost + 1 - 2) with (length cost - 1) in Hscan, Hscan2 by lia.
  rewrite Hfold in Hscan, Hscan2.
  injection Hscan as <- <-. injection Hscan2 as <- <-.
  split; [|by apply Hge].
  intros i p Hi Hp.
  destruct (lookup_lt_is_Some_2 rewards i) as [r Hr]; [lia|].
  pose proof (Hsteps i p r Hp Hr) as Hstep.
  destruct (lookup_lt_is_Some_2 positions (S i)) as [p' Hp']; [lia|].
  rewrite Hp' in Hstep. destruct Hstep as (j & k & Hview & Hentry & _).
  exists j, k, r. split; [done|]. split; [done|].
  destruct (lookup_lt_is_Some_2 rs i) as [r' Hr'].
  { rewrite <- (length_fmap value rs), Hvalues, nested_sums_length,
      length_fmap. lia. }
  rewrite (Hlt i r') by (done || lia).
  assert (view r' = Some (i, j, k)) as ->.
  { rewrite <- Hview. specialize (Hview' i). rewrite Hr', Hr in Hview'.
    by injection Hview'. }
  rewrite Hp. simpl. do 2 f_equal.
  assert ((value <$> rs) !! i = Some (value r')) as Hvi.
  { by rewrite list_lookup_fmap, Hr'. }
  rewrite Hvalues in Hvi.
  rewrite (nested_sums_lookup add _ i (value r)
             (drop (S i) (value <$> rewards))) in Hvi.
  - by injection Hvi.
  - apply drop_S. by rewrite list_lookup_fmap, Hr.
Qed.

End Overwrite.

Lemma scan_overwrites_positions_witness :
  (∀ i p, S i < length sample_cost_2 →
     [sample_cost_2; [[[8%Z]]]] !! i = Some p →
     ∃ j k r,
       [{| value := 1; view := Some (0, 0, 0) |};
        {| value := 8; view := None |}] !! i = Some r
       ∧ index3 p 0 j k = Ok (value r)
       ∧ [[[[9; 2]; [3; 4]]; [[5; 6]; [7; 8]]]%Z; [[[8%Z]]]] !! i
         = Some (set_entry p 0 j k
                   (nested add_single (value r)
                      (drop (S i)
                         (value <$>
                            [{| value := 1; view := Some (0, 0, 0) |};
                             {| value := 8; view := None |}])))))
  ∧ [[[[9; 2]; [3; 4]]; [[5; 6]; [7; 8]]]%Z; [[[8%Z]]]]
      !! (length sample_cost_2 - 1)
    = [sample_cost_2; [[[8%Z]]]] !! (length sample_cost_2 - 1).
Proof.
  apply (scan_overwrites_positions add_single sample_cost_2
           [{| value := 1; view := Some (0, 0, 0) |};
            {| value := 8; view := None |}]
           [sample_cost_2; [[[8%Z]]]]
           [{| value := 9; view := Some (0, 0, 0) |};
            {| value := 8; view := None |}]).
  - split; [done|]. split; [done|].
    intros [|[|i]] p r Hp Hr; simpl in *; try done.
    + injection Hp as <-. injection Hr as <-. by exists 0, 0.
    + injection Hp as <-. by injection Hr as <-.
  - done.
  - by vm_compute.
Defined.

(** * Construction and training *)

Section TrainingRuns.
Import Training.
Context {A : Type}.
Implicit Types (w : World) (E : Failure → World → Prop).

Lemma after_ret (a : A) w (Q : A → World → Prop) E :
  Q a w → after (mret a) w Q E.
Proof. done. Qed.

Lemma after_bind {B} (c : T B) (f : B → T A) w (Q : A → World → Prop) E :
  after c w (λ b w', after (f b) w' Q E) E → after (c ≫= f) w Q E.
Proof. unfold after, mbind, T_bind. by destruct (c w) as [[b|e] w']. Qed.

Lemma after_mono (c : T A) w (Q Q' : A → World → Prop) E E' :
  after c w Q E → (∀ a w', Q a w' → Q' a w') → (∀ f w', E f w' → E' f w') →
  after c w Q' E'.
Proof. unfold after. destruct (c w) as [[a|e] w']; auto. Qed.

Lemma after_attempt (r : Result A) w (Q : A → World → Prop) E :
  (∀ a, r = Ok a → Q a w) → (∀ e, r = Raise e → E (Python e) w) →
  after (attempt r) w Q E.
Proof. unfold after, attempt. destruct r; auto. Qed.

Lemma after_read (f : World → A) w (Q : A → World → Prop) E :
  Q (f w) w → after (read f) w Q E.
Proof. done. Qed.

Lemma after_call_method (c : Agent.M A) w (Q : A → World → Prop) E :
  post c (machine w) (λ a m', Q a (with_machine m' w))
    (λ e m', E (Python e) (with_machine m' w)) →
  after (call_method c) w Q E.
Proof.
  unfold post, after, call_method. by destruct (c (machine w)) as [[a|e] m'].
Qed.

(** A loop keeps an invariant indexed by the number of turns taken. *)
Lemma after_foldT {X} (body : A → X → T A) (I : nat → A → World → Prop) E
    l acc w k :
  I k acc w →
  (∀ k acc x w, x ∈ l → I k acc w → after (body acc x) w (I (S k)) E) →
  after (foldT body l acc) w (I (k + length l)) E.
Proof.
  revert acc w k. induction l as [|x l IH]; intros acc w k Hacc Hbody; simpl.
  - apply after_ret. by rewrite Nat.add_0_r.
  - apply after_bind. eapply after_mono; [apply Hbody; [left|done]| |done].
    intros acc' w' H'. simpl. replace (k + S (length l)) with (S k + length l)
      by lia.
    apply IH; [done|]. intros ? ? ? ? ?. apply Hbody. by right.
Qed.

End TrainingRuns.

(** ** Relations between worlds *)

Section Relations.
Import Training.
Variable P : Call → Prop.

Lemma grows_refl m : grows P m m.
Proof.
  exists []. split; [|done]. destruct m. unfold logged; simpl.
  by rewrite app_nil_r.
Qed.

Lemma grows_trans m1 m2 m3 : grows P m1 m2 → grows P m2 m3 → grows P m1 m3.
Proof.
  intros (cs1 & -> & H1) (cs2 & -> & H2). exists (cs1 ++ cs2). split.
  - unfold logged; simpl. by rewrite app_assoc.
  - by apply Forall_app.
Qed.

Lemma grows_self m m' : grows P m m' → Agent.self m' = Agent.self m.
Proof. by intros (cs & -> & _). Qed.

Lemma extends_grows m m' :
  (∀ c, sized c → P c) → extends m m' → grows P m m'.
Proof.
  intros HP (cs & -> & Hcs). exists cs. split; [done|].
  eapply Forall_impl; [exact Hcs|done].
Qed.

Lemma since_refl w : since P w w.
Proof. exists []. by rewrite app_nil_r. Qed.

Lemma since_trans w1 w2 w3 : since P w1 w2 → since P w2 w3 → since P w1 w3.
Proof.
  intros (cs1 & H1 & F1) (cs2 & H2 & F2). exists (cs1 ++ cs2). split.
  - by rewrite H2, H1, app_assoc.
  - by apply Forall_app.
Qed.

Lemma grows_since w w' : grows P (machine w) (machine w') → since P w w'.
Proof. intros (cs & H & Hcs). exists cs. by rewrite H. Qed.

Lemma same_kind_refl e : same_kind e e.
Proof. by destruct e. Qed.

Lemma same_kind_trans e1 e2 e3 :
  same_kind e1 e2 → same_kind e2 e3 → same_kind e1 e3.
Proof. destruct e1, e2, e3; simpl; try done. congruence. Qed.

Lemma same_kinds_refl table : Forall2 same_kind table table.
Proof. apply Forall2_same_length_lookup. split; [done|].
  intros i x y Hx Hy. assert (x = y) as -> by congruence.
  apply same_kind_refl. Qed.

Lemma same_kinds_trans t1 t2 t3 :
  Forall2 same_kind t1 t2 → Forall2 same_kind t2 t3 → Forall2 same_kind t1 t3.
Proof.
  intros H12. revert t3. induction H12 as [|x y l k Hxy _ IH]; intros t3 H23.
  - by inversion H23.
  - inversion H23 as [|? z ? k' Hyz Hrest]; subst. constructor.
    + by eapply same_kind_trans.
    + by apply IH.
Qed.

Lemma steady_refl w : steady P w w.
Proof. split; [apply grows_refl|done]. Qed.

Lemma steady_step w0 w w' :
  steady P w0 w → machine w' = machine w → settings w' = settings w →
  files w' = files w → steady P w0 w'.
Proof.
  intros (Hg & Hs0 & Hf0) Hm Hs Hf. unfold steady. rewrite Hm, Hs, Hf.
  by split.
Qed.

Lemma steady_method w0 w m' :
  steady P w0 w → grows P (machine w) m' → steady P w0 (with_machine m' w).
Proof.
  intros (Hg & ? & ?) Hm. split; [|done]. simpl. by eapply grows_trans.
Qed.

Lemma steady_tuned w w' : steady P w w' → tuned P w w'.
Proof.
  intros (Hg & ? & ?). split; [by apply grows_since|].
  unfold self_n, self_value_networks. rewrite (grows_self _ _ Hg).
  repeat split; try done. apply same_kinds_refl.
Qed.

Lemma tuned_refl w : tuned P w w.
Proof. apply steady_tuned, steady_refl. Qed.

Lemma tuned_trans w1 w2 w3 : tuned P w1 w2 → tuned P w2 w3 → tuned P w1 w3.
Proof.
  intros (S1 & E1 & F1 & N1 & K1) (S2 & E2 & F2 & N2 & K2).
  split; [by eapply since_trans|]. repeat split; try congruence.
  by eapply same_kinds_trans.
Qed.

Lemma tuned_step w0 w w' :
  tuned P w0 w → machine w' = machine w → settings w' = settings w →
  files w' = files w → tuned P w0 w'.
Proof.
  intros Ht Hm Hs Hf. eapply tuned_trans; [exact Ht|].
  apply steady_tuned. unfold steady. rewrite Hm. split; [apply grows_refl|done].
Qed.

Lemma tuned_method w0 w m' :
  tuned P w0 w → grows P (machine w) m' → tuned P w0 (with_machine m' w).
Proof.
  intros Ht Hm. eapply tuned_trans; [exact Ht|].
  apply steady_tuned. by split.
Qed.

End Relations.

(** ** The primitives of training *)

Section Primitives.
Import Training.

Lemma after_draw w (Q : nat → World → Prop) E :
  (∀ w', machine w' = machine w → settings w' = settings w →
         files w' = files w → Q (draws w) w') →
  after draw w Q E.
Proof. intros H. by apply H. Qed.

Lemma after_write_file env path content w (Q : unit → World → Prop) E :
  (∀ w', machine w' = machine w → settings w' = settings w →
         files w' = <[path := content]> (files w) → Q tt w') →
  E Unwritable w →
  after (write_file env path content) w Q E.
Proof.
  intros H HE. unfold after, write_file.
  destruct (writable env path); [by apply H|done].
Qed.

Lemma after_numeric {A} (o : option A) w (Q : A → World → Prop) E :
  (∀ a, o = Some a → Q a w) → E BackEnd w → after (numeric o) w Q E.
Proof. intros HQ HE. destruct o as [a|]; [by apply HQ|done]. Qed.

Lemma after_concat_tensors parts w (Q : list Z → World → Prop) E :
  (parts ≠ [] → Q (concat parts) w) → E EmptyConcat w →
  after (concat_tensors parts) w Q E.
Proof. intros HQ HE. destruct parts as [|x parts]; [done|by apply HQ]. Qed.

Lemma after_set_agent a w (Q : unit → World → Prop) E :
  (∀ w', Agent.self (machine w') = a →
         Agent.invoked (machine w') = Agent.invoked (machine w) →
         settings w' = settings w → files w' = files w → Q tt w') →
  after (set_agent a) w Q E.
Proof. intros H. by apply H. Qed.

Lemma after_log env name data w (Q : unit → World → Prop) E :
  (∀ w', machine w' = machine w → settings w' = settings w →
         files w' = logged_to (settings w) name data (files w) → Q tt w') →
  E Unwritable w →
  after (log env name data) w Q E.
Proof.
  intros H HE. unfold log. apply after_bind, after_read.
  unfold logged_to in H. destruct (logs_folder (settings w)).
  - by apply after_write_file.
  - by apply after_ret, H.
Qed.

Lemma after_save_weights env name net w (Q : unit → World → Prop) E :
  (∀ w', machine w' = machine w → settings w' = settings w →
         files w' = saved_to (settings w) name net (files w) → Q tt w') →
  E Unwritable w →
  after (save_weights env name (Network net)) w Q E.
Proof.
  intros H HE. unfold save_weights. apply after_bind, after_read.
  unfold saved_to in H. destruct (weights_folder (settings w)).
  - apply after_bind, after_attempt; [|done]. intros ? [= <-].
    by apply after_write_file.
  - by apply after_ret, H.
Qed.

Lemma after_tensor_of evs w (Q : list Z → World → Prop) E :
  (∀ vs, Q vs w) → (∀ f, E f w) → after (tensor_of evs) w Q E.
Proof.
  intros HQ HE. revert Q HQ. induction evs as [|[v|v pos] evs IH]; intros Q HQ.
  - by apply after_ret.
  - simpl. apply after_bind, IH. intros vs. by apply after_ret.
  - apply HE.
Qed.

End Primitives.

(** ** Pretraining *)

Section Pretraining.
Import Training.
Variable env : Environment.
Variable P : Call → Prop.
Hypothesis HP : ∀ c, sized c → P c.

Lemma evaluate_all_grows costs m :
  post (Agent.forM (λ cost, Agent.evaluate_position cost false) costs) m
    (λ _ m', grows P m m') (λ _ m', grows P m m').
Proof.
  apply (post_forM _ (grows P m)); [apply grows_refl|].
  intros cost m1 _ Hm1. eapply post_mono; [apply evaluate_position_post|..].
  - intros ? m2 H. eapply grows_trans; [done|]. by apply extends_grows.
  - intros e m2 [H _]. eapply grows_trans; [done|]. by apply extends_grows.
Qed.

Lemma pretrain_iteration_steady w0 st w :
  steady P w0 w →
  after (pretrain_iteration env st) w
    (λ st' w', steady P w0 w' ∧ length st'.2 = S (length st.2))
    (λ _ w', steady P w0 w').
Proof.
  intros Hw. destruct st as [[net opt] hist]. unfold pretrain_iteration.
  apply after_bind, after_read. apply after_bind, after_read.
  apply after_bind, after_draw. intros w1 Hm Hs Hf.
  assert (steady P w0 w1) as Hw1 by by eapply steady_step.
  apply after_bind, after_attempt; [|done]. intros preds _.
  apply after_bind, after_call_method.
  eapply post_mono; [apply evaluate_all_grows|..].
  - intros evs m' Hm'. simpl. apply after_bind, after_tensor_of.
    + intros vs. apply after_bind, after_numeric; [|by apply steady_method].
      intros loss _. apply after_ret. split; [by apply steady_method|].
      simpl. rewrite length_app. simpl. lia.
    + intros f. by apply steady_method.
  - intros e m' Hm'. by apply steady_method.
Qed.

Lemma steady_unsaved w w' : steady P w w' → unsaved P w w'.
Proof. intros (Hg & Hs & Hf). split; [done|]. split; [done|by left]. Qed.

Lemma pretrain_new_network_spec w :
  after (pretrain_new_network env) w
    (λ _ w', pretrained P w w') (λ _ w', unsaved P w w').
Proof.
  unfold pretrain_new_network.
  apply after_bind, after_read. apply after_bind, after_draw.
  intros w1 Hm Hs Hf.
  assert (steady P w w1) as Hw1 by (eapply steady_step; [apply steady_refl|done..]).
  apply after_bind, after_read. apply after_bind.
  eapply after_mono;
    [apply (after_foldT _ (λ k st w', steady P w w' ∧ length st.2 = k)
              (λ _ w', steady P w w') _ _ _ 0); [done|]|..].
  - intros k st _ w2 _ [Hw2 <-]. by apply pretrain_iteration_steady.
  - intros [[net opt] losses] w2 [Hw2 Hlen]. simpl in Hlen.
    pose proof Hw2 as (Hg & Hs2 & Hf2).
    rewrite length_seq in Hlen.
    assert (self_n w2 = self_n w) as Hn
      by (unfold self_n; by rewrite (grows_self _ _ _ Hg)).
    assert (self_value_networks w2 = self_value_networks w) as Ht
      by (unfold self_value_networks; by rewrite (grows_self _ _ _ Hg)).
    apply after_bind, after_read.
    apply after_bind, after_log; [|by apply steady_unsaved].
    intros w3 Hm3 Hs3 Hf3.
    assert (unsaved P w w3) as Hw3.
    { split; [by rewrite Hm3|]. split; [congruence|]. right.
      exists losses. split; [by rewrite Hlen, Hs|].
      by rewrite Hf3, Hn, Hs2, Hf2. }
    apply after_bind, after_save_weights; [|done].
    intros w4 Hm4 Hs4 Hf4.
    apply after_bind, after_read. apply after_bind, after_read.
    apply after_set_agent. intros w5 Ha5 Hi5 Hs5 Hf5.
    assert (self_n w4 = self_n w) as Hn4
      by (unfold self_n; by rewrite Hm4, Hm3).
    assert (self_value_networks w4 = self_value_networks w) as Ht4
      by (unfold self_value_networks; by rewrite Hm4, Hm3).
    split; [|split; [congruence|]].
    + destruct Hg as (cs & Hcs & HPcs). exists cs. split; [|done].
      by rewrite Hi5, Hm4, Hm3, Hcs.
    + exists net, losses. repeat split.
      * by rewrite Ha5, Hn4, Ht4.
      * rewrite Hlen, Hs. done.
      * rewrite Hf5, Hf4, Hs3, Hf3, Hn, Hs2, Hf2. done.
  - intros f w2 Hw2. by apply steady_unsaved.
Qed.

End Pretraining.

(** ** Fine-tuning *)

Section Saving.
Import Training.

(** A loop keeps an invariant indexed by the items it has been through. *)
Lemma after_foldT_prefix {A X} (body : A → X → T A)
    (I : list X → A → World → Prop) E l acc w seen :
  I seen acc w →
  (∀ seen acc x w, I seen acc w → after (body acc x) w (I (seen ++ [x])) E) →
  after (foldT body l acc) w (I (seen ++ l)) E.
Proof.
  revert acc w seen. induction l as [|x l IH]; intros acc w seen Hacc Hbody;
    simpl.
  - apply after_ret. by rewrite app_nil_r.
  - apply after_bind. eapply after_mono; [by apply Hbody| |done].
    intros acc' w' H'. simpl. rewrite (cons_middle x), app_assoc. by apply IH.
Qed.

Lemma after_save_weights_any env name e w (Q : unit → World → Prop) E :
  (∀ w', machine w' = machine w → settings w' = settings w →
         files w' = match e with
                    | Network net => saved_to (settings w) name net (files w)
                    | ClassicalValueEstimator _ => files w
                    end → Q tt w') →
  E (Python AttributeError) w → E Unwritable w →
  after (save_weights env name e) w Q E.
Proof.
  intros H HE HU. destruct e as [k|net]; [|by apply after_save_weights].
  unfold save_weights. apply after_bind, after_read.
  destruct (weights_folder (settings w)).
  - apply after_bind, after_attempt; [done|]. by intros ? [= <-].
  - by apply after_ret, H.
Qed.

Lemma saved_all_snoc s table indices i fs :
  saved_all s table (indices ++ [i]) fs
  = match table !! i with
    | Some (Network net) =>
        saved_to s ("finetune-" +:+ pretty i) net (saved_all s table indices fs)
    | _ => saved_all s table indices fs
    end.
Proof. unfold saved_all. by rewrite foldl_app. Qed.

Lemma saved_all_none s table indices fs :
  weights_folder s = None → saved_all s table indices fs = fs.
Proof.
  intros Hs. induction indices as [|i indices IH] using rev_ind; [done|].
  rewrite saved_all_snoc, IH. unfold saved_to. rewrite Hs.
  by destruct (table !! i) as [[|]|].
Qed.

Lemma stepped_same_kinds env optimizer instances preds targets table :
  Forall2 same_kind table
    (take 2 table
     ++ (stepped env optimizer instances preds targets <$> drop 2 table)).
Proof.
  rewrite <- (take_drop 2 table) at 1.
  apply Forall2_app; [apply same_kinds_refl|].
  apply Forall2_fmap_r, Forall_Forall2_diag, Forall_forall.
  intros e _. by destruct e.
Qed.

End Saving.

Section FineTuning.
Import Training.
Variable env : Environment.
Variable P : Call → Prop.
Variable need : nat → Prop.
Hypothesis Hinst : ∀ d m, need (Agent.n (Agent.self m)) →
  post (Agent.fine_tune_instance
          (get_instance env d (Agent.n (Agent.self m) - 1))) m
    (λ _ m', grows P m m') (λ _ m', grows P m m').

Lemma fine_tune_sample_tuned w0 acc x w :
  need (self_n w0) → tuned P w0 w →
  after (fine_tune_sample env acc x) w
    (λ _ w', tuned P w0 w') (λ _ w', tuned P w0 w').
Proof.
  intros Hneed Hw. destruct acc as [[instances all_rewards] all_preds].
  unfold fine_tune_sample.
  apply after_bind, after_read. apply after_bind, after_draw.
  intros w1 Hm Hs Hf.
  assert (tuned P w0 w1) as Hw1 by by eapply tuned_step.
  apply after_bind, after_call_method.
  assert (self_n w = Agent.n (Agent.self (machine w1))) as ->
    by (unfold self_n; by rewrite Hm).
  eapply post_mono; [apply Hinst|..].
  - destruct Hw1 as (_ & _ & _ & Hn & _). unfold self_n in Hn, Hneed.
    by rewrite Hn.
  - intros [rewards preds] m' Hm'. apply after_ret. by apply tuned_method.
  - intros e m' Hm'. by apply tuned_method.
Qed.

Lemma fine_tune_iteration_tuned w0 st x w :
  need (self_n w0) → tuned P w0 w →
  after (fine_tune_iteration env st x) w
    (λ st' w', tuned P w0 w' ∧ length st'.2 = S (length st.2))
    (λ _ w', tuned P w0 w').
Proof.
  intros Hneed Hw. destruct st as [opt hist]. unfold fine_tune_iteration.
  apply after_bind, after_read. apply after_bind.
  eapply after_mono;
    [apply (after_foldT _ (λ _ _ w', tuned P w0 w') (λ _ w', tuned P w0 w')
              _ _ _ 0); [done|]|..].
  - intros k acc i w1 _ Hw1. by apply fine_tune_sample_tuned.
  - intros [[instances all_rewards] all_preds] w1 Hw1. simpl.
    apply after_bind, after_concat_tensors; [|done]. intros _.
    apply after_bind, after_concat_tensors; [|done]. intros _.
    apply after_bind, after_numeric; [|done]. intros loss _.
    apply after_bind, after_read. apply after_bind, after_read.
    apply after_bind, after_set_agent. intros w2 Ha Hi Hs Hf.
    apply after_ret. split; [|simpl; rewrite length_app; simpl; lia].
    eapply tuned_trans; [exact Hw1|].
    split; [exists []; by rewrite app_nil_r, Hi|].
    repeat split; try done.
    + unfold self_n. by rewrite Ha.
    + unfold self_value_networks at 2. rewrite Ha. simpl.
      apply stepped_same_kinds.
  - done.
Qed.

Lemma tuned_kept w w' : tuned P w w' → kept P w w'.
Proof. intros (? & ? & ? & ? & ?). by repeat split. Qed.

Lemma kept_saved w w1 w3 table indices name losses :
  tuned P w w1 → machine w3 = machine w1 → settings w3 = settings w →
  files w3
  = saved_all (settings w) table indices
      (logged_to (settings w) name losses (files w1)) →
  kept P w w3.
Proof.
  intros (Hsince & Hs1 & Hf1 & Hn1 & Hk1) Hm3 Hs3 Hf3.
  unfold kept, since, self_n, self_value_networks in *. rewrite Hm3.
  repeat split; try done.
  intros Hlogs Hweights. rewrite Hf3, saved_all_none by done.
  unfold logged_to. by rewrite Hlogs.
Qed.

Lemma fine_tune_spec w :
  need (self_n w) →
  after (fine_tune env) w (λ _ w', fine_tuned P w w') (λ _ w', kept P w w').
Proof.
  intros Hneed. unfold fine_tune.
  apply after_bind, after_read.
  apply after_bind, after_attempt; [|intros; apply tuned_kept, tuned_refl].
  intros nets _. apply after_bind.
  destruct nets as [|net nets]; [apply tuned_kept, tuned_refl|].
  apply after_ret. apply after_bind, after_read. apply after_bind.
  eapply after_mono;
    [apply (after_foldT _ (λ k st w', tuned P w w' ∧ length st.2 = k)
              (λ _ w', tuned P w w') _ _ _ 0);
       [split; [apply tuned_refl|done]|]|..].
  - intros k st i w1 _ [Hw1 <-]. by apply fine_tune_iteration_tuned.
  - intros [opt losses] w1 [Hw1 Hlen]. simpl in Hlen.
    rewrite length_seq in Hlen.
    apply after_bind, after_log; [|by apply tuned_kept].
    intros w2 Hm2 Hs2 Hf2.
    apply after_bind, after_read.
    pose proof Hw1 as (Hsince & Hs1 & Hf1 & Hn1 & Hk1).
    eapply after_mono;
      [apply (after_foldT_prefix _
                (λ seen _ w',
                   machine w' = machine w1 ∧ settings w' = settings w
                   ∧ files w'
                     = saved_all (settings w) (self_value_networks w1) seen
                         (logged_to (settings w) "loss_finetune" losses
                            (files w1)))
                (λ _ w', kept P w w') _ _ _ [])|..].
    + repeat split; [done|congruence|]. simpl. by rewrite Hf2, Hs1.
    + intros seen [] i w3 (Hm3 & Hs3 & Hf3).
      assert (kept P w w3) as Hkept by by eapply kept_saved.
      apply after_bind, after_read. apply after_bind, after_attempt; [|done].
      intros e He. apply after_save_weights_any; [|done|done].
      intros w4 Hm4 Hs4 Hf4. repeat split; [congruence|congruence|].
      rewrite Hf4, saved_all_snoc. unfold getitem_nat in He.
      unfold self_value_networks in *. rewrite Hm3 in He.
      destruct (Agent.value_networks (Agent.self (machine w1)) !! i)
        as [e'|]; [|done].
      injection He as ->. destruct e; [done|]. by rewrite Hs3, Hf3.
    + intros [] w3 (Hm3 & Hs3 & Hf3). simpl in Hf3.
      unfold fine_tuned, since, self_n, self_value_networks in *.
      rewrite Hm3. repeat split; try done.
      exists losses. split; [done|]. by rewrite Hf3, Hm2, Hn1, Hf1.
    + done.
  - intros f w' H. by apply tuned_kept.
Qed.

End FineTuning.

(** ** File names *)

Section FileNames.

Lemma string_length_app (a b : string) :
  String.length (a +:+ b) = String.length a + String.length b.
Proof. induction a as [|c a IH]; simpl; [done|by rewrite IH]. Qed.

Lemma string_app_inj_r (a b t : string) : a +:+ t = b +:+ t → a = b.
Proof.
  revert b. induction a as [|c a IH]; intros [|c' b] H.
  - done.
  - apply (f_equal String.length) in H.
    rewrite !string_length_app in H. simpl in H. lia.
  - apply (f_equal String.length) in H.
    rewrite !string_length_app in H. simpl in H. lia.
  - change (String c (a +:+ t) = String c' (b +:+ t)) in H.
    injection H as -> H. f_equal. by apply IH.
Qed.

Lemma finetune_path_inj (d : string) (i j : nat) :
  d +:+ "/" +:+ ("finetune-" +:+ pretty i) +:+ ".pt"
  = d +:+ "/" +:+ ("finetune-" +:+ pretty j) +:+ ".pt" → i = j.
Proof.
  intros H. apply (inj (String.append d)), (inj (String.append "/")) in H.
  apply string_app_inj_r, (inj (String.append "finetune-")) in H.
  by apply pretty_nat_inj.
Qed.

Lemma saved_all_lookup s table indices fs d i net :
  weights_folder s = Some d → i ∈ indices →
  table !! i = Some (Network net) →
  saved_all s table indices fs
    !! (d +:+ "/" +:+ ("finetune-" +:+ pretty i) +:+ ".pt")
  = Some (StateDict (linear_1 net) (linear_2 net) (linear_3 net)).
Proof.
  intros Hd Hi Hnet. induction indices as [|j indices IH] using rev_ind.
  { by apply elem_of_nil in Hi. }
  rewrite saved_all_snoc. destruct (decide (i = j)) as [<-|Hij].
  - rewrite Hnet. unfold saved_to. rewrite Hd. by rewrite lookup_insert_eq.
  - apply elem_of_app in Hi as [Hi|Hi%list_elem_of_singleton]; [|done].
    destruct (table !! j) as [[k|net']|]; [by apply IH| |by apply IH].
    unfold saved_to. rewrite Hd, lookup_insert_ne; [by apply IH|].
    intros H. by apply finetune_path_inj in H.
Qed.

End FileNames.

(** ** What training invokes *)

Section Frames.
Import Agent.

Lemma invoke_grows i state m :
  post (invoke i state) m
    (λ _ m', grows (λ _, True) m m') (λ _ m', grows (λ _, True) m m').
Proof.
  unfold invoke.
  apply post_bind, post_get_self, post_bind, post_lift;
    [|intros; apply grows_refl].
  intros idx _. apply post_bind, post_lift; [|intros; apply grows_refl].
  intros e _. apply post_bind, post_record_call.
  apply post_lift; intros ? _; eexists; (split; [done|]); by constructor.
Qed.

Lemma fine_tune_instance_grows cost m :
  post (fine_tune_instance cost) m
    (λ _ m', grows (λ _, True) m m') (λ _ m', grows (λ _, True) m m').
Proof.
  unfold fine_tune_instance. apply post_bind.
  eapply post_mono; [apply get_rewards_post|..].
  - intros [rewards|rewards positions] m1 [Hm1 _]; simpl;
      apply (extends_grows (λ _, True)) in Hm1; try done.
    apply post_bind, post_get_self, post_bind, post_lift; [|done].
    intros [rewards' positions'] _. apply post_bind.
    eapply post_mono;
      [apply (post_forM _ (grows (λ _, True) m)
                (λ _, grows (λ _, True) m)); [done|]|..].
    + intros [i pos] m2 _ Hm2. apply post_bind, post_get_self.
      eapply post_mono; [apply invoke_grows|..].
      * intros out m3 Hm3. by eapply grows_trans.
      * intros e m3 Hm3. by eapply grows_trans.
    + intros outs m2 Hm2. apply post_bind, post_lift; [|done].
      intros preds _. by apply post_ret.
    + done.
  - intros e m1 [Hm1 _]. by apply extends_grows.
Qed.

Lemma fine_tune_instance_sized env d m :
  generator_ok env → 1 ≤ n (self m) →
  post (fine_tune_instance (get_instance env d (n (self m) - 1))) m
    (λ _ m', grows sized m m') (λ _ m', grows sized m m').
Proof.
  intros Hg Hn. eapply post_mono; [apply fine_tune_instance_post|..].
  - rewrite Hg. lia.
  - intros ? m' H. by apply extends_grows.
  - intros ? m' [H _]. by apply extends_grows.
Qed.

End Frames.

(** ** The table of a constructed agent *)

Section Table.
Import Agent.

Lemma table_ok_default : table_ok init_default.
Proof.
  repeat split; try done. intros i e Hi He. apply lookup_lt_Some in He.
  simpl in He. lia.
Qed.

Lemma table_ok_snoc a net :
  table_ok a →
  table_ok {| n := n a + 1;
              value_networks := value_networks a ++ [Network net] |}.
Proof.
  intros (Hlen & Hn & Htake & Hnets). repeat split; simpl.
  - rewrite length_app. simpl. lia.
  - lia.
  - rewrite take_app_le by lia. done.
  - intros i e Hi He. apply lookup_app_Some in He as [He|[_ He]].
    + by eapply Hnets.
    + apply list_lookup_singleton_Some in He as [_ <-]. by eexists.
Qed.

Lemma table_ok_same_kinds a a' :
  table_ok a → n a' = n a →
  Forall2 same_kind (value_networks a) (value_networks a') → table_ok a'.
Proof.
  intros (Hlen & Hn & Htake & Hnets) Hn' Hkinds. repeat split.
  - rewrite <- (Forall2_length _ _ _ Hkinds). congruence.
  - lia.
  - apply (Forall2_take _ _ _ 2) in Hkinds. rewrite Htake in Hkinds.
    inversion Hkinds as [|e0 e0' l0 l0' H0 Hrest]; subst.
    inversion Hrest as [|e1 e1' l1 l1' H1 Hnil]; subst.
    inversion Hnil; subst.
    destruct e0' as [k0|], e1' as [k1|]; simpl in *; try done.
    by subst.
  - intros i e' Hi He'.
    destruct (Forall2_lookup_r _ _ _ _ _ Hkinds He') as (e & He & Hsame).
    destruct (Hnets i e Hi He) as [net ->].
    destruct e' as [k|net']; [done|]. by eexists.
Qed.

Lemma table_ok_network a i net :
  table_ok a → value_networks a !! i = Some (Network net) → 2 ≤ i < n a.
Proof.
  intros (Hlen & Hn & Htake & Hnets) Hi. split.
  - destruct (decide (2 ≤ i)); [done|].
    assert (take 2 (value_networks a) !! i = Some (Network net)) as H
      by (rewrite lookup_take_lt by lia; done).
    rewrite Htake in H. by destruct i as [|[|i]].
  - apply lookup_lt_Some in Hi. lia.
Qed.

Lemma table_ok_lookup a i :
  table_ok a → 2 ≤ i < n a →
  ∃ net, value_networks a !! i = Some (Network net).
Proof.
  intros (Hlen & Hn & Htake & Hnets) Hi.
  destruct (lookup_lt_is_Some_2 (value_networks a) i) as [e He]; [lia|].
  destruct (Hnets i e) as [net ->]; [lia|done|]. by eexists.
Qed.

End Table.

(** ** Construction *)

Section Construction.
Import Training.
Variable env : Environment.
Variable P : Call → Prop.
Variable need : nat → Prop.
Hypothesis HP : ∀ c, sized c → P c.
Hypothesis Hinst : ∀ d m, need (Agent.n (Agent.self m)) →
  post (Agent.fine_tune_instance
          (get_instance env d (Agent.n (Agent.self m) - 1))) m
    (λ _ m', grows P m m') (λ _ m', grows P m m').
Hypothesis Hneed : ∀ k, 2 ≤ k → need k.

Lemma interrupted_refl w : interrupted P w w.
Proof. split; [apply since_refl|done]. Qed.

Lemma interrupted_trans w1 w2 w3 :
  interrupted P w1 w2 → interrupted P w2 w3 → interrupted P w1 w3.
Proof.
  intros (S1 & E1 & F1) (S2 & E2 & F2). split; [by eapply since_trans|].
  split; [congruence|]. intros Hl Hw. rewrite F2, F1; congruence.
Qed.

Lemma unsaved_interrupted w w' : unsaved P w w' → interrupted P w w'.
Proof.
  intros (Hg & Hs & Hf). split; [by apply grows_since|]. split; [done|].
  intros Hl Hw. destruct Hf as [Hf|(losses & _ & Hf)]; [done|].
  rewrite Hf. unfold logged_to. by rewrite Hl.
Qed.

Lemma kept_interrupted w w' : kept P w w' → interrupted P w w'.
Proof. by intros (? & ? & _ & _ & ?). Qed.

Lemma pretrained_interrupted w w' : pretrained P w w' → interrupted P w w'.
Proof.
  intros (Hsince & Hs & net & losses & _ & _ & Hf). repeat split; try done.
  intros Hl Hw. rewrite Hf. unfold saved_to, logged_to. by rewrite Hl, Hw.
Qed.

Lemma fine_tuned_interrupted w w' : fine_tuned P w w' → interrupted P w w'.
Proof.
  intros (Hsince & Hs & _ & _ & losses & _ & Hf). repeat split; try done.
  intros Hl Hw. rewrite Hf, saved_all_none by done. unfold logged_to.
  by rewrite Hl.
Qed.

Lemma pretraining_spec (sizes : list nat) w :
  table_ok (Agent.self (machine w)) →
  after (foldT (λ _ _, pretrain_new_network env) sizes tt) w
    (λ _ w', interrupted P w w' ∧ table_ok (Agent.self (machine w'))
             ∧ self_n w' = self_n w + length sizes)
    (λ _ w', interrupted P w w').
Proof.
  intros Hw.
  eapply after_mono;
    [apply (after_foldT _
              (λ k _ w', interrupted P w w'
                         ∧ table_ok (Agent.self (machine w'))
                         ∧ self_n w' = self_n w + k)
              (λ _ w', interrupted P w w') _ _ _ 0)|..].
  - split; [apply interrupted_refl|]. split; [done|lia].
  - intros k [] _ w1 _ (Hint & Htab & Hn).
    eapply after_mono; [by apply pretrain_new_network_spec|..].
    + intros [] w2 Hpre. split; [|split].
      * eapply interrupted_trans; [done|]. by apply pretrained_interrupted.
      * destruct Hpre as (_ & _ & net & losses & -> & _).
        by apply table_ok_snoc.
      * destruct Hpre as (_ & _ & net & losses & Ha & _).
        unfold self_n in *. rewrite Ha. simpl. lia.
    + intros f w2 Hunsaved. eapply interrupted_trans; [done|].
      by apply unsaved_interrupted.
  - done.
  - done.
Qed.

Lemma init_body_spec n w :
  Agent.self (machine w) = Agent.init_default →
  after (init_body env n) w
    (λ _ w', constructed P n w w') (λ _ w', interrupted P w w').
Proof.
  intros Hself. unfold init_body. apply after_bind.
  eapply after_mono; [apply pretraining_spec|..].
  { rewrite Hself. apply table_ok_default. }
  2: done.
  intros [] w1 ((Hsince & Hs & Hf) & Htab & Hn). rewrite length_seq in Hn.
  unfold self_n in Hn at 2. rewrite Hself in Hn. simpl in Hn.
  destruct (2 <? n) eqn:Hlt.
  - apply Nat.ltb_lt in Hlt.
    eapply after_mono; [apply (fine_tune_spec env P need Hinst)|..].
    + apply Hneed. lia.
    + intros [] w2 Htuned.
      pose proof (fine_tuned_interrupted _ _ Htuned) as (Hsince2 & Hs2 & Hf2).
      destruct Htuned as (_ & _ & Hn2 & Hkinds & losses & _ & Hfiles).
      assert (table_ok (Agent.self (machine w2))) as Htab2
        by by eapply table_ok_same_kinds.
      split; [by eapply since_trans|]. split; [congruence|].
      split; [done|]. split; [lia|]. split.
      * intros Hl Hw. rewrite Hf2, Hf; congruence.
      * intros d i net Hd Hi. rewrite Hfiles.
        apply saved_all_lookup; [congruence| |done].
        apply (table_ok_network _ _ _ Htab2) in Hi.
        apply elem_of_seq. unfold self_n in *. lia.
    + intros f w2 Hkept. eapply interrupted_trans; [done|].
      by apply kept_interrupted.
  - apply Nat.ltb_ge in Hlt. apply after_ret.
    split; [done|]. split; [done|]. split; [done|]. split; [lia|].
    split; [done|]. intros d i net _ Hi.
    apply (table_ok_network _ _ _ Htab) in Hi. unfold self_n in *. lia.
Qed.

End Construction.

(** ** The construction as a whole *)

Section Constructor.
Import Training.

Lemma after_fst_snd {A} (c : T A) w Q E :
  after c w Q E →
  match (c w).1 with
  | Done a => Q a (c w).2
  | Failed f => E f (c w).2
  end.
Proof. unfold after. by destruct (c w) as [[a|f] w']. Qed.

Lemma init_start env n logs weights hyper_params disk drawn :
  init env n logs weights hyper_params disk drawn
  = init_body env n (start logs weights hyper_params disk drawn).
Proof. done. Qed.

Lemma parameters_ok a :
  table_ok a → 2 < Agent.n a →
  ∃ net nets,
    mapR parameters (drop 2 (Agent.value_networks a)) = Ok (net :: nets).
Proof.
  intros (Hlen & Hn & Htake & Hnets) Hlt.
  assert (∀ l : list Estimator, (∀ e, e ∈ l → ∃ net, e = Network net) →
            ∃ nets, mapR parameters l = Ok nets ∧ length nets = length l)
    as Hall.
  { induction l as [|e l IH]; intros Hl; [by exists []|].
    destruct (Hl e) as [net ->]; [left|].
    destruct IH as (nets & Hnets' & Hlen'); [intros; apply Hl; by right|].
    exists (net :: nets). simpl. rewrite Hnets'. simpl. by rewrite Hlen'. }
  destruct (Hall (drop 2 (Agent.value_networks a))) as (nets & Hok & Hlen').
  { intros e [i Hi]%list_elem_of_lookup. rewrite lookup_drop in Hi.
    apply (Hnets (2 + i)); [lia|done]. }
  rewrite length_drop in Hlen'.
  destruct nets as [|net nets]; simpl in *; [lia|]. by exists net, nets.
Qed.

Lemma init_spec_any env n logs weights hyper_params disk drawn :
  after (init_body env n) (start logs weights hyper_params disk drawn)
    (λ _ w', constructed (λ _, True) n
               (start logs weights hyper_params disk drawn) w')
    (λ _ w', interrupted (λ _, True)
               (start logs weights hyper_params disk drawn) w').
Proof.
  apply (init_body_spec env (λ _, True) (λ _, True)); try done.
  intros d m _. apply fine_tune_instance_grows.
Qed.

(** X12: when [Agent(n, ...)] returns, with [hyper_params] either [None]
    or holding only keys among [num_pretrain_iters], [batch_size],
    [num_finetune_iters] and [finetune_batch_size] with natural numbers as
    values, [self.n] is
    [max(n, 2)] and the table has [self.n] entries: the exact estimators
    for sizes 0 and 1, then learned networks only. *)
Theorem init_constructs env n logs weights hyper_params disk drawn :
  (init env n logs weights hyper_params disk drawn).1 = Done tt →
  table_ok
    (Agent.self (machine (init env n logs weights hyper_params disk drawn).2))
  ∧ self_n (init env n logs weights hyper_params disk drawn).2 = n `max` 2.
Proof.
  intros Hdone. rewrite init_start in *.
  pose proof (after_fst_snd _ _ _ _
                (init_spec_any env n logs weights hyper_params disk drawn))
    as H.
  rewrite Hdone in H. by destruct H as (_ & _ & Htab & Hn & _).
Qed.

Lemma init_constructs_witness :
  (init sample_env 3 (Some "./logs") (Some "./weights") (Some quick) ∅ 0).1
  = Done tt
  ∧ table_ok
      (Agent.self
         (machine
            (init sample_env 3 (Some "./logs") (Some "./weights")
               (Some quick) ∅ 0).2))
  ∧ self_n
      (init sample_env 3 (Some "./logs") (Some "./weights") (Some quick)
         ∅ 0).2 = 3 `max` 2.
Proof. split; [by vm_compute|]. apply init_constructs. by vm_compute. Defined.

(** X13: [pretrain_new_network] only appends.  When it returns, the table
    is the old one with one network added at the end and [self.n] is one
    more; the loss curve has [num_pretrain_iters] entries, four times as
    many for size 2, and is logged before the weights are saved; every
    estimator invocation handed a state of size [s] to the table entry [s].
    When it raises, the agent and the settings are as they were; so are
    the files, unless the loss curve was logged and the weights then could
    not be saved, in which case the curve is the one file added. *)
Theorem pretrain_new_network_appends env w :
  after (pretrain_new_network env) w
    (λ _ w', pretrained sized w w') (λ _ w', unsaved sized w w').
Proof. by apply pretrain_new_network_spec. Qed.

(** X14: [fine_tune] never changes [self.n], the settings, the length of
    the table or the kind of any entry (exact estimators stay as they are,
    networks stay networks), whether it returns or raises.  When it
    returns, the loss curve has [num_finetune_iters] entries and the files
    are the old ones with the curve logged and then the entries
    [2 .. self.n - 1] of the tuned table saved in order; when it raises
    and there are no folders, no file was touched. *)
Theorem fine_tune_keeps_table env w :
  after (fine_tune env) w
    (λ _ w', fine_tuned (λ _, True) w w') (λ _ w', kept (λ _, True) w w').
Proof.
  apply (fine_tune_spec env (λ _, True) (λ _, True)); [|done].
  intros d m _. apply fine_tune_instance_grows.
Qed.

(** X15: constructed with [logs_folder=None] and [weights_folder=None],
    and [hyper_params] either [None] or holding only keys among
    [num_pretrain_iters], [batch_size], [num_finetune_iters] and
    [finetune_batch_size] with natural numbers as values, the agent
    touches no file, whether the
    construction returns or raises. *)
Theorem init_without_folders env n hyper_params disk drawn :
  files (init env n None None hyper_params disk drawn).2 = disk.
Proof.
  rewrite init_start.
  pose proof (after_fst_snd _ _ _ _
                (init_spec_any env n None None hyper_params disk drawn)) as H.
  destruct (init_body env n (start None None hyper_params disk drawn)).1.
  - destruct H as (_ & _ & _ & _ & Hf & _). by apply Hf.
  - destruct H as (_ & _ & Hf). by apply Hf.
Qed.

(** X16: when [Agent(n, weights_folder=d)] returns, with [hyper_params]
    either [None] or holding only keys among [num_pretrain_iters],
    [batch_size], [num_finetune_iters] and [finetune_batch_size] with
    natural numbers as values, for
    every size [i] from 2 to [n - 1] the file [d/finetune-i.pt] holds the
    parameters of the table entry [i] as they stand in the returned
    agent. *)
Theorem init_saves_table env n logs d hyper_params disk drawn i :
  (init env n logs (Some d) hyper_params disk drawn).1 = Done tt →
  2 ≤ i < n →
  ∃ net,
    self_value_networks (init env n logs (Some d) hyper_params disk drawn).2
      !! i = Some (Network net)
    ∧ files (init env n logs (Some d) hyper_params disk drawn).2
        !! (d +:+ "/" +:+ ("finetune-" +:+ pretty i) +:+ ".pt")
      = Some (StateDict (linear_1 net) (linear_2 net) (linear_3 net)).
Proof.
  intros Hdone Hi. rewrite init_start in *.
  pose proof (after_fst_snd _ _ _ _
                (init_spec_any env n logs (Some d) hyper_params disk drawn))
    as H.
  rewrite Hdone in H. destruct H as (_ & _ & Htab & Hn & _ & Hsaved).
  destruct (table_ok_lookup _ i Htab) as [net Hnet].
  { unfold self_n in Hn. lia. }
  exists net. split; [done|]. by apply Hsaved.
Qed.

Lemma init_saves_table_witness :
  (init sample_env 3 None (Some "./weights") (Some quick) ∅ 0).1 = Done tt
  ∧ 2 ≤ 2 < 3
  ∧ ∃ net,
      self_value_networks
        (init sample_env 3 None (Some "./weights") (Some quick) ∅ 0).2
        !! 2 = Some (Network net)
      ∧ files (init sample_env 3 None (Some "./weights") (Some quick) ∅ 0).2
          !! ("./weights" +:+ "/" +:+ ("finetune-" +:+ pretty 2) +:+ ".pt")
        = Some (StateDict (linear_1 net) (linear_2 net) (linear_3 net)).
Proof.
  split; [by vm_compute|]. split; [lia|].
  apply init_saves_table; [by vm_compute|lia].
Defined.

(** X17: if the generator returns instances of the size asked for, every
    estimator invocation made while [Agent(n, ...)] is constructed hands a
    state of size [s] to the table entry [s], whether the construction
    returns or raises. *)
Theorem init_invocations_sized env n logs weights hyper_params disk drawn :
  generator_ok env →
  Forall sized
    (Agent.invoked
       (machine (init env n logs weights hyper_params disk drawn).2)).
Proof.
  intros Hgen. rewrite init_start.
  assert (after (init_body env n) (start logs weights hyper_params disk drawn)
            (λ _ w', since sized
                       (start logs weights hyper_params disk drawn) w')
            (λ _ w', since sized
                       (start logs weights hyper_params disk drawn) w'))
    as H.
  { eapply after_mono;
      [apply (init_body_spec env sized (λ k, 1 ≤ k)); try done|..].
    - intros d m Hm. by apply fine_tune_instance_sized.
    - intros; lia.
    - by intros ? ? (? & _).
    - by intros ? ? (? & _). }
  apply after_fst_snd in H.
  destruct (init_body env n (start logs weights hyper_params disk drawn)).1;
    by destruct H as (cs & -> & Hcs).
Qed.

Lemma init_invocations_sized_witness :
  generator_ok sample_env
  ∧ Forall sized
      (Agent.invoked
         (machine
            (init sample_env 3 (Some "./logs") (Some "./weights")
               (Some quick) ∅ 0).2)).
Proof.
  assert (generator_ok sample_env) as H
    by (intros d size; apply length_replicate).
  split; [done|]. by apply init_invocations_sized.
Defined.

(** X18: with [finetune_batch_size = 0] and at least one fine-tuning
    iteration, [fine_tune] on a constructed agent of size above 2 raises
    at the concatenation of an empty list of predictions, before it draws
    an instance, invokes an estimator or writes a file. *)
Theorem fine_tune_empty_batch env w :
  table_ok (Agent.self (machine w)) → 2 < self_n w →
  finetune_batch_size (settings w) = 0 → 0 < num_finetune_iters (settings w) →
  fine_tune env w = (Failed EmptyConcat, w).
Proof.
  intros Htab Hn Hbatch Hiters.
  destruct (parameters_ok _ Htab Hn) as (net & nets & Hnets).
  unfold fine_tune. cbv [mbind T_bind read attempt fail mret T_ret].
  unfold self_value_networks. rewrite Hnets.
  destruct (num_finetune_iters (settings w)) as [|k]; [lia|].
  simpl seq. cbn [foldT]. cbv [mbind T_bind]. unfold fine_tune_iteration at 1.
  cbv [mbind T_bind read]. rewrite Hbatch. done.
Qed.

Lemma fine_tune_empty_batch_witness :
  let w := {| machine := {| Agent.self := sample_agent_3;
                            Agent.invoked := [] |};
              settings := {| logs_folder := None; weights_folder := None;
                             num_pretrain_iters := 1; batch_size := 1;
                             num_finetune_iters := 1;
                             finetune_batch_size := 0 |};
              files := ∅; draws := 0 |} in
  table_ok (Agent.self (machine w)) ∧ 2 < self_n w
  ∧ finetune_batch_size (settings w) = 0
  ∧ 0 < num_finetune_iters (settings w)
  ∧ fine_tune sample_env w = (Failed EmptyConcat, w).
Proof.
  intros w.
  assert (table_ok (Agent.self (machine w))) as Htab.
  { split; [done|]. split; [simpl; lia|]. split; [done|].
    intros [|[|[|i]]] e Hi He; try lia.
    - injection He as <-. by eexists.
    - done. }
  assert (2 < self_n w) as Hn by (vm_compute; lia).
  split; [done|]. split; [done|]. split; [done|]. split; [vm_compute; lia|].
  apply fine_tune_empty_batch; [done|done|done|vm_compute; lia].
Defined.

(** X19: [Agent(n, ...)] with [n <= 2], and [hyper_params] either [None]
    or holding only keys among [num_pretrain_iters], [batch_size],
    [num_finetune_iters] and [finetune_batch_size] with natural numbers as
    values, trains nothing: it
    returns the default agent of size 2 without a draw, an estimator
    invocation or a file written. *)
Theorem init_small env n logs weights hyper_params disk drawn :
  n ≤ 2 →
  init env n logs weights hyper_params disk drawn
  = (Done tt, start logs weights hyper_params disk drawn).
Proof.
  intros Hn. unfold init, init_body, start.
  replace (n - 2) with 0 by lia.
  assert ((2 <? n) = false) as -> by by apply Nat.ltb_ge.
  done.
Qed.

Lemma init_small_witness :
  1 ≤ 2
  ∧ init sample_env 1 (Some "./logs") (Some "./weights") None ∅ 0
    = (Done tt, start (Some "./logs") (Some "./weights") None ∅ 0).
Proof. split; [lia|]. apply init_small. lia. Defined.

(** X20: [fine_tune] on an agent whose table has no entry past the two
    exact estimators stops at once, the optimiser refusing an empty list
    of parameters: nothing is drawn, invoked or written. *)
Theorem fine_tune_nothing_to_tune env w :
  length (self_value_networks w) ≤ 2 →
  fine_tune env w = (Failed NoParameters, w).
Proof.
  intros Hlen. unfold fine_tune. cbv [mbind T_bind read attempt fail].
  by rewrite drop_ge.
Qed.

Lemma fine_tune_nothing_to_tune_witness :
  length (self_value_networks (start None None None ∅ 0)) ≤ 2
  ∧ fine_tune sample_env (start None None None ∅ 0)
    = (Failed NoParameters, start None None None ∅ 0).
Proof.
  split; [vm_compute; lia|]. apply fine_tune_nothing_to_tune.
  vm_compute; lia.
Defined.

End Constructor.

(** ** Exact estimators past size 1 *)

Section Silent.
Import Agent.

(** X24: [ClassicalValueEstimator(k)] with [k >= 2] returns nothing.  When
    it is the table entry for size [s - 1], the evaluation of a cubic
    state of size [s >= 2] raises [AttributeError] at the first pair,
    after that one invocation; so do the rollout and [act]. *)
Theorem exact_estimator_past_one s k (cost : Tensor) m :
  cubic s cost = true → 2 ≤ s → 2 ≤ k →
  value_networks (self m) !! (s - 1) = Some (ClassicalValueEstimator k) →
  let m' := logged m [{| table_index := s - 1;
                         argument := strike cost 0 0 |}] in
  (∀ return_best_move,
     evaluate_position cost return_best_move m = (Raise AttributeError, m'))
  ∧ (∀ return_positions,
       get_rewards cost return_positions m = (Raise AttributeError, m'))
  ∧ act cost m = (Raise AttributeError, m').
Proof.
  intros Hcubic Hs Hk He m'.
  pose proof Hcubic as [Hlen _]%cubic_spec.
  assert (∀ rbm, evaluate_position cost rbm m = (Raise AttributeError, m'))
    as Hev.
  { intros rbm. unfold evaluate_position. rewrite Hlen.
    destruct (Nat.eqb_spec s 1) as [->|_]; [lia|].
    destruct (product_head s) as [ps ->]; [lia|]. simpl.
    destruct (index3_cubic s cost 0 0 0 Hcubic) as [r Hr]; [lia..|].
    unfold invoke. cbv [mbind M_bind lift get_self record_call].
    rewrite (eliminate_strike s cost 0 0 Hcubic), Hr by lia. simpl.
    pose proof (lookup_lt_Some _ _ _ He) as Hlt.
    unfold resolve_index.
    destruct (Z.leb_spec 0 (Z.of_nat s - 1)); [|lia].
    destruct (Z.ltb_spec (Z.of_nat s - 1)
                (Z.of_nat (length (value_networks (self m))))); [|lia].
    simpl. replace (Z.to_nat (Z.of_nat s - 1)) with (s - 1) by lia.
    unfold getitem_nat. rewrite He. simpl.
    by destruct k as [|[|k]]; [lia..|]. }
  assert (∀ rp, get_rewards cost rp m = (Raise AttributeError, m')) as Hgr.
  { intros rp. unfold get_rewards. rewrite Hlen.
    destruct s as [|s']; [lia|]. simpl. rewrite Hlen.
    destruct (Nat.ltb_spec 1 (S s')); [|lia].
    unfold mbind, M_bind. by rewrite Hev. }
  split; [done|]. split; [done|].
  unfold act, mbind, M_bind. by rewrite Hgr.
Qed.

Lemma exact_estimator_past_one_witness :
  let m := fresh {| n := 3;
                    value_networks :=
                      [ClassicalValueEstimator 0; ClassicalValueEstimator 1;
                       ClassicalValueEstimator 2] |} in
  let m' := logged m [{| table_index := 3 - 1;
                         argument := strike sample_cost_3 0 0 |}] in
  (∀ return_best_move,
     evaluate_position sample_cost_3 return_best_move m
     = (Raise AttributeError, m'))
  ∧ (∀ return_positions,
       get_rewards sample_cost_3 return_positions m
       = (Raise AttributeError, m'))
  ∧ act sample_cost_3 m = (Raise AttributeError, m').
Proof.
  intros m.
  apply (exact_estimator_past_one 3 2 sample_cost_3 m);
    [reflexivity | lia | lia | reflexivity].
Defined.

End Silent.
